(** * goreasoner: a shallow embedding of the reasoning kernel

    The development follows the Go sources of [pkg/reasoner]:
    - the triple store ([Triple], [TripleStore], [Add], [Contains], the
      [FindBy...] lookups),
    - the thirteen entailment rules of [rules.go] and [DefaultRules],
    - the fixed-point driver [RunForwardReasoning] and the entry point
      [ForwardReasonWithDetails],
    - the Turtle parser of [parser.go] ([Parse] and the functions it calls),
    - the queries and the rendering of the reasoner ([Query],
      [GetInferredTypes], [GetAllTriples]) and [ForwardReason],
    - the names that the conversion to Datalog makes ([simplifyIRI],
      [makeDatalogSafe]),
    - the Datalog evaluator ([isVariable], [findSubstitutions],
      [applySubstitution], [Reason], [EvaluateQuery]).

    Go strings are byte strings; they are modelled by [string] (a list of
    8-bit [ascii]).  Go maps are modelled by stdpp's [gmap]; reading a key
    that is absent returns the zero value of the element type, which is
    written out by [mapBool] and [mapIdx].  Go's [int] counters are modelled
    by [nat]. *)

From Stdlib Require Import String Ascii List Arith Lia Permutation Bool Sorted.
From stdpp Require Import gmap strings list.

(** ** Characters that cannot be written inside a string literal *)

Definition dquote : ascii := "034"%char.
Definition newline : ascii := "010"%char.
Definition tab : ascii := "009"%char.
Definition cr : ascii := "013"%char.
Definition backslash : ascii := "092"%char.

(** ** Triples and the triple store *)

Record Triple := mkTriple {
  Subject : string;
  Predicate : string;
  Object : string
}.

Record TripleStore := mkStore {
  triples : gmap string bool;
  tripleList : list Triple;
  bySubject : gmap string (list nat);
  byPredicate : gmap string (list nat);
  byObject : gmap string (list nat)
}.

(** [m[k]] on a [map[string]bool]: [false] when [k] is absent. *)
Definition mapBool (m : gmap string bool) (k : string) : bool :=
  default false (m !! k).

(** [m[k]] on a [map[string][]int]: the nil slice when [k] is absent. *)
Definition mapIdx (m : gmap string (list nat)) (k : string) : list nat :=
  default [] (m !! k).

Definition NewTripleStore : TripleStore :=
  {| triples := ∅; tripleList := []; bySubject := ∅;
     byPredicate := ∅; byObject := ∅ |}.

Definition tripleKey (t : Triple) : string :=
  Subject t +:+ "|" +:+ Predicate t +:+ "|" +:+ Object t.

(** [Add] returns the updated store together with Go's boolean result. *)
Definition Add (ts : TripleStore) (t : Triple) : TripleStore * bool :=
  let key := tripleKey t in
  if mapBool (triples ts) key then (ts, false)
  else
    let idx := length (tripleList ts) in
    ({| triples := <[key := true]> (triples ts);
        tripleList := tripleList ts ++ [t];
        bySubject :=
          <[Subject t := mapIdx (bySubject ts) (Subject t) ++ [idx]]> (bySubject ts);
        byPredicate :=
          <[Predicate t := mapIdx (byPredicate ts) (Predicate t) ++ [idx]]> (byPredicate ts);
        byObject :=
          <[Object t := mapIdx (byObject ts) (Object t) ++ [idx]]> (byObject ts) |},
     true).

Definition Contains (ts : TripleStore) (t : Triple) : bool :=
  mapBool (triples ts) (tripleKey t).

(** [for _, idx := range idxs { result = append(result, ts.tripleList[idx]) }].
    Go panics when [idx] is out of range; the model skips such an index, and
    [fetch_in_range] below shows that no store built by [Add] contains one. *)
Definition fetch (l : list Triple) (idxs : list nat) : list Triple :=
  flat_map (fun idx => match nth_error l idx with
                       | Some t => [t]
                       | None => []
                       end) idxs.

Definition FindBySubject (ts : TripleStore) (subject : string) : list Triple :=
  fetch (tripleList ts) (mapIdx (bySubject ts) subject).

Definition FindByPredicate (ts : TripleStore) (predicate : string) : list Triple :=
  fetch (tripleList ts) (mapIdx (byPredicate ts) predicate).

Definition FindByObject (ts : TripleStore) (object : string) : list Triple :=
  fetch (tripleList ts) (mapIdx (byObject ts) object).

Definition FindBySubjectPredicate (ts : TripleStore) (subject predicate : string)
  : list Triple :=
  List.filter (fun t => String.eqb (Predicate t) predicate)
              (fetch (tripleList ts) (mapIdx (bySubject ts) subject)).

Definition FindByPredicateObject (ts : TripleStore) (predicate object : string)
  : list Triple :=
  List.filter (fun t => String.eqb (Object t) object)
              (fetch (tripleList ts) (mapIdx (byPredicate ts) predicate)).

Definition All (ts : TripleStore) : list Triple := tripleList ts.

Definition Size (ts : TripleStore) : nat := length (tripleList ts).

(** Loading a list of triples into a store, as the loop of [LoadTurtle]
    does: the boolean results of [Add] are dropped. *)
Definition addAll (ts : TripleStore) (l : list Triple) : TripleStore :=
  fold_left (fun s t => fst (Add s t)) l ts.

(** ** The rule catalogue ([rules.go]) *)

Definition RDFType : string := "http://www.w3.org/1999/02/22-rdf-syntax-ns#type".
Definition RDFSSubClassOf : string := "http://www.w3.org/2000/01/rdf-schema#subClassOf".
Definition RDFSSubPropertyOf : string := "http://www.w3.org/2000/01/rdf-schema#subPropertyOf".
Definition RDFSDomain : string := "http://www.w3.org/2000/01/rdf-schema#domain".
Definition RDFSRange : string := "http://www.w3.org/2000/01/rdf-schema#range".
Definition OWLClass : string := "http://www.w3.org/2002/07/owl#Class".
Definition OWLThing : string := "http://www.w3.org/2002/07/owl#Thing".
Definition OWLEquivalentClass : string := "http://www.w3.org/2002/07/owl#equivalentClass".
Definition OWLSameAs : string := "http://www.w3.org/2002/07/owl#sameAs".
Definition OWLInverseOf : string := "http://www.w3.org/2002/07/owl#inverseOf".
Definition OWLTransitiveProperty : string := "http://www.w3.org/2002/07/owl#TransitiveProperty".
Definition OWLSymmetricProperty : string := "http://www.w3.org/2002/07/owl#SymmetricProperty".

(** The [Rule] interface: a name and an [Apply] method. *)
Record Rule := mkRule {
  Name : string;
  Apply : TripleStore -> list Triple
}.

(** The order in which Go ranges over a map is unspecified.  A [MapOrder]
    is one way of enumerating the keys: any permutation of them. *)
Record MapOrder := mkMapOrder {
  order :> list string -> list string;
  order_perm : forall l, Permutation (order l) l
}.

Definition insertionOrder : MapOrder :=
  {| order := fun l => l; order_perm := @Permutation_refl string |}.

(** [m := make(map[string]bool); for _, t := range l { m[t.Subject] = true };
    for prop := range m]: every distinct subject once, in the order [mo]. *)
Definition rangeSubjects (mo : MapOrder) (l : list Triple) : list string :=
  mo (nodup string_dec (map Subject l)).

(** [if !store.Contains(newTriple) && guard { inferred = append(inferred, newTriple) }] *)
Definition propose (store : TripleStore) (guard : bool) (newTriple : Triple)
  : list Triple :=
  if negb (Contains store newTriple) && guard then [newTriple] else [].

(** The loop shared, text for text, by the four transitivity rules and by
    the body of the transitive-property rule: for every [t1 = (a prop b)]
    and every [t2 = (b prop c)] propose [(a prop c)] unless [a = c]. *)
Definition transitiveLoop (store : TripleStore) (prop : string) : list Triple :=
  flat_map (fun t1 =>
    let a := Subject t1 in
    let b := Object t1 in
    flat_map (fun t2 =>
      let c := Object t2 in
      let newTriple := {| Subject := a; Predicate := prop; Object := c |} in
      propose store (negb (String.eqb a c)) newTriple)
      (FindBySubjectPredicate store b prop))
    (FindByPredicate store prop).

(** The loop shared by the two symmetry rules and by the body of the
    symmetric-property rule: for every [(x prop y)] propose [(y prop x)]. *)
Definition symmetricLoop (store : TripleStore) (prop : string) : list Triple :=
  flat_map (fun t =>
    let newTriple := {| Subject := Object t; Predicate := prop; Object := Subject t |} in
    propose store true newTriple)
    (FindByPredicate store prop).

Definition SubClassTransitivity_Apply (store : TripleStore) : list Triple :=
  transitiveLoop store RDFSSubClassOf.

Definition TypeInheritance_Apply (store : TripleStore) : list Triple :=
  flat_map (fun t =>
    let x := Subject t in
    let a := Object t in
    flat_map (fun sc =>
      let b := Object sc in
      let newTriple := {| Subject := x; Predicate := RDFType; Object := b |} in
      propose store true newTriple)
      (FindBySubjectPredicate store a RDFSSubClassOf))
    (FindByPredicate store RDFType).

Definition DomainInference_Apply (store : TripleStore) : list Triple :=
  flat_map (fun dt =>
    let p := Subject dt in
    let c := Object dt in
    flat_map (fun t =>
      let x := Subject t in
      let newTriple := {| Subject := x; Predicate := RDFType; Object := c |} in
      propose store true newTriple)
      (FindByPredicate store p))
    (FindByPredicate store RDFSDomain).

(** [len(y) > 0 && y[0] == dquote]: the test for a literal. *)
Definition isLiteral (y : string) : bool :=
  match y with
  | String ch _ => Ascii.eqb ch dquote
  | EmptyString => false
  end.

Definition RangeInference_Apply (store : TripleStore) : list Triple :=
  flat_map (fun rt =>
    let p := Subject rt in
    let c := Object rt in
    flat_map (fun t =>
      let y := Object t in
      if isLiteral y then []
      else
        let newTriple := {| Subject := y; Predicate := RDFType; Object := c |} in
        propose store true newTriple)
      (FindByPredicate store p))
    (FindByPredicate store RDFSRange).

Definition SubPropertyTransitivity_Apply (store : TripleStore) : list Triple :=
  transitiveLoop store RDFSSubPropertyOf.

Definition SubPropertyInheritance_Apply (store : TripleStore) : list Triple :=
  flat_map (fun sp =>
    let p1 := Subject sp in
    let p2 := Object sp in
    flat_map (fun t =>
      let newTriple := {| Subject := Subject t; Predicate := p2; Object := Object t |} in
      propose store true newTriple)
      (FindByPredicate store p1))
    (FindByPredicate store RDFSSubPropertyOf).

Definition EquivalentClassSymmetry_Apply (store : TripleStore) : list Triple :=
  symmetricLoop store OWLEquivalentClass.

Definition EquivalentClassTransitivity_Apply (store : TripleStore) : list Triple :=
  transitiveLoop store OWLEquivalentClass.

Definition SameAsSymmetry_Apply (store : TripleStore) : list Triple :=
  symmetricLoop store OWLSameAs.

Definition SameAsTransitivity_Apply (store : TripleStore) : list Triple :=
  transitiveLoop store OWLSameAs.

Definition InversePropertyInference_Apply (store : TripleStore) : list Triple :=
  flat_map (fun inv =>
    let p1 := Subject inv in
    let p2 := Object inv in
    flat_map (fun t =>
      let newTriple := {| Subject := Object t; Predicate := p2; Object := Subject t |} in
      propose store true newTriple)
      (FindByPredicate store p1)
    ++
    flat_map (fun t =>
      let newTriple := {| Subject := Object t; Predicate := p1; Object := Subject t |} in
      propose store true newTriple)
      (FindByPredicate store p2))
    (FindByPredicate store OWLInverseOf).

Definition TransitivePropertyInference_Apply (mo : MapOrder) (store : TripleStore)
  : list Triple :=
  flat_map (fun prop => transitiveLoop store prop)
    (rangeSubjects mo (FindByPredicateObject store RDFType OWLTransitiveProperty)).

Definition SymmetricPropertyInference_Apply (mo : MapOrder) (store : TripleStore)
  : list Triple :=
  flat_map (fun prop => symmetricLoop store prop)
    (rangeSubjects mo (FindByPredicateObject store RDFType OWLSymmetricProperty)).

Definition SubClassTransitivity : Rule :=
  {| Name := "rdfs:subClassOf-transitivity"; Apply := SubClassTransitivity_Apply |}.
Definition TypeInheritance : Rule :=
  {| Name := "rdf:type-inheritance"; Apply := TypeInheritance_Apply |}.
Definition DomainInference : Rule :=
  {| Name := "rdfs:domain-inference"; Apply := DomainInference_Apply |}.
Definition RangeInference : Rule :=
  {| Name := "rdfs:range-inference"; Apply := RangeInference_Apply |}.
Definition SubPropertyTransitivity : Rule :=
  {| Name := "rdfs:subPropertyOf-transitivity"; Apply := SubPropertyTransitivity_Apply |}.
Definition SubPropertyInheritance : Rule :=
  {| Name := "rdfs:subPropertyOf-inheritance"; Apply := SubPropertyInheritance_Apply |}.
Definition EquivalentClassSymmetry : Rule :=
  {| Name := "owl:equivalentClass-symmetry"; Apply := EquivalentClassSymmetry_Apply |}.
Definition EquivalentClassTransitivity : Rule :=
  {| Name := "owl:equivalentClass-transitivity"; Apply := EquivalentClassTransitivity_Apply |}.
Definition SameAsSymmetry : Rule :=
  {| Name := "owl:sameAs-symmetry"; Apply := SameAsSymmetry_Apply |}.
Definition SameAsTransitivity : Rule :=
  {| Name := "owl:sameAs-transitivity"; Apply := SameAsTransitivity_Apply |}.
Definition InversePropertyInference : Rule :=
  {| Name := "owl:inverseOf-inference"; Apply := InversePropertyInference_Apply |}.
Definition TransitivePropertyInference (mo : MapOrder) : Rule :=
  {| Name := "owl:TransitiveProperty-inference";
     Apply := TransitivePropertyInference_Apply mo |}.
Definition SymmetricPropertyInference (mo : MapOrder) : Rule :=
  {| Name := "owl:SymmetricProperty-inference";
     Apply := SymmetricPropertyInference_Apply mo |}.

Definition DefaultRules (mo : MapOrder) : list Rule :=
  [ SubClassTransitivity; TypeInheritance; DomainInference; RangeInference;
    SubPropertyTransitivity; SubPropertyInheritance;
    EquivalentClassSymmetry; EquivalentClassTransitivity;
    SameAsSymmetry; SameAsTransitivity;
    InversePropertyInference;
    TransitivePropertyInference mo; SymmetricPropertyInference mo ].

(** ** The reasoner and its fixed-point loop *)

(** The [parser] field of the Go struct carries no state from one call of
    [Parse] to the next ([Parse] resets every field), so it is left out. *)
Record Reasoner := mkReasoner {
  store : TripleStore;
  rules : list Rule
}.

Definition NewReasoner (mo : MapOrder) : Reasoner :=
  {| store := NewTripleStore; rules := DefaultRules mo |}.

Definition NewReasonerWithRules (rs : list Rule) : Reasoner :=
  {| store := NewTripleStore; rules := rs |}.

(** [for _, t := range inferred { if r.store.Add(t) { newInThisRound++ } }] *)
Fixpoint addInferred (st : TripleStore) (inferred : list Triple) (newInThisRound : nat)
  : TripleStore * nat :=
  match inferred with
  | [] => (st, newInThisRound)
  | t :: inferred' =>
      let (st', isNew) := Add st t in
      addInferred st' inferred' (if isNew then S newInThisRound else newInThisRound)
  end.

(** [for _, rule := range r.rules { inferred := rule.Apply(r.store); ... }] *)
Fixpoint applyRules (rs : list Rule) (st : TripleStore) (newInThisRound : nat)
  : TripleStore * nat :=
  match rs with
  | [] => (st, newInThisRound)
  | rule :: rs' =>
      let inferred := Apply rule st in
      let (st', n) := addInferred st inferred newInThisRound in
      applyRules rs' st' n
  end.

(** The unbounded [for] of [RunForwardReasoning], with [fuel] bounding the
    number of rounds; [None] means the bound was reached. *)
Fixpoint reasoningLoop (fuel : nat) (rs : list Rule) (st : TripleStore)
  (totalInferred : nat) : option (TripleStore * nat) :=
  match fuel with
  | 0 => None
  | S fuel' =>
      let (st', newInThisRound) := applyRules rs st 0 in
      if Nat.eqb newInThisRound 0 then Some (st', totalInferred)
      else reasoningLoop fuel' rs st' (totalInferred + newInThisRound)
  end.

Definition RunForwardReasoning (fuel : nat) (r : Reasoner) : option (Reasoner * nat) :=
  match reasoningLoop fuel (rules r) (store r) 0 with
  | Some (st', totalInferred) =>
      Some ({| store := st'; rules := rules r |}, totalInferred)
  | None => None
  end.

(** A number of rounds that is always enough for the default rules: one
    more than the number of triples over the terms of the store and
    [rdf:type]. *)
Definition termsOf (l : list Triple) : list string :=
  flat_map (fun t => [Subject t; Predicate t; Object t]) l.

Definition universe (st : TripleStore) : list string :=
  RDFType :: termsOf (tripleList st).

Definition roundBound (st : TripleStore) : nat :=
  S (length (universe st) * (length (universe st) * length (universe st))).

(** ** The Turtle parser ([parser.go]) *)

(** The errors of the package.  The position that some messages print is
    left out. *)
Inductive Error : Type :=
| ErrExpectedPrefixName             (* expected prefix name at position %d *)
| ErrExpectedLt                     (* expected '<' at position %d *)
| ErrUnterminatedIRI                (* unterminated IRI *)
| ErrUnexpectedEnd                  (* unexpected end of input *)
| ErrExpectedColon                  (* expected ':' in prefixed name at position %d *)
| ErrParseTurtle (e : Error)        (* failed to parse Turtle: %w *)
| ErrLoadTBox (e : Error)           (* failed to load TBox: %w *)
| ErrLoadABox (e : Error).          (* failed to load ABox: %w *)

(** The outcome of a call: Go's [(a, nil)], Go's [(_, err)], or the bound of
    a loop of the model was reached (which no Go run does). *)
Inductive result (A : Type) : Type :=
| Ok (a : A)
| Err (e : Error)
| OutOfFuel.
Arguments Ok {A} a.
Arguments Err {A} e.
Arguments OutOfFuel {A}.

(** The fields [input] and [pos] are represented by the part of the input
    that is still unread, [p.input[p.pos:]]: [p.pos >= len(p.input)] is
    [unread p = EmptyString] and [p.pos++] drops one byte. *)
Record TurtleParser := mkParser {
  prefixes : gmap string string;
  base : string;
  unread : string
}.

Definition setUnread (p : TurtleParser) (s : string) : TurtleParser :=
  {| prefixes := prefixes p; base := base p; unread := s |}.

(** A method of [*TurtleParser] that may fail: it returns its outcome and
    the parser as the call left it (also when it fails). *)
Definition parser (A : Type) : Type := TurtleParser -> result A * TurtleParser.

Definition ret {A} (a : A) : parser A := fun p => (Ok a, p).

Definition fail {A} (e : Error) : parser A := fun p => (Err e, p).

Definition bind {A B} (m : parser A) (k : A -> parser B) : parser B :=
  fun p =>
    match m p with
    | (Ok a, p') => k a p'
    | (Err e, p') => (Err e, p')
    | (OutOfFuel, p') => (OutOfFuel, p')
    end.

Notation "x <- m ;; k" := (bind m (fun x => k))
  (at level 20, m at level 99, k at level 200, only parsing).
Notation "m ;;; k" := (bind m (fun _ => k))
  (at level 100, k at level 200, right associativity, only parsing).

(** [x, _ := m()]: the error is dropped and [x] is the empty string. *)
Definition ignoreErr (m : parser string) : parser string :=
  fun p =>
    match m p with
    | (Err _, p') => (Ok EmptyString, p')
    | other => other
    end.

Definition getParser : parser TurtleParser := fun p => (Ok p, p).

(** *** Characters.  Every test is made on [rune(ch)] for a byte [ch], so
    only the Latin-1 part of Go's [unicode] tables matters. *)

Definition inRange (lo hi : N) (ch : ascii) : bool :=
  (lo <=? N_of_ascii ch)%N && (N_of_ascii ch <=? hi)%N.

(** [unicode.IsLetter] on Latin-1: A-Z, a-z, U+00AA, U+00B5, U+00BA,
    U+00C0-U+00D6, U+00D8-U+00F6, U+00F8-U+00FF. *)
Definition isLetter (ch : ascii) : bool :=
  inRange 65 90 ch || inRange 97 122 ch || inRange 170 170 ch
  || inRange 181 181 ch || inRange 186 186 ch || inRange 192 214 ch
  || inRange 216 246 ch || inRange 248 255 ch.

(** [unicode.IsDigit] on Latin-1: 0-9. *)
Definition isDigit (ch : ascii) : bool := inRange 48 57 ch.

(** [unicode.IsSpace] on Latin-1: tab, newline, vertical tab, form feed,
    carriage return, space, U+0085, U+00A0. *)
Definition isSpace (ch : ascii) : bool :=
  inRange 9 13 ch || inRange 32 32 ch || inRange 133 133 ch || inRange 160 160 ch.

Definition isNameChar (ch : ascii) : bool :=
  isLetter ch || isDigit ch || Ascii.eqb ch "_" || Ascii.eqb ch "-" || Ascii.eqb ch ".".

Definition isAlphaNum (ch : ascii) : bool := isLetter ch || isDigit ch.

(** *** Strings *)

Fixpoint dropS (n : nat) (s : string) : string :=
  match n, s with
  | S n', String _ s' => dropS n' s'
  | _, _ => s
  end.

Fixpoint takeS (n : nat) (s : string) : string :=
  match n, s with
  | S n', String ch s' => String ch (takeS n' s')
  | _, _ => EmptyString
  end.

(** [for pos < len(input) && f(input[pos]) { pos++ }]: the bytes passed
    over, and what is left. *)
Fixpoint span (f : ascii -> bool) (s : string) : string * string :=
  match s with
  | EmptyString => (EmptyString, EmptyString)
  | String ch s' =>
      if f ch then let (w, r) := span f s' in (String ch w, r)
      else (EmptyString, s)
  end.

(** [strings.Contains] *)
Fixpoint strContains (sub s : string) : bool :=
  String.prefix sub s ||
  match s with
  | EmptyString => false
  | String _ s' => strContains sub s'
  end.

(** [strings.TrimPrefix] *)
Definition TrimPrefix (s pre : string) : string :=
  if String.prefix pre s then dropS (String.length pre) s else s.

(** [strings.TrimSuffix(s, ":")] *)
Fixpoint trimColon (s : string) : string :=
  match s with
  | EmptyString => EmptyString
  | String ch EmptyString => if Ascii.eqb ch ":" then EmptyString else s
  | String ch s' => String ch (trimColon s')
  end.

(** [strings.ReplaceAll(s, "\r\n", "\n")] *)
Fixpoint normalizeNewlines (s : string) : string :=
  match s with
  | EmptyString => EmptyString
  | String ch s' =>
      match s' with
      | String ch2 s'' =>
          if Ascii.eqb ch cr && Ascii.eqb ch2 newline
          then String newline (normalizeNewlines s'')
          else String ch (normalizeNewlines s')
      | EmptyString => s
      end
  end.

(** The byte-order mark U+FEFF in UTF-8. *)
Definition BOM : string :=
  String "239"%char (String "187"%char (String "191"%char EmptyString)).

Definition toUpperAscii (ch : ascii) : ascii :=
  if inRange 97 122 ch then ascii_of_N (N_of_ascii ch - 32) else ch.

(** [strings.EqualFold(s[:len(t)], t)] for an ASCII [t].  The only rune
    outside ASCII that folds to a letter of PREFIX or BASE is U+017F
    (for S); it takes two bytes, so a slice of the same byte length as the
    keyword that contains it has too few runes and is not equal.  On these
    keywords [EqualFold] is therefore equality of bytes up to ASCII case. *)
Fixpoint prefixFold (t s : string) : bool :=
  match t, s with
  | EmptyString, _ => true
  | String c t', String d s' =>
      Ascii.eqb (toUpperAscii c) (toUpperAscii d) && prefixFold t' s'
  | String _ _, EmptyString => false
  end.

(** *** Methods of the parser *)

Definition atEnd (p : TurtleParser) : bool :=
  match unread p with
  | EmptyString => true
  | String _ _ => false
  end.

(** [p.input[p.pos]], when [p.pos < len(p.input)]. *)
Definition peek (p : TurtleParser) : option ascii :=
  match unread p with
  | EmptyString => None
  | String ch _ => Some ch
  end.

Definition peekIs (ch : ascii) (p : TurtleParser) : bool :=
  match peek p with
  | Some c => Ascii.eqb c ch
  | None => false
  end.

(** [p.pos += n] *)
Definition advance (n : nat) : parser unit :=
  fun p => (Ok tt, setUnread p (dropS n (unread p))).

(** The loop [for p.pos < len(p.input) && f(p.input[p.pos]) { p.pos++ }]
    followed by the slice [p.input[start:p.pos]]. *)
Definition takeWhile (f : ascii -> bool) : parser string :=
  fun p => let (w, r) := span f (unread p) in (Ok w, setUnread p r).

(** The two loops of [skipWhitespaceAndComments] in one recursion:
    [inComment] says that the inner loop (skip to the end of the line) is
    running.  The inner loop stops in front of the newline, which the outer
    loop then skips as white space. *)
Fixpoint skipSpaces (inComment : bool) (s : string) : string :=
  match s with
  | EmptyString => EmptyString
  | String ch s' =>
      if inComment then
        if Ascii.eqb ch newline then skipSpaces false s' else skipSpaces true s'
      else if Ascii.eqb ch " " || Ascii.eqb ch tab || Ascii.eqb ch newline
              || Ascii.eqb ch cr
      then skipSpaces false s'
      else if Ascii.eqb ch "#" then skipSpaces true s'
      else s
  end.

Definition skipWhitespaceAndComments : parser unit :=
  fun p => (Ok tt, setUnread p (skipSpaces false (unread p))).

Definition lookingAt (s : string) (p : TurtleParser) : bool :=
  String.prefix s (unread p).

Definition lookingAtCaseInsensitive (s : string) (p : TurtleParser) : bool :=
  prefixFold s (unread p).

(** The loop of [parsePrefixName]: up to and including the first colon, or
    up to a space, or to the end. *)
Fixpoint prefixNameSpan (s : string) : string * string :=
  match s with
  | EmptyString => (EmptyString, EmptyString)
  | String ch s' =>
      if Ascii.eqb ch ":" then (String ch EmptyString, s')
      else if isSpace ch then (EmptyString, s)
      else let (w, r) := prefixNameSpan s' in (String ch w, r)
  end.

Definition parsePrefixName : parser string :=
  fun p => let (w, r) := prefixNameSpan (unread p) in (Ok w, setUnread p r).

Definition parseIRI : parser string :=
  skipWhitespaceAndComments ;;;
  p <- getParser ;;
  if negb (peekIs "<" p) then fail ErrExpectedLt
  else
    advance 1 ;;;
    iri <- takeWhile (fun ch => negb (Ascii.eqb ch ">")) ;;
    p <- getParser ;;
    if atEnd p then fail ErrUnterminatedIRI
    else advance 1 ;;; ret iri.

Definition resolveIRI (p : TurtleParser) (iri : string) : string :=
  if negb (String.eqb (base p) EmptyString) && negb (strContains "://" iri)
     && negb (String.prefix "#" iri)
  then base p +:+ iri
  else iri.

Definition parsePrefix : parser unit :=
  p <- getParser ;;
  (if lookingAt "@prefix" p then advance 7 else advance 6) ;;;
  skipWhitespaceAndComments ;;;
  prefixName <- parsePrefixName ;;
  if String.eqb prefixName EmptyString then fail ErrExpectedPrefixName
  else
    skipWhitespaceAndComments ;;;
    iri <- parseIRI ;;
    skipWhitespaceAndComments ;;;
    p <- getParser ;;
    (if peekIs "." p then advance 1 else ret tt) ;;;
    fun p => (Ok tt, {| prefixes := <[trimColon prefixName := iri]> (prefixes p);
                        base := base p; unread := unread p |}).

Definition parseBase : parser unit :=
  p <- getParser ;;
  (if lookingAt "@base" p then advance 5 else advance 4) ;;;
  skipWhitespaceAndComments ;;;
  iri <- parseIRI ;;
  skipWhitespaceAndComments ;;;
  p <- getParser ;;
  (if peekIs "." p then advance 1 else ret tt) ;;;
  fun p => (Ok tt, {| prefixes := prefixes p; base := iri; unread := unread p |}).

(** [start := p.pos; p.pos += 2; ...; return p.input[start:p.pos]] *)
Definition parseBlankNode : parser string :=
  p <- getParser ;;
  advance 2 ;;;
  label <- takeWhile isNameChar ;;
  ret (takeS 2 (unread p) +:+ label).

Definition parsePrefixedName : parser string :=
  prefix <- takeWhile (fun ch => negb (Ascii.eqb ch ":") && isNameChar ch) ;;
  p <- getParser ;;
  if negb (peekIs ":" p) then fail ErrExpectedColon
  else
    advance 1 ;;;
    local <- takeWhile isNameChar ;;
    p <- getParser ;;
    match prefixes p !! prefix with
    | Some b => ret (b +:+ local)
    | None => ret (prefix +:+ ":" +:+ local)
    end.

Definition tripleQuote : string :=
  String dquote (String dquote (String dquote EmptyString)).

(** The loop of [parseLiteral] for a triple-quoted string: what is written
    to the builder, and what is left unread. *)
Fixpoint tripleQuotedSpan (s : string) : string * string :=
  match s with
  | EmptyString => (EmptyString, EmptyString)
  | String ch s' =>
      if String.prefix tripleQuote s then (String dquote EmptyString, dropS 3 s)
      else let (w, r) := tripleQuotedSpan s' in (String ch w, r)
  end.

(** The loop of [parseLiteral] for a single-quoted string: it stops in
    front of the closing quote; a backslash and the byte after it are
    copied together. *)
Fixpoint quotedSpan (s : string) : string * string :=
  match s with
  | EmptyString => (EmptyString, EmptyString)
  | String ch s' =>
      if Ascii.eqb ch dquote then (EmptyString, s)
      else
        match s' with
        | String ch2 s'' =>
            if Ascii.eqb ch backslash
            then let (w, r) := quotedSpan s'' in (String ch (String ch2 w), r)
            else let (w, r) := quotedSpan s' in (String ch w, r)
        | EmptyString => (String ch EmptyString, EmptyString)
        end
  end.

Definition parseLiteral : parser string :=
  p <- getParser ;;
  sb <- (if lookingAt tripleQuote p then
           advance 3 ;;;
           fun p => let (w, r) := tripleQuotedSpan (unread p) in
                    (Ok (String dquote w), setUnread p r)
         else
           advance 1 ;;;
           w <- (fun p => let (w, r) := quotedSpan (unread p) in (Ok w, setUnread p r)) ;;
           p <- getParser ;;
           (if atEnd p then ret tt else advance 1) ;;;
           ret (String dquote w +:+ String dquote EmptyString)) ;;
  p <- getParser ;;
  if peekIs "@" p then
    advance 1 ;;;
    tag <- takeWhile (fun ch => isAlphaNum ch || Ascii.eqb ch "-") ;;
    ret (sb +:+ "@" +:+ tag)
  else if lookingAt "^^" p then
    advance 2 ;;;
    p <- getParser ;;
    if peekIs "<" p then
      iri <- ignoreErr parseIRI ;;
      p <- getParser ;;
      ret (sb +:+ "^^" +:+ "<" +:+ resolveIRI p iri +:+ ">")
    else
      dt <- ignoreErr parsePrefixedName ;;
      ret (sb +:+ "^^" +:+ "<" +:+ dt +:+ ">")
  else ret sb.

Definition parseSubject : parser string :=
  skipWhitespaceAndComments ;;;
  p <- getParser ;;
  if atEnd p then fail ErrUnexpectedEnd
  else if peekIs "<" p then
    iri <- parseIRI ;;
    p <- getParser ;;
    ret (resolveIRI p iri)
  else if lookingAt "_:" p then parseBlankNode
  else parsePrefixedName.

(** The test for the keyword [a]: the byte is [a] and it is the last byte
    or the next byte is not a name character. *)
Definition lookingAtKeywordA (p : TurtleParser) : bool :=
  match unread p with
  | String ch s' =>
      Ascii.eqb ch "a" &&
      match s' with
      | EmptyString => true
      | String ch2 _ => negb (isNameChar ch2)
      end
  | EmptyString => false
  end.

Definition parsePredicate : parser string :=
  skipWhitespaceAndComments ;;;
  p <- getParser ;;
  if atEnd p then fail ErrUnexpectedEnd
  else if lookingAtKeywordA p then advance 1 ;;; ret RDFType
  else if peekIs "<" p then
    iri <- parseIRI ;;
    p <- getParser ;;
    ret (resolveIRI p iri)
  else parsePrefixedName.

Definition parseObject : parser string :=
  skipWhitespaceAndComments ;;;
  p <- getParser ;;
  if atEnd p then fail ErrUnexpectedEnd
  else if peekIs "<" p then
    iri <- parseIRI ;;
    p <- getParser ;;
    ret (resolveIRI p iri)
  else if lookingAt "_:" p then parseBlankNode
  else if peekIs dquote p then parseLiteral
  else parsePrefixedName.

(** The inner [for] of [parseTriples]: the object list of one predicate.
    [fuel] bounds the number of iterations. *)
Fixpoint parseObjectList (fuel : nat) (subject predicate : string)
  (triples : list Triple) : parser (list Triple) :=
  match fuel with
  | 0 => fun p => (OutOfFuel, p)
  | S fuel' =>
      skipWhitespaceAndComments ;;;
      object <- parseObject ;;
      let triples :=
        triples ++ [{| Subject := subject; Predicate := predicate; Object := object |}] in
      skipWhitespaceAndComments ;;;
      p <- getParser ;;
      if peekIs "," p then
        advance 1 ;;;
        parseObjectList fuel' subject predicate triples
      else ret triples
  end.

(** The outer [for] of [parseTriples]: the predicate-object list. *)
Fixpoint parsePredicateObjectList (fuel : nat) (subject : string)
  (triples : list Triple) : parser (list Triple) :=
  match fuel with
  | 0 => fun p => (OutOfFuel, p)
  | S fuel' =>
      skipWhitespaceAndComments ;;;
      p <- getParser ;;
      if atEnd p then ret triples
      else if peekIs "." p then advance 1 ;;; ret triples
      else
        predicate <- parsePredicate ;;
        p <- getParser ;;
        triples <- parseObjectList (S (String.length (unread p))) subject predicate triples ;;
        skipWhitespaceAndComments ;;;
        p <- getParser ;;
        if atEnd p then ret triples
        else if peekIs ";" p then
          advance 1 ;;;
          skipWhitespaceAndComments ;;;
          p <- getParser ;;
          if peekIs "." p then advance 1 ;;; ret triples
          else parsePredicateObjectList fuel' subject triples
        else if peekIs "." p then advance 1 ;;; ret triples
        else ret triples
  end.

Definition parseTriples : parser (list Triple) :=
  subject <- parseSubject ;;
  p <- getParser ;;
  parsePredicateObjectList (S (String.length (unread p))) subject [].

(** [for p.pos < len(p.input) && p.input[p.pos] != '.' { p.pos++ }] and
    then one more byte, when there is one. *)
Definition skipToNextStatement (p : TurtleParser) : TurtleParser :=
  let r := snd (span (fun ch => negb (Ascii.eqb ch ".")) (unread p)) in
  setUnread p (dropS 1 r).

(** One iteration of the [for] of [Parse], with the test of its head. *)
Inductive Iteration : Type :=
| Finished                                   (* the loop ends *)
| Fatal (e : Error)                          (* return nil, err *)
| Continue (p : TurtleParser) (newTriples : list Triple)
| IterationOutOfFuel.

Definition isPrefixDecl (p : TurtleParser) : bool :=
  lookingAt "@prefix" p || lookingAtCaseInsensitive "PREFIX" p.

Definition isBaseDecl (p : TurtleParser) : bool :=
  lookingAt "@base" p || lookingAtCaseInsensitive "BASE" p.

Definition parseIteration (p : TurtleParser) : Iteration :=
  if atEnd p then Finished
  else
    let p := snd (skipWhitespaceAndComments p) in
    if atEnd p then Finished
    else if isPrefixDecl p then
      match parsePrefix p with
      | (Ok _, p') => Continue p' []
      | (Err e, _) => Fatal e
      | (OutOfFuel, _) => IterationOutOfFuel
      end
    else if isBaseDecl p then
      match parseBase p with
      | (Ok _, p') => Continue p' []
      | (Err e, _) => Fatal e
      | (OutOfFuel, _) => IterationOutOfFuel
      end
    else
      match parseTriples p with
      | (Ok newTriples, p') => Continue p' newTriples
      | (Err _, p') => Continue (skipToNextStatement p') []
      | (OutOfFuel, _) => IterationOutOfFuel
      end.

Fixpoint parseLoop (fuel : nat) (p : TurtleParser) (triples : list Triple)
  : result (list Triple) :=
  match fuel with
  | 0 => OutOfFuel
  | S fuel' =>
      match parseIteration p with
      | Finished => Ok triples
      | Fatal e => Err e
      | Continue p' newTriples => parseLoop fuel' p' (triples ++ newTriples)
      | IterationOutOfFuel => OutOfFuel
      end
  end.

(** The parser as [Parse] resets it. *)
Definition startParser (content : string) : TurtleParser :=
  {| prefixes := ∅; base := EmptyString;
     unread := normalizeNewlines (TrimPrefix content BOM) |}.

Definition Parse (content : string) : result (list Triple) :=
  let p := startParser content in
  parseLoop (S (String.length (unread p))) p [].

(** ** Loading, rendering and the entry point ([ForwardReasonWithDetails]) *)

Definition LoadTurtle (r : Reasoner) (content : string) : result Reasoner :=
  match Parse content with
  | Ok parsed => Ok {| store := addAll (store r) parsed; rules := rules r |}
  | Err e => Err (ErrParseTurtle e)
  | OutOfFuel => OutOfFuel
  end.

Definition formatTerm (term : string) : string :=
  if String.prefix "http://" term || String.prefix "https://" term
  then "<" +:+ term +:+ ">"
  else term.

(** [Triple.String] *)
Definition Triple_String (t : Triple) : string :=
  formatTerm (Subject t) +:+ " " +:+ formatTerm (Predicate t) +:+ " "
  +:+ formatTerm (Object t) +:+ " .".

(** [sort.Strings]: strings are compared byte by byte, and equal strings
    cannot be told apart, so every sorting algorithm gives the same slice. *)
Fixpoint insertSorted (s : string) (l : list string) : list string :=
  match l with
  | [] => [s]
  | x :: l' => if String.leb s x then s :: l else x :: insertSorted s l'
  end.

Definition sortStrings (l : list string) : list string :=
  fold_right insertSorted [] l.

Definition GetAllTriples (r : Reasoner) : list string :=
  sortStrings (map Triple_String (All (store r))).

Record ReasoningResult := mkResult {
  OriginalTriples : list string;
  InferredTriples : list string;
  AllTriples : list string;
  OriginalCount : nat;
  InferredCount : nat;
  TotalCount : nat
}.

(** [if content != "" { if err := reasoner.LoadTurtle(content); ... }] *)
Definition loadIfNonEmpty (wrap : Error -> Error) (r : Reasoner) (content : string)
  : result Reasoner :=
  if String.eqb content EmptyString then Ok r
  else
    match LoadTurtle r content with
    | Ok r' => Ok r'
    | Err e => Err (wrap e)
    | OutOfFuel => OutOfFuel
    end.

(** The reasoner is [NewReasoner()], so the rules are the default ones and
    [roundBound] rounds are enough (see [reasoningLoop_enough_fuel]). *)
Definition ForwardReasonWithDetails (mo : MapOrder) (abox tbox : string)
  : result ReasoningResult :=
  let reasoner := NewReasoner mo in
  match loadIfNonEmpty ErrLoadTBox reasoner tbox with
  | Ok reasoner =>
      match loadIfNonEmpty ErrLoadABox reasoner abox with
      | Ok reasoner =>
          let originalCount := Size (store reasoner) in
          let originalTriples := GetAllTriples reasoner in
          match RunForwardReasoning (roundBound (store reasoner)) reasoner with
          | Some (reasoner, inferredCount) =>
              let allTriples := GetAllTriples reasoner in
              let originalSet : gmap string bool :=
                fold_left (fun m t => <[t := true]> m) originalTriples ∅ in
              let inferredTriples :=
                List.filter (fun t => negb (mapBool originalSet t)) allTriples in
              Ok {| OriginalTriples := originalTriples;
                    InferredTriples := inferredTriples;
                    AllTriples := allTriples;
                    OriginalCount := originalCount;
                    InferredCount := inferredCount;
                    TotalCount := length allTriples |}
          | None => OutOfFuel
          end
      | Err e => Err e
      | OutOfFuel => OutOfFuel
      end
  | Err e => Err e
  | OutOfFuel => OutOfFuel
  end.

(** ** Queries, the second entry point and the output file *)

(** [Reasoner.Query]: the empty string is the wildcard. *)
Definition Query (r : Reasoner) (subject predicate object : string) : list Triple :=
  if negb (String.eqb subject EmptyString) && negb (String.eqb predicate EmptyString) then
    List.filter (fun t => String.eqb object EmptyString || String.eqb (Object t) object)
                (FindBySubjectPredicate (store r) subject predicate)
  else if negb (String.eqb subject EmptyString) then
    List.filter (fun t =>
                   (String.eqb predicate EmptyString || String.eqb (Predicate t) predicate)
                   && (String.eqb object EmptyString || String.eqb (Object t) object))
                (FindBySubject (store r) subject)
  else if negb (String.eqb predicate EmptyString) then
    List.filter (fun t => String.eqb object EmptyString || String.eqb (Object t) object)
                (FindByPredicate (store r) predicate)
  else if negb (String.eqb object EmptyString) then
    FindByObject (store r) object
  else All (store r).

Definition GetInferredTypes (r : Reasoner) (subject : string) : list string :=
  sortStrings (map Object (FindBySubjectPredicate (store r) subject RDFType)).


(** [writeTriplesToFile] ([commands.go]): the bytes written to the file
    when no write fails, every line followed by a newline. *)
Definition writeTriplesToFile (lines : list string) : string :=
  fold_right (fun line acc => line +:+ String newline acc) EmptyString lines.

(** ** Names for Datalog ([simplifyIRI], [makeDatalogSafe]) *)

(** [strings.ReplaceAll(s, old, new)] for one-byte [old] and [new]. *)
Fixpoint replaceByte (old new : ascii) (s : string) : string :=
  match s with
  | EmptyString => EmptyString
  | String ch s' => String (if Ascii.eqb ch old then new else ch) (replaceByte old new s')
  end.

Definition makeDatalogSafe (s : string) : string :=
  let s := replaceByte "-" "_" s in
  let s := replaceByte ":" "_" s in
  let s := replaceByte " " "_" s in
  let s := replaceByte "." "_" s in
  let s := match s with
           | String ch _ => if inRange 48 57 ch then String "_" s else s
           | EmptyString => s
           end in
  if String.eqb s EmptyString || String.eqb s "_" then "unknown" else s.

(** [strings.HasSuffix(s, c)] for a one-byte [c]. *)
Fixpoint hasSuffixByte (c : ascii) (s : string) : bool :=
  match s with
  | EmptyString => false
  | String ch EmptyString => Ascii.eqb ch c
  | String _ s' => hasSuffixByte c s'
  end.

(** [s[:len(s)-1]] *)
Fixpoint dropLast (s : string) : string :=
  match s with
  | EmptyString => EmptyString
  | String _ EmptyString => EmptyString
  | String ch s' => String ch (dropLast s')
  end.

(** [strings.Split(s, sep)[0]]: the text before the first [sep]. *)
Fixpoint beforeFirst (sep s : string) : string :=
  match s with
  | EmptyString => EmptyString
  | String ch s' =>
      if String.prefix sep s then EmptyString else String ch (beforeFirst sep s')
  end.

(** The last element of [strings.Split(s, c)]: the text after the last
    [c]. *)
Fixpoint afterLast (c : ascii) (s : string) : string :=
  match s with
  | EmptyString => EmptyString
  | String ch s' =>
      if strContains (String c EmptyString) s' then afterLast c s'
      else if Ascii.eqb ch c then s' else s
  end.

(** [strings.Trim(s, c)] for a one-byte cutset. *)
Fixpoint trimLeftByte (c : ascii) (s : string) : string :=
  match s with
  | EmptyString => EmptyString
  | String ch s' => if Ascii.eqb ch c then trimLeftByte c s' else s
  end.

Fixpoint trimRightByte (c : ascii) (s : string) : string :=
  match s with
  | EmptyString => EmptyString
  | String ch s' =>
      match trimRightByte c s' with
      | EmptyString => if Ascii.eqb ch c then EmptyString else String ch EmptyString
      | r => String ch r
      end
  end.

Definition trimByte (c : ascii) (s : string) : string :=
  trimRightByte c (trimLeftByte c s).

Definition simplifyIRI (iri : string) : string :=
  let iri :=
    if String.prefix "<" iri && hasSuffixByte ">" iri then dropLast (dropS 1 iri)
    else iri in
  if String.prefix (String dquote EmptyString) iri then
    if strContains (String dquote "^^") iri then
      makeDatalogSafe (trimByte dquote (beforeFirst (String dquote "^^") iri))
    else if strContains (String dquote "@") iri then
      makeDatalogSafe (trimByte dquote (beforeFirst (String dquote "@") iri))
    else makeDatalogSafe (trimByte dquote iri)
  else if strContains "#" iri then makeDatalogSafe (afterLast "#" iri)
  else if strContains "/" iri then makeDatalogSafe (afterLast "/" iri)
  else makeDatalogSafe iri.

(** ** Datalog ([DLTerm], [DLAtom], [isVariable], [EvaluateQuery]) *)

Module Datalog.

Record DLTerm := mkTerm {
  Value : string;
  IsVariable : bool
}.

Record DLAtom := mkAtom {
  Predicate : string;
  Terms : list DLTerm
}.

Section Unicode.

(** A rune is a code point. *)
Definition rune : Type := N.

(** [for _, r := range s]: the runes of [s] as Go decodes them from
    UTF-8, and the tables of the package [unicode].  Neither is part of
    this repository; they are parameters. *)
Variable runes : string -> list rune.
Variables unicode_IsLetter unicode_IsUpper unicode_IsDigit : rune -> bool.

(** The loop of [isVariable], started with [allUpper = true] and
    [hasLetter = false]; it returns [(allUpper, hasLetter)]. *)
Fixpoint scanRunes (rs : list rune) (hasLetter : bool) : bool * bool :=
  match rs with
  | [] => (true, hasLetter)
  | r :: rs' =>
      if unicode_IsLetter r then
        if negb (unicode_IsUpper r) then (false, true)
        else scanRunes rs' true
      else if negb (unicode_IsDigit r) && negb (N.eqb r 95) then (false, hasLetter)
      else scanRunes rs' hasLetter
  end.

Definition isVariable (s : string) : bool :=
  match s with
  | EmptyString => false
  | String ch s' =>
      if (String.length s =? 1) && inRange 65 90 ch then true
      else if String.prefix "?" s then true
      else
        let (allUpper, hasLetter) := scanRunes (runes s) false in
        hasLetter && allUpper
  end.

End Unicode.

(** The inner loop of [EvaluateQuery]; the two lists have the same length
    when it is called. *)
Fixpoint termsMatch (queryTerms factTerms : list DLTerm) : bool :=
  match queryTerms, factTerms with
  | qt :: qts, ft :: fts =>
      if negb (IsVariable qt) && negb (String.eqb (Value qt) (Value ft)) then false
      else termsMatch qts fts
  | _, _ => true
  end.

Fixpoint EvaluateQuery (query : DLAtom) (derivedFacts : list DLAtom) : bool :=
  match derivedFacts with
  | [] => false
  | f :: rest =>
      if negb (String.eqb (Predicate f) (Predicate query))
         || negb (length (Terms f) =? length (Terms query))
      then EvaluateQuery query rest
      else if termsMatch (Terms query) (Terms f) then true
      else EvaluateQuery query rest
  end.

Record DLRule := mkRule {
  Head : DLAtom;
  Body : list DLAtom
}.

Record DatalogProgram := mkProgram {
  Facts : list DLAtom;
  Rules : list DLRule
}.

(** [strings.Join(terms, ", ")] on the values of the terms. *)
Fixpoint joinValues (terms : list DLTerm) : string :=
  match terms with
  | [] => EmptyString
  | [t] => Value t
  | t :: rest => Value t +:+ ", " +:+ joinValues rest
  end.

(** [DLAtom.String] *)
Definition DLAtom_String (a : DLAtom) : string :=
  Predicate a +:+ "(" +:+ joinValues (Terms a) +:+ ")".

Definition hasVariables (a : DLAtom) : bool := existsb IsVariable (Terms a).

Definition applySubstitution (a : DLAtom) (sub : gmap string string) : DLAtom :=
  mkAtom (Predicate a)
    (map (fun t =>
            if IsVariable t then
              match sub !! Value t with
              | Some val => mkTerm val false
              | None => t
              end
            else t)
         (Terms a)).

(** The inner loop of [findSubstitutions] over the terms of the body atom
    and of the fact, which have the same number of terms when it runs;
    [None] stands for [match = false]. *)
Fixpoint matchTerms (terms factTerms : list DLTerm) (newSub : gmap string string)
  : option (gmap string string) :=
  match terms, factTerms with
  | t :: terms', ft :: factTerms' =>
      let factTerm := Value ft in
      if IsVariable t then
        match newSub !! Value t with
        | Some val =>
            if negb (String.eqb val factTerm) then None
            else matchTerms terms' factTerms' newSub
        | None => matchTerms terms' factTerms' (<[Value t := factTerm]> newSub)
        end
      else if negb (String.eqb (Value t) factTerm) then None
      else matchTerms terms' factTerms' newSub
  | _, _ => Some newSub
  end.

Fixpoint findSubstitutions (body : list DLAtom) (facts : list DLAtom)
  (currentSub : gmap string string) : list (gmap string string) :=
  match body with
  | [] => [currentSub]
  | first :: rest =>
      flat_map
        (fun f =>
           if negb (String.eqb (Predicate f) (Predicate first))
              || negb (length (Terms f) =? length (Terms first))
           then []
           else
             match matchTerms (Terms first) (Terms f) currentSub with
             | Some newSub => findSubstitutions rest facts newSub
             | None => []
             end)
        facts
  end.

(** The two variables that the closure [addFact] of [Reason] updates. *)
Record FactBase := mkFactBase {
  factMap : gmap string DLAtom;
  factList : list DLAtom
}.

Definition addFact (fb : FactBase) (f : DLAtom) : FactBase * bool :=
  let s := DLAtom_String f in
  match factMap fb !! s with
  | None => ({| factMap := <[s := f]> (factMap fb); factList := factList fb ++ [f] |}, true)
  | Some _ => (fb, false)
  end.

(** [for _, f := range p.Facts { if !hasVariables(f) { addFact(f) } }] *)
Fixpoint addGroundFacts (fs : list DLAtom) (fb : FactBase) : FactBase :=
  match fs with
  | [] => fb
  | f :: rest =>
      if negb (hasVariables f) then addGroundFacts rest (fst (addFact fb f))
      else addGroundFacts rest fb
  end.

(** [for _, sub := range substitutions { ... }] *)
Fixpoint addHeads (head : DLAtom) (substitutions : list (gmap string string))
  (fb : FactBase) (newFactsCount : nat) : FactBase * nat :=
  match substitutions with
  | [] => (fb, newFactsCount)
  | sub :: rest =>
      let h := applySubstitution head sub in
      if negb (hasVariables h) then
        let (fb', new) := addFact fb h in
        addHeads head rest fb' (if new then S newFactsCount else newFactsCount)
      else addHeads head rest fb newFactsCount
  end.

(** [for _, rule := range p.Rules { ... }]: the substitutions of a rule are
    found in the facts listed when its turn comes. *)
Fixpoint applyDLRules (rs : list DLRule) (fb : FactBase) (newFactsCount : nat)
  : FactBase * nat :=
  match rs with
  | [] => (fb, newFactsCount)
  | rule :: rest =>
      let substitutions := findSubstitutions (Body rule) (factList fb) ∅ in
      let (fb', n) := addHeads (Head rule) substitutions fb newFactsCount in
      applyDLRules rest fb' n
  end.

(** The outer [for] of [Reason]; [None] when the rounds allowed are used
    up. *)
Fixpoint reasonLoop (fuel : nat) (rs : list DLRule) (fb : FactBase) : option FactBase :=
  match fuel with
  | 0 => None
  | S fuel' =>
      let (fb', newFactsCount) := applyDLRules rs fb 0 in
      if newFactsCount =? 0 then Some fb' else reasonLoop fuel' rs fb'
  end.

Definition Reason (fuel : nat) (p : DatalogProgram) : option (list DLAtom) :=
  let fb := addGroundFacts (Facts p) {| factMap := ∅; factList := [] |} in
  match reasonLoop fuel (Rules p) fb with
  | Some fb' => Some (factList fb')
  | None => None
  end.

(** [DLQuery] once [ParseDatalog] and [ParseQuery] have returned the
    program and the query: reasoning, then the query. *)
Definition DLQueryParsed (fuel : nat) (p : DatalogProgram) (query : DLAtom) : option bool :=
  match Reason fuel p with
  | Some derivedFacts => Some (EvaluateQuery query derivedFacts)
  | None => None
  end.

End Datalog.

(** ** Notions used to state the properties *)

(** An index entry lists valid positions and fetches exactly the triples
    selected by [f], in insertion order. *)
Definition indexOk (l : list Triple) (f : Triple -> bool) (idxs : list nat) : Prop :=
  Forall (fun i => i < length l) idxs /\ fetch l idxs = List.filter f l.

(** The invariant of the store: the key map, the list and the three
    indices agree. *)
Record storeOk (ts : TripleStore) : Prop := mkStoreOk {
  ok_keys : forall k,
    mapBool (triples ts) k = true <-> In k (map tripleKey (tripleList ts));
  ok_nodup : List.NoDup (map tripleKey (tripleList ts));
  ok_bySubject : forall s,
    indexOk (tripleList ts) (fun t => String.eqb (Subject t) s) (mapIdx (bySubject ts) s);
  ok_byPredicate : forall s,
    indexOk (tripleList ts) (fun t => String.eqb (Predicate t) s) (mapIdx (byPredicate ts) s);
  ok_byObject : forall s,
    indexOk (tripleList ts) (fun t => String.eqb (Object t) s) (mapIdx (byObject ts) s)
}.

(** The results of successive calls of [Add]. *)
Fixpoint addResults (ts : TripleStore) (l : list Triple) : list bool :=
  match l with
  | [] => []
  | t :: l' => snd (Add ts t) :: addResults (fst (Add ts t)) l'
  end.

(** How many of the calls [Add t] with [sel t] reported a new triple. *)
Fixpoint newReports (sel : Triple -> bool) (ts : TripleStore) (l : list Triple) : nat :=
  match l with
  | [] => 0
  | t :: l' =>
      (if sel t && snd (Add ts t) then 1 else 0) + newReports sel (fst (Add ts t)) l'
  end.

Definition Triple_eqb (t u : Triple) : bool :=
  String.eqb (Subject t) (Subject u) && String.eqb (Predicate t) (Predicate u)
  && String.eqb (Object t) (Object u).

(** A reasoner with the default rules whose store was loaded with [l]. *)
Definition loaded (mo : MapOrder) (l : list Triple) : Reasoner :=
  {| store := addAll NewTripleStore l; rules := DefaultRules mo |}.

(** Splits the conjunctions of the goal, without unfolding definitions. *)
Ltac splits := repeat match goal with |- _ /\ _ => split end.

(** ** The triple store *)

Lemma mapBool_insert (m : gmap string bool) k k' :
  mapBool (<[k := true]> m) k' = String.eqb k k' || mapBool m k'.
Proof.
  unfold mapBool. rewrite lookup_insert.
  destruct (decide (k = k')) as [->|Hne].
  - now rewrite String.eqb_refl.
  - apply String.eqb_neq in Hne. now rewrite Hne.
Qed.

Lemma mapIdx_insert (m : gmap string (list nat)) k v k' :
  mapIdx (<[k := v]> m) k' = if String.eqb k k' then v else mapIdx m k'.
Proof.
  unfold mapIdx. rewrite lookup_insert.
  destruct (decide (k = k')) as [->|Hne].
  - now rewrite String.eqb_refl.
  - apply String.eqb_neq in Hne. now rewrite Hne.
Qed.

Lemma fetch_app_idx l a b : fetch l (a ++ b) = fetch l a ++ fetch l b.
Proof. unfold fetch. apply flat_map_app. Qed.

Lemma fetch_grow l l' idxs :
  Forall (fun i => i < length l) idxs -> fetch (l ++ l') idxs = fetch l idxs.
Proof.
  induction 1 as [|i idxs Hi _ IH]; simpl; [reflexivity|].
  rewrite IH. now rewrite nth_error_app1.
Qed.

Lemma fetch_last l t : fetch (l ++ [t]) [length l] = [t].
Proof.
  unfold fetch. simpl. rewrite nth_error_app2 by lia.
  now rewrite Nat.sub_diag.
Qed.

Lemma fetch_In l idxs t : In t (fetch l idxs) -> In t l.
Proof.
  unfold fetch. rewrite in_flat_map. intros (i & _ & Hi).
  destruct (nth_error l i) eqn:E; simpl in Hi; [|contradiction].
  destruct Hi as [<-|[]]. eapply nth_error_In; eauto.
Qed.

(** No index of a well-formed entry is out of range: the branch of [fetch]
    that stands for Go's panic is never taken. *)
Lemma fetch_in_range l f idxs i :
  indexOk l f idxs -> In i idxs -> exists t, nth_error l i = Some t.
Proof.
  intros [Hr _] Hi. rewrite List.Forall_forall in Hr.
  specialize (Hr i Hi). destruct (nth_error l i) eqn:E; eauto.
  apply nth_error_None in E. lia.
Qed.

Lemma index_add (field : Triple -> string) (m : gmap string (list nat)) l t :
  (forall s, indexOk l (fun x => String.eqb (field x) s) (mapIdx m s)) ->
  forall s, indexOk (l ++ [t]) (fun x => String.eqb (field x) s)
              (mapIdx (<[field t := mapIdx m (field t) ++ [length l]]> m) s).
Proof.
  intros H s. rewrite mapIdx_insert.
  assert (Hw : forall idxs, Forall (fun i => i < length l) idxs ->
                 Forall (fun i => i < length (l ++ [t])) idxs).
  { intros idxs Hf. eapply List.Forall_impl; [|exact Hf].
    intros i Hi. simpl in Hi. rewrite length_app. simpl. lia. }
  destruct (String.eqb (field t) s) eqn:E.
  - apply String.eqb_eq in E. subst s. destruct (H (field t)) as [Hr Hf]. split.
    + apply List.Forall_app. split; [now apply Hw|].
      constructor; [|constructor]. rewrite length_app. simpl. lia.
    + rewrite fetch_app_idx, fetch_grow, fetch_last, Hf by assumption.
      rewrite List.filter_app. simpl. now rewrite String.eqb_refl.
  - destruct (H s) as [Hr Hf]. split; [now apply Hw|].
    rewrite fetch_grow, Hf by assumption.
    rewrite List.filter_app. simpl. rewrite E. now rewrite app_nil_r.
Qed.

Lemma NewTripleStore_ok : storeOk NewTripleStore.
Proof.
  constructor; simpl.
  - intros k. unfold mapBool. rewrite lookup_empty. simpl. intuition discriminate.
  - constructor.
  - intros s. unfold mapIdx. rewrite lookup_empty. split; [constructor|reflexivity].
  - intros s. unfold mapIdx. rewrite lookup_empty. split; [constructor|reflexivity].
  - intros s. unfold mapIdx. rewrite lookup_empty. split; [constructor|reflexivity].
Qed.

(** What [Add] does, in terms of [Contains]. *)
Lemma Add_old ts t : Contains ts t = true -> Add ts t = (ts, false).
Proof. unfold Contains, Add. now intros ->. Qed.

Lemma Add_new ts t :
  Contains ts t = false ->
  snd (Add ts t) = true /\
  tripleList (fst (Add ts t)) = tripleList ts ++ [t] /\
  triples (fst (Add ts t)) = <[tripleKey t := true]> (triples ts).
Proof. unfold Contains, Add. intros ->. simpl. auto. Qed.

Lemma Add_result ts t : snd (Add ts t) = negb (Contains ts t).
Proof. unfold Contains, Add. now destruct (mapBool _ _). Qed.

Lemma Add_ok ts t : storeOk ts -> storeOk (fst (Add ts t)).
Proof.
  intros H. unfold Add. destruct (mapBool (triples ts) (tripleKey t)) eqn:E; [exact H|].
  destruct H as [Hk Hn Hs Hp Ho]. constructor; simpl.
  - intros k. rewrite mapBool_insert, map_app, in_app_iff, <- Hk. simpl.
    rewrite orb_true_iff, String.eqb_eq. tauto.
  - rewrite map_app. simpl. apply List.NoDup_app; [exact Hn|repeat constructor; simpl; tauto|].
    intros k Hin [<-|[]]. apply Hk in Hin. congruence.
  - now apply (index_add Subject).
  - now apply (index_add Predicate).
  - now apply (index_add Object).
Qed.

Lemma addAll_ok l : forall ts, storeOk ts -> storeOk (addAll ts l).
Proof.
  unfold addAll. induction l as [|t l IH]; intros ts H; simpl; [exact H|].
  apply IH. now apply Add_ok.
Qed.

Lemma loaded_ok mo l : storeOk (store (loaded mo l)).
Proof. apply addAll_ok, NewTripleStore_ok. Qed.

(** With the invariant, the lookups are filters of the list. *)
Lemma FindBySubject_spec ts s :
  storeOk ts ->
  FindBySubject ts s = List.filter (fun t => String.eqb (Subject t) s) (tripleList ts).
Proof. intros H. apply (ok_bySubject ts H s). Qed.

Lemma FindByPredicate_spec ts p :
  storeOk ts ->
  FindByPredicate ts p = List.filter (fun t => String.eqb (Predicate t) p) (tripleList ts).
Proof. intros H. apply (ok_byPredicate ts H p). Qed.

Lemma FindByObject_spec ts o :
  storeOk ts ->
  FindByObject ts o = List.filter (fun t => String.eqb (Object t) o) (tripleList ts).
Proof. intros H. apply (ok_byObject ts H o). Qed.

Lemma In_FindByPredicate ts p t :
  storeOk ts -> (In t (FindByPredicate ts p) <-> In t (tripleList ts) /\ Predicate t = p).
Proof.
  intros H. rewrite FindByPredicate_spec by assumption.
  rewrite List.filter_In, String.eqb_eq. tauto.
Qed.

Lemma In_FindBySubjectPredicate ts s p t :
  storeOk ts ->
  (In t (FindBySubjectPredicate ts s p) <->
   In t (tripleList ts) /\ Subject t = s /\ Predicate t = p).
Proof.
  intros H. unfold FindBySubjectPredicate.
  change (fetch (tripleList ts) (mapIdx (bySubject ts) s)) with (FindBySubject ts s).
  rewrite FindBySubject_spec by assumption.
  rewrite !List.filter_In, !String.eqb_eq. tauto.
Qed.

Lemma In_FindByPredicateObject ts p o t :
  storeOk ts ->
  (In t (FindByPredicateObject ts p o) <->
   In t (tripleList ts) /\ Predicate t = p /\ Object t = o).
Proof.
  intros H. unfold FindByPredicateObject.
  change (fetch (tripleList ts) (mapIdx (byPredicate ts) p)) with (FindByPredicate ts p).
  rewrite FindByPredicate_spec by assumption.
  rewrite !List.filter_In, !String.eqb_eq. tauto.
Qed.

Lemma Contains_spec ts t :
  storeOk ts -> (Contains ts t = true <-> In (tripleKey t) (map tripleKey (tripleList ts))).
Proof. intros H. apply (ok_keys ts H). Qed.

Lemma In_Contains ts t : storeOk ts -> In t (tripleList ts) -> Contains ts t = true.
Proof. intros H Hin. apply Contains_spec; [assumption|]. now apply in_map. Qed.

(** *** Deduplication is by key *)

Lemma Contains_after_Add ts t u :
  Contains (fst (Add ts t)) u = String.eqb (tripleKey t) (tripleKey u) || Contains ts u.
Proof.
  unfold Add, Contains. destruct (mapBool (triples ts) (tripleKey t)) eqn:E; simpl.
  - destruct (String.eqb (tripleKey t) (tripleKey u)) eqn:K; [|reflexivity].
    apply String.eqb_eq in K. now rewrite <- K, E.
  - apply mapBool_insert.
Qed.

Lemma Contains_Add_same ts t : Contains (fst (Add ts t)) t = true.
Proof. rewrite Contains_after_Add, String.eqb_refl. reflexivity. Qed.

Lemma Contains_Add_mono ts t u : Contains ts u = true -> Contains (fst (Add ts t)) u = true.
Proof. intros H. rewrite Contains_after_Add, H. apply orb_true_r. Qed.

Lemma Contains_addAll_mono l : forall ts u,
  Contains ts u = true -> Contains (addAll ts l) u = true.
Proof.
  unfold addAll. induction l as [|t l IH]; intros ts u H; simpl; [exact H|].
  apply IH. now apply Contains_Add_mono.
Qed.

Lemma Contains_addAll l : forall ts u, In u l -> Contains (addAll ts l) u = true.
Proof.
  unfold addAll. induction l as [|t l IH]; intros ts u Hin; simpl in *.
  - contradiction.
  - destruct Hin as [->|Hin].
    + apply (Contains_addAll_mono l). apply Contains_Add_same.
    + now apply IH.
Qed.

Lemma newReports_present k l : forall ts,
  mapBool (triples ts) k = true ->
  newReports (fun u => String.eqb (tripleKey u) k) ts l = 0.
Proof.
  induction l as [|t l IH]; intros ts H; simpl; [reflexivity|].
  rewrite IH.
  - destruct (String.eqb (tripleKey t) k) eqn:E; simpl; [|reflexivity].
    apply String.eqb_eq in E. subst k.
    rewrite Add_result. unfold Contains. now rewrite H.
  - pose proof (Contains_Add_mono ts t {| Subject := k; Predicate := EmptyString;
                                           Object := EmptyString |}) as M.
    unfold Add in *. destruct (mapBool (triples ts) (tripleKey t)); simpl; [exact H|].
    rewrite mapBool_insert, H. apply orb_true_r.
Qed.

(** Among the calls of [Add] for the triples of one key, exactly one
    reports a new triple. *)
Lemma newReports_once k l : forall ts,
  mapBool (triples ts) k = false ->
  In k (map tripleKey l) ->
  newReports (fun u => String.eqb (tripleKey u) k) ts l = 1.
Proof.
  induction l as [|t l IH]; intros ts H Hin; simpl in *; [contradiction|].
  destruct (String.eqb (tripleKey t) k) eqn:E; simpl.
  - apply String.eqb_eq in E. subst k.
    rewrite Add_result. unfold Contains at 1. rewrite H. simpl.
    rewrite newReports_present; [reflexivity|].
    apply (Contains_Add_same ts t).
  - destruct Hin as [Hk|Hin]; [apply String.eqb_neq in E; congruence|].
    apply IH; [|assumption].
    unfold Add. destruct (mapBool (triples ts) (tripleKey t)); simpl; [exact H|].
    now rewrite mapBool_insert, E, H.
Qed.

(** X3.  Deduplication is by key: among the calls of [Add] on a new store
    for triples with the key of a triple [t] of the sequence, exactly one
    reports a new triple, however many distinct triples share the key. *)
Lemma Add_new_once_per_key l t :
  In t l ->
  newReports (fun u => String.eqb (tripleKey u) (tripleKey t)) NewTripleStore l = 1.
Proof.
  intros H. apply newReports_once.
  - reflexivity.
  - now apply in_map.
Qed.

(** ** The rules *)

(** The rule catalogue as a one-step consequence relation over a set of
    facts [S]: the thirteen Horn rules, with the guards of the catalogue
    (no reflexive conclusion of a transitivity rule; no type for a
    literal). *)
Inductive consequence (S : Triple -> Prop) : Triple -> Prop :=
| c_subClassTrans a b c :
    S (mkTriple a RDFSSubClassOf b) -> S (mkTriple b RDFSSubClassOf c) -> a <> c ->
    consequence S (mkTriple a RDFSSubClassOf c)
| c_typeInheritance x a b :
    S (mkTriple x RDFType a) -> S (mkTriple a RDFSSubClassOf b) ->
    consequence S (mkTriple x RDFType b)
| c_domain p c x y :
    S (mkTriple p RDFSDomain c) -> S (mkTriple x p y) ->
    consequence S (mkTriple x RDFType c)
| c_range p c x y :
    S (mkTriple p RDFSRange c) -> S (mkTriple x p y) -> isLiteral y = false ->
    consequence S (mkTriple y RDFType c)
| c_subPropTrans a b c :
    S (mkTriple a RDFSSubPropertyOf b) -> S (mkTriple b RDFSSubPropertyOf c) -> a <> c ->
    consequence S (mkTriple a RDFSSubPropertyOf c)
| c_subPropInheritance p1 p2 x y :
    S (mkTriple p1 RDFSSubPropertyOf p2) -> S (mkTriple x p1 y) ->
    consequence S (mkTriple x p2 y)
| c_equivSym a b :
    S (mkTriple a OWLEquivalentClass b) ->
    consequence S (mkTriple b OWLEquivalentClass a)
| c_equivTrans a b c :
    S (mkTriple a OWLEquivalentClass b) -> S (mkTriple b OWLEquivalentClass c) -> a <> c ->
    consequence S (mkTriple a OWLEquivalentClass c)
| c_sameSym a b :
    S (mkTriple a OWLSameAs b) ->
    consequence S (mkTriple b OWLSameAs a)
| c_sameTrans a b c :
    S (mkTriple a OWLSameAs b) -> S (mkTriple b OWLSameAs c) -> a <> c ->
    consequence S (mkTriple a OWLSameAs c)
| c_inverse1 p1 p2 x y :
    S (mkTriple p1 OWLInverseOf p2) -> S (mkTriple x p1 y) ->
    consequence S (mkTriple y p2 x)
| c_inverse2 p1 p2 x y :
    S (mkTriple p1 OWLInverseOf p2) -> S (mkTriple x p2 y) ->
    consequence S (mkTriple y p1 x)
| c_transitiveProp p x y z :
    S (mkTriple p RDFType OWLTransitiveProperty) ->
    S (mkTriple x p y) -> S (mkTriple y p z) -> x <> z ->
    consequence S (mkTriple x p z)
| c_symmetricProp p x y :
    S (mkTriple p RDFType OWLSymmetricProperty) -> S (mkTriple x p y) ->
    consequence S (mkTriple y p x).

(** The facts of a store. *)
Definition facts (st : TripleStore) : Triple -> Prop := fun t => In t (tripleList st).

Lemma Triple_eta t : t = mkTriple (Subject t) (Predicate t) (Object t).
Proof. now destruct t. Qed.

Lemma In_propose st g u t :
  In t (propose st g u) <-> t = u /\ Contains st u = false /\ g = true.
Proof.
  unfold propose. destruct (Contains st u), g; simpl; intuition congruence.
Qed.

Lemma In_rangeSubjects (mo : MapOrder) l s :
  In s (rangeSubjects mo l) <-> exists t, In t l /\ Subject t = s.
Proof.
  unfold rangeSubjects. split.
  - intros H. apply (Permutation_in _ (order_perm mo _)) in H.
    apply nodup_In, in_map_iff in H. destruct H as (t & E & Hin). eauto.
  - intros (t & Hin & E).
    apply (Permutation_in _ (Permutation_sym (order_perm mo _))).
    apply nodup_In, in_map_iff. eauto.
Qed.

(** Unfolds the loops of a rule down to the lookups. *)
Ltac open_rule :=
  repeat match goal with
  | H : In _ (flat_map _ _) |- _ =>
      apply in_flat_map in H; destruct H as (? & ? & H)
  | H : In _ (_ ++ _) |- _ => apply in_app_iff in H; destruct H as [H|H]
  | H : In _ (propose _ _ _) |- _ =>
      apply In_propose in H; destruct H as (? & ? & ?)
  | H : In _ (FindByPredicate _ _) |- _ =>
      apply In_FindByPredicate in H; [destruct H as [H ?]|assumption]
  | H : In _ (FindBySubjectPredicate _ _ _) |- _ =>
      apply In_FindBySubjectPredicate in H; [destruct H as (H & ? & ?)|assumption]
  | H : In _ (FindByPredicateObject _ _ _) |- _ =>
      apply In_FindByPredicateObject in H; [destruct H as (H & ? & ?)|assumption]
  | H : In _ (rangeSubjects _ _) |- _ =>
      apply In_rangeSubjects in H; destruct H as (? & H & ?)
  | H : negb (String.eqb _ _) = true |- _ =>
      apply negb_true_iff, String.eqb_neq in H
  end.

(** Turns a stored triple with known components into a fact. *)
Ltac as_fact H :=
  match type of H with
  | In ?t (tripleList _) =>
      let E := fresh in
      pose proof (Triple_eta t) as E; rewrite E in H; clear E
  end.

Lemma transitiveLoop_sound st prop t :
  storeOk st -> In t (transitiveLoop st prop) ->
  exists a b c, facts st (mkTriple a prop b) /\ facts st (mkTriple b prop c) /\
                a <> c /\ t = mkTriple a prop c /\ Contains st t = false.
Proof.
  intros Hok H. unfold transitiveLoop in H. open_rule. subst.
  match goal with
  | H1 : In ?t1 (tripleList st), H2 : In ?t2 (tripleList st), E : Subject ?t2 = Object ?t1
    |- _ => exists (Subject t1), (Object t1), (Object t2); as_fact H1; as_fact H2
  end.
  unfold facts. repeat split; try assumption; congruence.
Qed.

Lemma symmetricLoop_sound st prop t :
  storeOk st -> In t (symmetricLoop st prop) ->
  exists x y, facts st (mkTriple x prop y) /\ t = mkTriple y prop x /\
              Contains st t = false.
Proof.
  intros Hok H. unfold symmetricLoop in H. open_rule. subst.
  match goal with
  | H1 : In ?t1 (tripleList st) |- _ => exists (Subject t1), (Object t1); as_fact H1
  end.
  unfold facts. repeat split; try assumption; congruence.
Qed.

(** Every triple proposed by a default rule is a one-step consequence of
    the facts of the store, and is not yet in the store. *)
Lemma rules_sound mo st r t :
  storeOk st -> In r (DefaultRules mo) -> In t (Apply r st) ->
  consequence (facts st) t /\ Contains st t = false.
Proof.
  intros Hok Hr H. unfold DefaultRules in Hr. simpl in Hr.
  repeat (destruct Hr as [<-|Hr]); try contradiction;
    cbv beta iota delta
      [Apply SubClassTransitivity TypeInheritance DomainInference RangeInference
       SubPropertyTransitivity SubPropertyInheritance EquivalentClassSymmetry
       EquivalentClassTransitivity SameAsSymmetry SameAsTransitivity
       InversePropertyInference TransitivePropertyInference SymmetricPropertyInference
       SubClassTransitivity_Apply SubPropertyTransitivity_Apply
       EquivalentClassSymmetry_Apply EquivalentClassTransitivity_Apply
       SameAsSymmetry_Apply SameAsTransitivity_Apply] in H.
  - apply transitiveLoop_sound in H; [|assumption].
    destruct H as (a & b & c & ? & ? & ? & -> & ?). split; [econstructor 1; eauto|assumption].
  - unfold TypeInheritance_Apply in H. open_rule. subst.
    match goal with
    | H1 : In ?t1 (tripleList st), H2 : In ?t2 (tripleList st), E : Subject ?t2 = Object ?t1
      |- _ => as_fact H1; as_fact H2; split; [|assumption];
              apply (c_typeInheritance _ _ (Object t1)); unfold facts; congruence
    end.
  - unfold DomainInference_Apply in H. open_rule. subst.
    match goal with
    | H1 : In ?t1 (tripleList st), H2 : In ?t2 (tripleList st),
      E : Predicate ?t2 = Subject ?t1
      |- _ => as_fact H1; as_fact H2; split; [|assumption];
              apply (c_domain _ (Subject t1) _ _ (Object t2)); unfold facts; congruence
    end.
  - unfold RangeInference_Apply in H. open_rule.
    destruct (isLiteral (Object _)) eqn:L in H; [contradiction|]. open_rule. subst.
    match goal with
    | H1 : In ?t1 (tripleList st), H2 : In ?t2 (tripleList st),
      E : Predicate ?t2 = Subject ?t1
      |- _ => as_fact H1; as_fact H2; split; [|assumption];
              apply (c_range _ (Subject t1) _ (Subject t2)); unfold facts; congruence
    end.
  - apply transitiveLoop_sound in H; [|assumption].
    destruct H as (a & b & c & ? & ? & ? & -> & ?). split; [econstructor 5; eauto|assumption].
  - unfold SubPropertyInheritance_Apply in H. open_rule. subst.
    match goal with
    | H1 : In ?t1 (tripleList st), H2 : In ?t2 (tripleList st),
      E : Predicate ?t2 = Subject ?t1
      |- _ => as_fact H1; as_fact H2; split; [|assumption];
              apply (c_subPropInheritance _ (Subject t1)); unfold facts; congruence
    end.
  - apply symmetricLoop_sound in H; [|assumption].
    destruct H as (x & y & ? & -> & ?). split; [econstructor 7; eauto|assumption].
  - apply transitiveLoop_sound in H; [|assumption].
    destruct H as (a & b & c & ? & ? & ? & -> & ?). split; [econstructor 8; eauto|assumption].
  - apply symmetricLoop_sound in H; [|assumption].
    destruct H as (x & y & ? & -> & ?). split; [econstructor 9; eauto|assumption].
  - apply transitiveLoop_sound in H; [|assumption].
    destruct H as (a & b & c & ? & ? & ? & -> & ?). split; [econstructor 10; eauto|assumption].
  - unfold InversePropertyInference_Apply in H. open_rule; subst.
    + match goal with
      | H1 : In ?t1 (tripleList st), H2 : In ?t2 (tripleList st),
        E : Predicate ?t2 = Subject ?t1
        |- _ => as_fact H1; as_fact H2; split; [|assumption];
                apply (c_inverse1 _ (Subject t1)); unfold facts; congruence
      end.
    + match goal with
      | H1 : In ?t1 (tripleList st), H2 : In ?t2 (tripleList st),
        E : Predicate ?t2 = Object ?t1
        |- _ => as_fact H1; as_fact H2; split; [|assumption];
                apply (c_inverse2 _ _ (Object t1)); unfold facts; congruence
      end.
  - unfold TransitivePropertyInference_Apply in H. open_rule.
    apply transitiveLoop_sound in H; [|assumption].
    destruct H as (a & b & c & ? & ? & ? & -> & ?). split; [|assumption].
    match goal with
    | H1 : In ?t1 (tripleList st), E : Subject ?t1 = _ |- _ =>
        as_fact H1; eapply c_transitiveProp; eauto; unfold facts; congruence
    end.
  - unfold SymmetricPropertyInference_Apply in H. open_rule.
    apply symmetricLoop_sound in H; [|assumption].
    destruct H as (a & b & ? & -> & ?). split; [|assumption].
    match goal with
    | H1 : In ?t1 (tripleList st), E : Subject ?t1 = _ |- _ =>
        as_fact H1; eapply c_symmetricProp; eauto; unfold facts; congruence
    end.
Qed.

(** ** Termination of the fixed-point loop *)

(** The three terms of [t] satisfy [P]. *)
Definition allTerms (P : string -> Prop) (t : Triple) : Prop :=
  P (Subject t) /\ P (Predicate t) /\ P (Object t).

Definition termsIn (U : list string) (t : Triple) : Prop :=
  allTerms (fun s => In s U) t.

(** All triples over the terms [U]. *)
Definition allTriples (U : list string) : list Triple :=
  flat_map (fun s => flat_map (fun p => map (fun o => mkTriple s p o) U) U) U.

(** The invariant of the loop: the store is well formed and its triples
    are all in [M]; [M] will be closed under the rule catalogue. *)
Definition within (M : Triple -> Prop) (st : TripleStore) : Prop :=
  storeOk st /\ forall t, facts st t -> M t.

Definition closedUnder (M : Triple -> Prop) : Prop :=
  forall t, consequence M t -> M t.

Lemma consequence_mono (S S' : Triple -> Prop) t :
  (forall u, S u -> S' u) -> consequence S t -> consequence S' t.
Proof. intros H C. destruct C; solve [econstructor; eauto]. Qed.

(** No rule invents a term: the terms of a consequence are terms of its
    premises, or [rdf:type]. *)
Lemma consequence_terms (S : Triple -> Prop) (P : string -> Prop) t :
  (forall u, S u -> allTerms P u) -> P RDFType -> consequence S t -> allTerms P t.
Proof.
  intros HS HT H.
  destruct H;
    repeat match goal with
           | H : S _ |- _ => apply HS in H; destruct H as (? & ? & ?)
           end;
    simpl in *; repeat split; assumption.
Qed.

Lemma allTerms_closed (P : string -> Prop) : P RDFType -> closedUnder (allTerms P).
Proof. intros HT t Ht. eapply consequence_terms; eauto. Qed.

Lemma facts_in_universe st u : facts st u -> termsIn (universe st) u.
Proof.
  intros H. unfold termsIn, allTerms, universe, termsOf.
  repeat split; right; apply in_flat_map; exists u; simpl; tauto.
Qed.

Lemma length_flat_map_const {A B} (f : A -> list B) n l :
  (forall x, length (f x) = n) -> length (flat_map f l) = length l * n.
Proof.
  intros H. induction l as [|x l IH]; simpl; [reflexivity|].
  rewrite length_app, H, IH. reflexivity.
Qed.

Lemma length_allTriples U :
  length (allTriples U) = length U * (length U * length U).
Proof.
  unfold allTriples. apply length_flat_map_const. intros s.
  apply length_flat_map_const. intros p. apply length_map.
Qed.

Lemma In_allTriples U t : termsIn U t -> In t (allTriples U).
Proof.
  intros (Hs & Hp & Ho). unfold allTriples.
  apply in_flat_map. exists (Subject t). split; [assumption|].
  apply in_flat_map. exists (Predicate t). split; [assumption|].
  apply in_map_iff. exists (Object t). split; [now destruct t|assumption].
Qed.

Lemma termsIn_closed U : In RDFType U -> closedUnder (termsIn U).
Proof. intros HT. apply (allTerms_closed (fun s => In s U)). exact HT. Qed.

Lemma Size_bound U st :
  within (termsIn U) st -> Size st <= length U * (length U * length U).
Proof.
  intros [Hok Hin]. rewrite <- length_allTriples. unfold Size.
  apply List.NoDup_incl_length.
  - eapply List.NoDup_map_inv. apply (ok_nodup st Hok).
  - intros t Ht. apply In_allTriples, Hin, Ht.
Qed.

(** Counting: the counter grows by the number of triples appended, and if
    it did not move the store is the same store. *)
Lemma Add_count st t :
  Size (fst (Add st t)) = Size st + (if snd (Add st t) then 1 else 0) /\
  (snd (Add st t) = false -> fst (Add st t) = st).
Proof.
  unfold Add, Size. destruct (mapBool (triples st) (tripleKey t)); simpl.
  - split; [lia|reflexivity].
  - rewrite length_app. simpl. split; [lia|discriminate].
Qed.

Lemma addInferred_count inferred : forall st n st' n',
  addInferred st inferred n = (st', n') ->
  Size st' + n = Size st + n' /\ n <= n' /\ (n' = n -> st' = st).
Proof.
  induction inferred as [|t l IH]; intros st n st' n' H; simpl in H.
  - inversion H. subst. repeat split; lia.
  - destruct (Add_count st t) as [Hs Hf].
    destruct (Add st t) as [st1 b] eqn:E. simpl in Hs, Hf.
    apply IH in H. destruct H as (H1 & H2 & H3).
    destruct b.
    + repeat split; try lia.
    + rewrite Hf in * by reflexivity. repeat split; try lia. assumption.
Qed.

Lemma applyRules_count rs : forall st n st' n',
  applyRules rs st n = (st', n') ->
  Size st' + n = Size st + n' /\ n <= n' /\ (n' = n -> st' = st).
Proof.
  induction rs as [|r rs IH]; intros st n st' n' H; simpl in H.
  - inversion H. subst. repeat split; lia.
  - destruct (addInferred st (Apply r st) n) as [st1 n1] eqn:E.
    apply addInferred_count in E. apply IH in H.
    destruct E as (E1 & E2 & E3), H as (H1 & H2 & H3).
    repeat split; try lia.
    intros ->. assert (n1 = n) by lia. subst n1.
    rewrite <- (E3 eq_refl). now apply H3.
Qed.

Lemma Add_within M st t : within M st -> M t -> within M (fst (Add st t)).
Proof.
  intros [Hok Hin] Ht. split; [now apply Add_ok|].
  unfold facts, Add. destruct (mapBool (triples st) (tripleKey t)); simpl.
  - exact Hin.
  - intros u Hu. apply in_app_iff in Hu. destruct Hu as [Hu|[<-|[]]]; auto.
Qed.

Lemma addInferred_within M inferred : forall st n,
  within M st -> (forall t, In t inferred -> M t) ->
  within M (fst (addInferred st inferred n)).
Proof.
  induction inferred as [|t l IH]; intros st n Hw Hl; simpl; [exact Hw|].
  pose proof (Add_within M st t Hw (Hl t (or_introl eq_refl))) as Hw'.
  destruct (Add st t) as [st1 b]. simpl in Hw'.
  apply IH; [assumption|]. intros u Hu. apply Hl. now right.
Qed.

Lemma applyRules_within mo M rs : forall st n,
  incl rs (DefaultRules mo) -> closedUnder M -> within M st ->
  within M (fst (applyRules rs st n)).
Proof.
  induction rs as [|r rs IH]; intros st n Hrs HM Hw; simpl; [exact Hw|].
  pose proof (addInferred_within M (Apply r st) st n Hw) as Hw'.
  destruct (addInferred st (Apply r st) n) as [st1 n1]. simpl in Hw'.
  apply IH; [intros x Hx; apply Hrs; now right|assumption|].
  apply Hw'. intros t Ht. destruct Hw as [Hok Hin].
  apply HM. eapply consequence_mono; [exact Hin|].
  eapply rules_sound; [exact Hok| |exact Ht]. apply Hrs. now left.
Qed.

Lemma reasoningLoop_within mo M : forall fuel st total st' n,
  closedUnder M -> within M st ->
  reasoningLoop fuel (DefaultRules mo) st total = Some (st', n) ->
  within M st'.
Proof.
  induction fuel as [|fuel IH]; intros st total st' n HM Hw H; [discriminate|].
  change (reasoningLoop (S fuel) (DefaultRules mo) st total) with
    (let (st1, new) := applyRules (DefaultRules mo) st 0 in
     if Nat.eqb new 0 then Some (st1, total)
     else reasoningLoop fuel (DefaultRules mo) st1 (total + new)) in H.
  pose proof (applyRules_within mo M (DefaultRules mo) st 0 (incl_refl _) HM Hw) as Hw1.
  destruct (applyRules (DefaultRules mo) st 0) as [st1 new]. cbn [fst] in Hw1.
  destruct (Nat.eqb new 0).
  - inversion H. now subst.
  - eapply IH; eauto.
Qed.

Lemma reasoningLoop_S fuel rs st total :
  reasoningLoop (S fuel) rs st total =
  let (st', newInThisRound) := applyRules rs st 0 in
  if Nat.eqb newInThisRound 0 then Some (st', total)
  else reasoningLoop fuel rs st' (total + newInThisRound).
Proof. reflexivity. Qed.

(** With the default rules, the loop returns as soon as its fuel exceeds
    the number of triples over [U] that are still missing; it returns at a
    round that added nothing. *)
Lemma reasoningLoop_terminates mo U : forall fuel st total,
  In RDFType U -> within (termsIn U) st ->
  length U * (length U * length U) < Size st + fuel ->
  exists st' n,
    reasoningLoop fuel (DefaultRules mo) st total = Some (st', n) /\
    within (termsIn U) st' /\
    applyRules (DefaultRules mo) st' 0 = (st', 0) /\
    Size st' + total = Size st + n.
Proof.
  induction fuel as [|fuel IH]; intros st total HT Hw Hlt.
  - pose proof (Size_bound U st Hw). lia.
  - rewrite reasoningLoop_S.
    pose proof (applyRules_within mo (termsIn U) (DefaultRules mo) st 0 (incl_refl _)
                  (termsIn_closed U HT) Hw) as Hw1.
    destruct (applyRules (DefaultRules mo) st 0) as [st1 new] eqn:E.
    cbn [fst] in Hw1.
    pose proof (applyRules_count _ _ _ _ _ E) as (C1 & C2 & C3).
    destruct (Nat.eqb new 0) eqn:Z.
    + apply Nat.eqb_eq in Z. subst new. rewrite (C3 eq_refl) in *.
      exists st, total. splits; try assumption; reflexivity.
    + apply Nat.eqb_neq in Z.
      destruct (IH st1 (total + new) HT Hw1) as (st' & n & R & W & F & C); [lia|].
      exists st', n. splits; try assumption. lia.
Qed.

(** More fuel does not change the result. *)
Lemma reasoningLoop_more_fuel rs : forall fuel fuel' st total res,
  reasoningLoop fuel rs st total = Some res -> fuel <= fuel' ->
  reasoningLoop fuel' rs st total = Some res.
Proof.
  induction fuel as [|fuel IH]; intros fuel' st total res H Hle.
  - discriminate.
  - rewrite reasoningLoop_S in H.
    destruct fuel' as [|fuel']; [lia|]. rewrite reasoningLoop_S.
    destruct (applyRules rs st 0) as [st1 new].
    destruct (Nat.eqb new 0); [assumption|].
    apply IH; [assumption|lia].
Qed.

Lemma within_universe st : storeOk st -> within (termsIn (universe st)) st.
Proof. intros H. split; [assumption|]. intros t. apply facts_in_universe. Qed.

Lemma reasoningLoop_enough_fuel mo st fuel total :
  storeOk st -> roundBound st <= fuel ->
  exists st' n,
    reasoningLoop fuel (DefaultRules mo) st total = Some (st', n) /\
    storeOk st' /\
    applyRules (DefaultRules mo) st' 0 = (st', 0) /\
    Size st' + total = Size st + n.
Proof.
  intros Hok Hf.
  destruct (reasoningLoop_terminates mo (universe st) fuel st total)
    as (st' & n & R & W & F & C).
  - now left.
  - now apply within_universe.
  - unfold roundBound in Hf. lia.
  - exists st', n. splits; try assumption. apply W.
Qed.

(** *** The rules propose every consequence that is not yet stored *)

Lemma transitiveLoop_complete st prop a b c :
  storeOk st ->
  facts st (mkTriple a prop b) -> facts st (mkTriple b prop c) -> a <> c ->
  Contains st (mkTriple a prop c) = false ->
  In (mkTriple a prop c) (transitiveLoop st prop).
Proof.
  intros Hok H1 H2 Hne Hc. unfold transitiveLoop.
  apply in_flat_map. exists (mkTriple a prop b). split.
  - apply In_FindByPredicate; auto.
  - simpl. apply in_flat_map. exists (mkTriple b prop c). split.
    + apply In_FindBySubjectPredicate; auto.
    + simpl. apply In_propose. splits; auto.
      now apply negb_true_iff, String.eqb_neq.
Qed.

Lemma symmetricLoop_complete st prop x y :
  storeOk st ->
  facts st (mkTriple x prop y) ->
  Contains st (mkTriple y prop x) = false ->
  In (mkTriple y prop x) (symmetricLoop st prop).
Proof.
  intros Hok H1 Hc. unfold symmetricLoop.
  apply in_flat_map. exists (mkTriple x prop y). split.
  - apply In_FindByPredicate; auto.
  - simpl. apply In_propose. auto.
Qed.

(** Picks the [n]-th default rule. *)
Ltac use_rule r :=
  exists r; split; [unfold DefaultRules; simpl; tauto|simpl].

Lemma rules_complete mo st t :
  storeOk st -> consequence (facts st) t -> Contains st t = false ->
  exists r, In r (DefaultRules mo) /\ In t (Apply r st).
Proof.
  intros Hok H Hc. destruct H.
  - use_rule SubClassTransitivity. eapply transitiveLoop_complete; eauto.
  - use_rule TypeInheritance. unfold TypeInheritance_Apply.
    apply in_flat_map. exists (mkTriple x RDFType a). split;
      [apply In_FindByPredicate; auto|simpl].
    apply in_flat_map. exists (mkTriple a RDFSSubClassOf b). split;
      [apply In_FindBySubjectPredicate; auto|simpl].
    apply In_propose. auto.
  - use_rule DomainInference. unfold DomainInference_Apply.
    apply in_flat_map. exists (mkTriple p RDFSDomain c). split;
      [apply In_FindByPredicate; auto|simpl].
    apply in_flat_map. exists (mkTriple x p y). split;
      [apply In_FindByPredicate; auto|simpl].
    apply In_propose. auto.
  - use_rule RangeInference. unfold RangeInference_Apply.
    apply in_flat_map. exists (mkTriple p RDFSRange c). split;
      [apply In_FindByPredicate; auto|simpl].
    apply in_flat_map. exists (mkTriple x p y). split;
      [apply In_FindByPredicate; auto|simpl].
    match goal with L : isLiteral _ = false |- _ => rewrite L end.
    apply In_propose. auto.
  - use_rule SubPropertyTransitivity. eapply transitiveLoop_complete; eauto.
  - use_rule SubPropertyInheritance. unfold SubPropertyInheritance_Apply.
    apply in_flat_map. exists (mkTriple p1 RDFSSubPropertyOf p2). split;
      [apply In_FindByPredicate; auto|simpl].
    apply in_flat_map. exists (mkTriple x p1 y). split;
      [apply In_FindByPredicate; auto|simpl].
    apply In_propose. auto.
  - use_rule EquivalentClassSymmetry. eapply symmetricLoop_complete; eauto.
  - use_rule EquivalentClassTransitivity. eapply transitiveLoop_complete; eauto.
  - use_rule SameAsSymmetry. eapply symmetricLoop_complete; eauto.
  - use_rule SameAsTransitivity. eapply transitiveLoop_complete; eauto.
  - use_rule InversePropertyInference. unfold InversePropertyInference_Apply.
    apply in_flat_map. exists (mkTriple p1 OWLInverseOf p2). split;
      [apply In_FindByPredicate; auto|simpl].
    apply in_app_iff. left.
    apply in_flat_map. exists (mkTriple x p1 y). split;
      [apply In_FindByPredicate; auto|simpl].
    apply In_propose. auto.
  - use_rule InversePropertyInference. unfold InversePropertyInference_Apply.
    apply in_flat_map. exists (mkTriple p1 OWLInverseOf p2). split;
      [apply In_FindByPredicate; auto|simpl].
    apply in_app_iff. right.
    apply in_flat_map. exists (mkTriple x p2 y). split;
      [apply In_FindByPredicate; auto|simpl].
    apply In_propose. auto.
  - use_rule (TransitivePropertyInference mo). unfold TransitivePropertyInference_Apply.
    apply in_flat_map. exists p. split.
    + apply In_rangeSubjects. exists (mkTriple p RDFType OWLTransitiveProperty).
      split; [apply In_FindByPredicateObject; auto|reflexivity].
    + eapply transitiveLoop_complete; eauto.
  - use_rule (SymmetricPropertyInference mo). unfold SymmetricPropertyInference_Apply.
    apply in_flat_map. exists p. split.
    + apply In_rangeSubjects. exists (mkTriple p RDFType OWLSymmetricProperty).
      split; [apply In_FindByPredicateObject; auto|reflexivity].
    + eapply symmetricLoop_complete; eauto.
Qed.

(** *** A round that adds nothing *)


(** The loop returns at a store on which a further round adds nothing. *)
Lemma reasoningLoop_fixed rs : forall fuel st total st' n,
  reasoningLoop fuel rs st total = Some (st', n) ->
  applyRules rs st' 0 = (st', 0).
Proof.
  induction fuel as [|fuel IH]; intros st total st' n H; [discriminate|].
  rewrite reasoningLoop_S in H.
  destruct (applyRules rs st 0) as [st1 new] eqn:E.
  destruct (Nat.eqb new 0) eqn:Z.
  - apply Nat.eqb_eq in Z. subst new. inversion H. subst.
    apply applyRules_count in E as E'. destruct E' as (_ & _ & E3).
    rewrite (E3 eq_refl) in E. rewrite (E3 eq_refl). exact E.
  - eapply IH; eauto.
Qed.

Lemma reasoningLoop_at_fixed rs fuel st total :
  applyRules rs st 0 = (st, 0) ->
  reasoningLoop (S fuel) rs st total = Some (st, total).
Proof. intros H. rewrite reasoningLoop_S, H. reflexivity. Qed.

(** The store is kept by the loop well formed. *)
Lemma addInferred_ok inferred : forall st n,
  storeOk st -> storeOk (fst (addInferred st inferred n)).
Proof.
  induction inferred as [|t l IH]; intros st n H; simpl; [exact H|].
  pose proof (Add_ok st t H) as H'. destruct (Add st t) as [st1 b]. now apply IH.
Qed.

Lemma applyRules_ok rs : forall st n,
  storeOk st -> storeOk (fst (applyRules rs st n)).
Proof.
  induction rs as [|r rs IH]; intros st n H; simpl; [exact H|].
  pose proof (addInferred_ok (Apply r st) st n H) as H'.
  destruct (addInferred st (Apply r st) n) as [st1 n1]. now apply IH.
Qed.

Lemma reasoningLoop_ok rs : forall fuel st total st' n,
  storeOk st -> reasoningLoop fuel rs st total = Some (st', n) -> storeOk st'.
Proof.
  induction fuel as [|fuel IH]; intros st total st' n Hok H; [discriminate|].
  rewrite reasoningLoop_S in H.
  pose proof (applyRules_ok rs st 0 Hok) as Hok1.
  destruct (applyRules rs st 0) as [st1 new] eqn:E. cbn [fst] in Hok1.
  destruct (Nat.eqb new 0).
  - inversion H. now subst.
  - eapply IH; eauto.
Qed.

(** A round adds nothing exactly when no rule proposes anything. *)
Lemma addInferred_nothing inferred : forall st n,
  addInferred st inferred n = (st, n) ->
  forall t, In t inferred -> Contains st t = true.
Proof.
  induction inferred as [|u l IH]; intros st n H t Hin; simpl in *; [contradiction|].
  destruct (Add_count st u) as [Hs Hf].
  pose proof (Add_result st u) as Hr.
  destruct (Add st u) as [st1 b] eqn:E. cbn [fst snd] in *.
  pose proof (addInferred_count _ _ _ _ _ H) as (C1 & C2 & C3).
  destruct b; [lia|].
  rewrite (Hf eq_refl) in H.
  destruct Hin as [<-|Hin].
  - symmetry in Hr. now apply negb_false_iff in Hr.
  - eapply IH; eauto.
Qed.

Lemma applyRules_nothing rs : forall st n,
  applyRules rs st n = (st, n) ->
  forall r t, In r rs -> In t (Apply r st) -> Contains st t = true.
Proof.
  induction rs as [|r0 rs IH]; intros st n H r t Hr Ht; simpl in *; [contradiction|].
  destruct (addInferred st (Apply r0 st) n) as [st1 n1] eqn:E.
  pose proof (addInferred_count _ _ _ _ _ E) as (A1 & A2 & A3).
  pose proof (applyRules_count _ _ _ _ _ H) as (B1 & B2 & B3).
  assert (n1 = n) by lia. subst n1. rewrite (A3 eq_refl) in *.
  destruct Hr as [<-|Hr].
  - eapply addInferred_nothing; eauto.
  - eapply IH; eauto.
Qed.

Lemma addInferred_all_old inferred : forall st n,
  (forall t, In t inferred -> Contains st t = true) ->
  addInferred st inferred n = (st, n).
Proof.
  induction inferred as [|u l IH]; intros st n H; simpl; [reflexivity|].
  rewrite Add_old by (apply H; now left).
  apply IH. intros t Ht. apply H. now right.
Qed.

Lemma applyRules_all_old rs : forall st n,
  (forall r t, In r rs -> In t (Apply r st) -> Contains st t = true) ->
  applyRules rs st n = (st, n).
Proof.
  induction rs as [|r0 rs IH]; intros st n H; simpl; [reflexivity|].
  rewrite addInferred_all_old by (intros t Ht; apply (H r0 t); [now left|exact Ht]).
  apply IH. intros r t Hr Ht. apply (H r t); [right; exact Hr|exact Ht].
Qed.

(** Whether a round adds nothing does not depend on the order in which the
    maps of the last two rules are ranged over. *)
Lemma fixed_any_order mo mo' st :
  storeOk st ->
  applyRules (DefaultRules mo) st 0 = (st, 0) ->
  applyRules (DefaultRules mo') st 0 = (st, 0).
Proof.
  intros Hok H. apply applyRules_all_old. intros r t Hr Ht.
  destruct (rules_sound mo' st r t Hok Hr Ht) as [Hc Hn].
  destruct (rules_complete mo st t Hok Hc Hn) as (r' & Hr' & Ht').
  eapply applyRules_nothing; eauto.
Qed.

(** A fixed point is closed under the rule catalogue, up to [Contains]. *)
Lemma fixed_closed mo st t :
  storeOk st ->
  applyRules (DefaultRules mo) st 0 = (st, 0) ->
  consequence (facts st) t -> Contains st t = true.
Proof.
  intros Hok H Hc. destruct (Contains st t) eqn:C; [reflexivity|].
  destruct (rules_complete mo st t Hok Hc C) as (r & Hr & Ht).
  rewrite <- C. eapply applyRules_nothing; eauto.
Qed.

(** *** The store only grows *)

Lemma Add_grows st t u : facts st u -> facts (fst (Add st t)) u.
Proof.
  unfold facts, Add. destruct (mapBool (triples st) (tripleKey t)); simpl; [auto|].
  intros H. apply in_app_iff. now left.
Qed.

Lemma addInferred_grows inferred : forall st n u,
  facts st u -> facts (fst (addInferred st inferred n)) u.
Proof.
  induction inferred as [|t l IH]; intros st n u H; simpl; [exact H|].
  pose proof (Add_grows st t u H) as H'. destruct (Add st t) as [st1 b]. now apply IH.
Qed.

Lemma applyRules_grows rs : forall st n u,
  facts st u -> facts (fst (applyRules rs st n)) u.
Proof.
  induction rs as [|r rs IH]; intros st n u H; simpl; [exact H|].
  pose proof (addInferred_grows (Apply r st) st n u H) as H'.
  destruct (addInferred st (Apply r st) n) as [st1 n1]. now apply IH.
Qed.

Lemma reasoningLoop_grows rs : forall fuel st total st' n u,
  reasoningLoop fuel rs st total = Some (st', n) -> facts st u -> facts st' u.
Proof.
  induction fuel as [|fuel IH]; intros st total st' n u H Hu; [discriminate|].
  rewrite reasoningLoop_S in H.
  pose proof (applyRules_grows rs st 0 u Hu) as Hu1.
  destruct (applyRules rs st 0) as [st1 new]. cbn [fst] in Hu1.
  destruct (Nat.eqb new 0).
  - inversion H. now subst.
  - eapply IH; eauto.
Qed.

Lemma addAll_facts l : forall st u,
  facts (addAll st l) u -> facts st u \/ In u l.
Proof.
  unfold addAll. induction l as [|t l IH]; intros st u H; simpl in *; [now left|].
  apply IH in H. destruct H as [H|H]; [|tauto].
  unfold facts, Add in H. destruct (mapBool (triples st) (tripleKey t)); simpl in H.
  - now left.
  - apply in_app_iff in H. simpl in H. tauto.
Qed.

(** *** The least model of the rule catalogue *)

(** The least set of triples that contains [input] and is closed under the
    thirteen rules. *)
Definition leastModel (input : list Triple) (t : Triple) : Prop :=
  forall S : Triple -> Prop,
    (forall u, In u input -> S u) -> closedUnder S -> S t.

Lemma leastModel_input input u : In u input -> leastModel input u.
Proof. intros H S Hin _. now apply Hin. Qed.

Lemma leastModel_closed input : closedUnder (leastModel input).
Proof.
  intros t Hc S Hin Hcl. apply Hcl.
  eapply consequence_mono; [|exact Hc]. intros u Hu. now apply Hu.
Qed.

(** Terms without the separator of [tripleKey]. *)
Fixpoint noPipe (s : string) : bool :=
  match s with
  | EmptyString => true
  | String ch s' => negb (Ascii.eqb ch "|") && noPipe s'
  end.

Definition pipeFree (t : Triple) : Prop := allTerms (fun s => noPipe s = true) t.

Lemma append_String ch s r : String ch s +:+ r = String ch (s +:+ r).
Proof. reflexivity. Qed.

Lemma append_Empty r : EmptyString +:+ r = r.
Proof. reflexivity. Qed.

Lemma append_pipe_inj s1 : forall s2 r1 r2,
  noPipe s1 = true -> noPipe s2 = true ->
  s1 +:+ "|" +:+ r1 = s2 +:+ "|" +:+ r2 -> s1 = s2 /\ r1 = r2.
Proof.
  induction s1 as [|c s1 IH]; intros [|d s2] r1 r2 H1 H2 E;
    rewrite ?append_String, ?append_Empty in E; simpl in H1, H2.
  - inversion E. auto.
  - inversion E. subst d. discriminate.
  - inversion E. subst c. discriminate.
  - inversion E. subst d.
    apply andb_true_iff in H1, H2.
    destruct (IH s2 r1 r2) as [-> ->]; tauto.
Qed.

(** On triples without the separator the key is injective. *)
Lemma tripleKey_inj t u :
  pipeFree t -> pipeFree u -> tripleKey t = tripleKey u -> t = u.
Proof.
  intros (Ts & Tp & To) (Us & Up & Uo) E. unfold tripleKey in E.
  apply append_pipe_inj in E; [|assumption|assumption]. destruct E as [Es E].
  apply append_pipe_inj in E; [|assumption|assumption]. destruct E as [Ep Eo].
  destruct t, u. simpl in *. congruence.
Qed.

Lemma Contains_pipeFree st t :
  within pipeFree st -> pipeFree t -> Contains st t = true -> facts st t.
Proof.
  intros [Hok Hin] Ht Hc. apply Contains_spec in Hc; [|assumption].
  apply in_map_iff in Hc. destruct Hc as (u & E & Hu).
  assert (u = t) by (apply tripleKey_inj; auto). now subst.
Qed.

Lemma saturated_is_least_model (mo : MapOrder) (l : list Triple) fuel st' n :
  (forall t, In t l -> pipeFree t) ->
  reasoningLoop fuel (DefaultRules mo) (store (loaded mo l)) 0 = Some (st', n) ->
  forall t, facts st' t <-> leastModel l t.
Proof.
  intros Hl R.
  pose proof (loaded_ok mo l) as Hok.
  pose proof (reasoningLoop_fixed _ _ _ _ _ _ R) as F.
  assert (Hok' : storeOk st') by (eapply reasoningLoop_ok; eauto).
  assert (H0 : forall u, facts (store (loaded mo l)) u -> In u l).
  { intros u Hu. apply addAll_facts in Hu. destruct Hu as [[]|Hu]. exact Hu. }
  assert (Wp : within pipeFree st').
  { eapply (reasoningLoop_within mo pipeFree); [|split; [exact Hok|]|exact R].
    - apply (allTerms_closed (fun s => noPipe s = true)). reflexivity.
    - intros u Hu. apply Hl, H0, Hu. }
  assert (Wm : within (leastModel l) st').
  { eapply (reasoningLoop_within mo (leastModel l));
      [apply leastModel_closed|split; [exact Hok|]|exact R].
    intros u Hu. apply leastModel_input, H0, Hu. }
  intros t. split.
  - apply Wm.
  - intros Ht. apply Ht.
    + intros u Hu. eapply reasoningLoop_grows; [exact R|].
      apply Contains_pipeFree.
      * split; [exact Hok|]. intros v Hv. apply Hl, H0, Hv.
      * now apply Hl.
      * now apply Contains_addAll.
    + intros u Hu. apply Contains_pipeFree; [exact Wp| |].
      * apply (allTerms_closed (fun s => noPipe s = true)); [reflexivity|].
        eapply consequence_mono; [|exact Hu]. apply Wp.
      * eapply fixed_closed; eauto.
Qed.

(** X8.  For input facts without the separator, [RunForwardReasoning]
    returns whenever it is given [roundBound] rounds or more, and the
    closure it computes is the least model of the rule catalogue: the
    least set of triples that contains the input and is closed under the
    thirteen rules. *)
Theorem RunForwardReasoning_least_model_pipe_free (mo : MapOrder) (l : list Triple) :
  (forall t, In t l -> pipeFree t) ->
  exists r' n,
    (forall fuel, roundBound (store (loaded mo l)) <= fuel ->
       RunForwardReasoning fuel (loaded mo l) = Some (r', n)) /\
    forall t, facts (store r') t <-> leastModel l t.
Proof.
  intros Hl.
  pose proof (loaded_ok mo l) as Hok.
  destruct (reasoningLoop_enough_fuel mo (store (loaded mo l))
              (roundBound (store (loaded mo l))) 0 Hok (le_n _))
    as (st' & n & R & _).
  exists {| store := st'; rules := DefaultRules mo |}, n. split.
  - intros fuel Hf. unfold RunForwardReasoning.
    change (rules (loaded mo l)) with (DefaultRules mo).
    now rewrite (reasoningLoop_more_fuel _ _ fuel _ _ _ R Hf).
  - cbn [store]. exact (saturated_is_least_model mo l _ st' n Hl R).
Qed.

(** ** Properties of the store, the rules and the fixed-point loop *)

Definition quoted (s : string) : string :=
  String dquote s +:+ String dquote EmptyString.

(** Two triples that differ and have the same key. *)
Definition pipeTurtle : string := "<a|b> <c> <d> . <a> <b|c> <d> .".
Definition pipeLeft : Triple := mkTriple "a|b" "c" "d".
Definition pipeRight : Triple := mkTriple "a" "b|c" "d".

(** C3 (the code departs from the claim).  The Turtle text [pipeTurtle]
    parses to two distinct triples with the same [tripleKey]; the store
    reports the first one as new and never the second one, however often it
    is added: a distinct triple is reported new zero times, not once.
    ([Add_new_once_per_key] states what holds: once per key.) *)
Lemma Add_key_collision :
  Parse pipeTurtle = Ok [pipeLeft; pipeRight] /\
  pipeLeft <> pipeRight /\
  tripleKey pipeLeft = tripleKey pipeRight /\
  addResults NewTripleStore [pipeLeft; pipeRight; pipeRight] = [true; false; false] /\
  newReports (Triple_eqb pipeRight) NewTripleStore [pipeLeft; pipeRight; pipeRight] = 0.
Proof.
  splits; try (vm_compute; reflexivity). discriminate.
Qed.

(** The failing input of C1: [(x|y type A)] and [(A subClassOf B)] entail
    [(x|y type B)], whose key is the key of the third triple. *)
Definition collidingTurtle : string :=
  "<x|y> a <A> . <A> <http://www.w3.org/2000/01/rdf-schema#subClassOf> <B> . "
  +:+ "<x> <y|http://www.w3.org/1999/02/22-rdf-syntax-ns#type> <B> .".

Definition collidingFacts : list Triple :=
  [ mkTriple "x|y" RDFType "A"; mkTriple "A" RDFSSubClassOf "B";
    mkTriple "x" ("y|" +:+ RDFType) "B" ].

(** C1 (the code departs from the claim).  On [collidingTurtle] the closure
    computed by [RunForwardReasoning] is the input itself: the triple
    [(x|y type B)] of the least model is not in it, because [Contains]
    takes it for the stored triple with the same key.
    ([RunForwardReasoning_least_model_pipe_free] states what holds.) *)
Lemma closure_misses_consequence_on_key_collision :
  Parse collidingTurtle = Ok collidingFacts /\
  (exists r',
     RunForwardReasoning (roundBound (store (loaded insertionOrder collidingFacts)))
       (loaded insertionOrder collidingFacts) = Some (r', 0) /\
     tripleList (store r') = collidingFacts /\
     leastModel collidingFacts (mkTriple "x|y" RDFType "B") /\
     ~ facts (store r') (mkTriple "x|y" RDFType "B")).
Proof.
  split; [vm_compute; reflexivity|].
  assert (L : tripleList (store (loaded insertionOrder collidingFacts)) = collidingFacts)
    by (vm_compute; reflexivity).
  exists (loaded insertionOrder collidingFacts). splits.
  - unfold RunForwardReasoning, roundBound.
    rewrite reasoningLoop_at_fixed; [reflexivity|]. vm_compute. reflexivity.
  - exact L.
  - apply leastModel_closed. apply (c_typeInheritance _ "x|y" "A" "B").
    + apply leastModel_input. simpl. tauto.
    + apply leastModel_input. simpl. tauto.
  - unfold facts. rewrite L. unfold collidingFacts. simpl.
    intros [H|[H|[H|[]]]]; discriminate H.
Qed.

(** The input of the counterexample of C2: no triple mentions [rdf:type]. *)
Definition domainFacts : list Triple :=
  [ mkTriple "p" RDFSDomain "C"; mkTriple "x" "p" "y" ].

(** C2 (counterexample).  The domain rule proposes [(x type C)] on a store
    in which the term [rdf:type] does not occur. *)
Lemma DomainInference_proposes_absent_term :
  In (mkTriple "x" RDFType "C")
     (Apply DomainInference (store (loaded insertionOrder domainFacts))) /\
  ~ In RDFType (termsOf (tripleList (store (loaded insertionOrder domainFacts)))).
Proof.
  split.
  - vm_compute. tauto.
  - vm_compute. intros H. repeat (destruct H as [H|H]; [discriminate H|]). exact H.
Qed.

(** C2 (amended).  On every store loaded from finitely many triples, every
    default rule proposes only triples over the terms of the store and
    [rdf:type]; [RunForwardReasoning] returns whenever it is given
    [roundBound] rounds or more, always with the same result; the triples
    of the result are over the terms of the input and [rdf:type]; and the
    loop stopped at a round that added nothing. *)
Theorem RunForwardReasoning_terminates (mo : MapOrder) (l : list Triple) :
  (forall l' rule t,
     In rule (DefaultRules mo) ->
     In t (Apply rule (store (loaded mo l'))) ->
     termsIn (RDFType :: termsOf (tripleList (store (loaded mo l')))) t) /\
  exists r' n,
    (forall fuel, roundBound (store (loaded mo l)) <= fuel ->
       RunForwardReasoning fuel (loaded mo l) = Some (r', n)) /\
    (forall t, facts (store r') t ->
       termsIn (RDFType :: termsOf (tripleList (store (loaded mo l)))) t) /\
    applyRules (rules r') (store r') 0 = (store r', 0).
Proof.
  split.
  - intros l' rule t Hr Ht.
    pose proof (loaded_ok mo l') as Hok.
    apply (termsIn_closed (universe (store (loaded mo l')))); [now left|].
    eapply consequence_mono; [|eapply rules_sound; eauto].
    intros u. apply facts_in_universe.
  - pose proof (loaded_ok mo l) as Hok.
    destruct (reasoningLoop_terminates mo (universe (store (loaded mo l)))
                (roundBound (store (loaded mo l))) (store (loaded mo l)) 0)
      as (st' & n & R & W & F & _).
    + now left.
    + now apply within_universe.
    + unfold roundBound. lia.
    + exists {| store := st'; rules := DefaultRules mo |}, n. splits.
      * intros fuel Hf. unfold RunForwardReasoning.
        change (rules (loaded mo l)) with (DefaultRules mo).
        now rewrite (reasoningLoop_more_fuel _ _ fuel _ _ _ R Hf).
      * apply W.
      * exact F.
Qed.

(** C4.  When [RunForwardReasoning] has returned, one more application of
    all rules adds no triple and leaves the store as it is, and a second
    call returns zero at once; this holds also if the maps of the last two
    rules are then ranged over in another order [mo']. *)
Theorem RunForwardReasoning_idempotent (mo mo' : MapOrder) (l : list Triple)
  (fuel : nat) (r' : Reasoner) (n : nat) :
  RunForwardReasoning fuel (loaded mo l) = Some (r', n) ->
  applyRules (rules r') (store r') 0 = (store r', 0) /\
  (forall fuel', RunForwardReasoning (S fuel') r' = Some (r', 0)) /\
  applyRules (DefaultRules mo') (store r') 0 = (store r', 0) /\
  (forall fuel',
     RunForwardReasoning (S fuel') {| store := store r'; rules := DefaultRules mo' |}
     = Some ({| store := store r'; rules := DefaultRules mo' |}, 0)).
Proof.
  unfold RunForwardReasoning. change (rules (loaded mo l)) with (DefaultRules mo).
  destruct (reasoningLoop fuel (DefaultRules mo) (store (loaded mo l)) 0)
    as [[st' k]|] eqn:R; [|discriminate].
  intros E. inversion E. subst r' n. clear E. cbn [store rules].
  pose proof (reasoningLoop_fixed _ _ _ _ _ _ R) as F.
  pose proof (reasoningLoop_ok _ _ _ _ _ _ (loaded_ok mo l) R) as Hok.
  pose proof (fixed_any_order mo mo' st' Hok F) as F'.
  splits.
  - exact F.
  - intros fuel'. now rewrite (reasoningLoop_at_fixed _ fuel' st' 0 F).
  - exact F'.
  - intros fuel'. now rewrite (reasoningLoop_at_fixed _ fuel' st' 0 F').
Qed.

Definition carFacts : list Triple :=
  [ mkTriple "Car" RDFSSubClassOf "Vehicle";
    mkTriple "Vehicle" RDFSSubClassOf "Transport";
    mkTriple "myCar" RDFType "Car" ].

Lemma RunForwardReasoning_idempotent_witness :
  exists r',
    RunForwardReasoning 3 (loaded insertionOrder carFacts) = Some (r', 3) /\
    applyRules (rules r') (store r') 0 = (store r', 0) /\
    RunForwardReasoning 1 r' = Some (r', 0).
Proof.
  exists (loaded insertionOrder
            (carFacts ++ [ mkTriple "Car" RDFSSubClassOf "Transport";
                           mkTriple "myCar" RDFType "Vehicle";
                           mkTriple "myCar" RDFType "Transport" ])).
  assert (E : RunForwardReasoning 3 (loaded insertionOrder carFacts)
              = Some (loaded insertionOrder
                        (carFacts ++ [ mkTriple "Car" RDFSSubClassOf "Transport";
                                       mkTriple "myCar" RDFType "Vehicle";
                                       mkTriple "myCar" RDFType "Transport" ]), 3))
    by (vm_compute; reflexivity).
  destruct (RunForwardReasoning_idempotent insertionOrder insertionOrder carFacts 3 _ 3 E)
    as (F & S2 & _ & _).
  splits; [exact E|exact F|apply S2].
Defined.

(** The input of the counterexample of C5: the range of [p] is a literal. *)
Definition rangeFacts : list Triple :=
  [ mkTriple "p" RDFSRange (quoted "lit"); mkTriple "x" "p" "y" ].

(** C5 (counterexample).  The range rule emits a triple whose object
    begins with a double quote. *)
Lemma RangeInference_emits_literal_object :
  In (mkTriple "y" RDFType (quoted "lit"))
     (RangeInference_Apply (addAll NewTripleStore rangeFacts)) /\
  isLiteral (Object (mkTriple "y" RDFType (quoted "lit"))) = true.
Proof. split; [vm_compute; tauto|reflexivity]. Qed.

(** C5 (amended).  No triple emitted by the range rule has a subject whose
    first character is a double quote: every emitted triple is
    [(y type c)] for stored triples [(p range c)] and [(x p y)] where [y]
    is not a literal. *)
Theorem RangeInference_subject_not_literal (l : list Triple) (t : Triple) :
  In t (RangeInference_Apply (addAll NewTripleStore l)) ->
  isLiteral (Subject t) = false /\
  exists p c x,
    facts (addAll NewTripleStore l) (mkTriple p RDFSRange c) /\
    facts (addAll NewTripleStore l) (mkTriple x p (Subject t)) /\
    t = mkTriple (Subject t) RDFType c.
Proof.
  intros H.
  assert (Hok : storeOk (addAll NewTripleStore l)) by apply addAll_ok, NewTripleStore_ok.
  unfold RangeInference_Apply in H. open_rule.
  destruct (isLiteral (Object _)) eqn:L in H; [contradiction|]. open_rule. subst.
  simpl. split; [assumption|].
  match goal with
  | H1 : In ?t1 (tripleList _), H2 : In ?t2 (tripleList _),
    E : Predicate ?t2 = Subject ?t1
    |- _ => exists (Subject t1), (Object t1), (Subject t2);
            as_fact H1; as_fact H2; unfold facts; splits; congruence
  end.
Qed.

Lemma RangeInference_subject_not_literal_witness :
  isLiteral (Subject (mkTriple "y" RDFType (quoted "lit"))) = false.
Proof.
  apply (RangeInference_subject_not_literal rangeFacts (mkTriple "y" RDFType (quoted "lit"))).
  vm_compute. tauto.
Defined.

(** ** The counts of [ForwardReasonWithDetails] *)

Lemma length_insertSorted s l : length (insertSorted s l) = S (length l).
Proof.
  induction l as [|x l IH]; simpl; [reflexivity|].
  destruct (String.leb s x); simpl; [reflexivity|]. now rewrite IH.
Qed.

Lemma length_sortStrings l : length (sortStrings l) = length l.
Proof.
  unfold sortStrings. induction l as [|x l IH]; simpl; [reflexivity|].
  now rewrite length_insertSorted, IH.
Qed.

Lemma length_GetAllTriples r : length (GetAllTriples r) = Size (store r).
Proof. unfold GetAllTriples, All, Size. now rewrite length_sortStrings, length_map. Qed.



Definition carTBox : string :=
  "@prefix ex: <http://example.org/> . "
  +:+ "@prefix rdfs: <http://www.w3.org/2000/01/rdf-schema#> . "
  +:+ "ex:Car rdfs:subClassOf ex:Vehicle . ex:Vehicle rdfs:subClassOf ex:Transport .".

Definition carABox : string :=
  "@prefix ex: <http://example.org/> . ex:myCar a ex:Car .".


(** ** The Turtle parser: every call consumes input and none runs out of fuel *)

(** [len p] is [len(p.input) - p.pos]. *)
Definition len (p : TurtleParser) : nat := String.length (unread p).

(** At [p], the call [m] does not reach the bound of a loop and does not move
    backwards; when [strict] and the call succeeds, it moves forwards. *)
Definition okAt {A} (strict : bool) (m : parser A) (p : TurtleParser) : Prop :=
  match m p with
  | (Ok _, p') => if strict then len p' < len p else len p' <= len p
  | (Err _, p') => len p' <= len p
  | (OutOfFuel, _) => False
  end.

Lemma okAt_weaken {A} (m : parser A) p : okAt true m p -> okAt false m p.
Proof. unfold okAt. destruct (m p) as [[a|e|] p']; auto. lia. Qed.

Lemma okAt_any {A} s (m : parser A) p : okAt true m p -> okAt s m p.
Proof. destruct s; [auto|apply okAt_weaken]. Qed.

Lemma okAt_bind {A B} (s1 s2 : bool) (m : parser A) (k : A -> parser B) p :
  okAt s1 m p ->
  (forall a p', m p = (Ok a, p') ->
     (if s1 then len p' < len p else len p' <= len p) -> okAt s2 (k a) p') ->
  okAt (s1 || s2) (bind m k) p.
Proof.
  unfold okAt, bind. intros Hm Hk.
  destruct (m p) as [[a|e|] p'] eqn:E; [|assumption|assumption].
  specialize (Hk a p' eq_refl Hm).
  destruct (k a p') as [[b|e|] p'']; [|destruct s1; lia|assumption].
  destruct s1, s2; simpl; lia.
Qed.

Lemma okAt_bind_ff {A B} (m : parser A) (k : A -> parser B) p :
  okAt false m p ->
  (forall a p', m p = (Ok a, p') -> len p' <= len p -> okAt false (k a) p') ->
  okAt false (bind m k) p.
Proof. intros. now apply (okAt_bind false false). Qed.

Lemma okAt_bind_tf {A B} (m : parser A) (k : A -> parser B) p :
  okAt true m p ->
  (forall a p', m p = (Ok a, p') -> len p' < len p -> okAt false (k a) p') ->
  okAt true (bind m k) p.
Proof. intros. now apply (okAt_bind true false). Qed.

Lemma okAt_bind_ft {A B} (m : parser A) (k : A -> parser B) p :
  okAt false m p ->
  (forall a p', m p = (Ok a, p') -> len p' <= len p -> okAt true (k a) p') ->
  okAt true (bind m k) p.
Proof. intros. now apply (okAt_bind false true). Qed.

Lemma okAt_get {A} s (k : TurtleParser -> parser A) p :
  okAt s (k p) p -> okAt s (bind getParser k) p.
Proof. unfold okAt, bind, getParser. auto. Qed.

Lemma okAt_ret {A} (a : A) p : okAt false (ret a) p.
Proof. unfold okAt, ret. lia. Qed.

Lemma okAt_fail {A} s e p : okAt s (@fail A e) p.
Proof. unfold okAt, fail. lia. Qed.

Lemma length_dropS n : forall s, String.length (dropS n s) <= String.length s.
Proof.
  induction n as [|n IH]; intros [|c s]; simpl; try lia.
  specialize (IH s). lia.
Qed.

Lemma length_dropS_lt n c s :
  String.length (dropS (S n) (String c s)) < String.length (String c s).
Proof. simpl. pose proof (length_dropS n s). lia. Qed.

Lemma length_span f : forall s,
  String.length (snd (span f s)) <= String.length s.
Proof.
  induction s as [|c s IH]; simpl; [lia|].
  destruct (f c); simpl; [|lia].
  destruct (span f s) as [w r]. simpl in *. lia.
Qed.

Lemma length_skipSpaces : forall s b,
  String.length (skipSpaces b s) <= String.length s.
Proof.
  induction s as [|c s IH]; intros b; simpl; [lia|].
  pose proof (IH true). pose proof (IH false).
  destruct b.
  - destruct (Ascii.eqb c newline); lia.
  - destruct (Ascii.eqb c " " || Ascii.eqb c tab || Ascii.eqb c newline || Ascii.eqb c cr);
      [lia|].
    destruct (Ascii.eqb c "#"); simpl; lia.
Qed.

Lemma length_prefixNameSpan : forall s,
  String.length (snd (prefixNameSpan s)) <= String.length s.
Proof.
  induction s as [|c s IH]; simpl; [lia|].
  destruct (Ascii.eqb c ":"); simpl; [lia|].
  destruct (isSpace c); simpl; [lia|].
  destruct (prefixNameSpan s) as [w r]. simpl in *. lia.
Qed.

Lemma length_tripleQuotedSpan : forall s,
  String.length (snd (tripleQuotedSpan s)) <= String.length s.
Proof.
  induction s as [|c s IH]; [simpl; lia|].
  cbn [tripleQuotedSpan].
  destruct (String.prefix tripleQuote (String c s)).
  - cbn [snd]. apply length_dropS.
  - destruct (tripleQuotedSpan s) as [w r]. simpl in *. lia.
Qed.

Lemma quotedSpan_cons c s :
  quotedSpan (String c s) =
  if Ascii.eqb c dquote then (EmptyString, String c s)
  else
    match s with
    | String c2 s2 =>
        if Ascii.eqb c backslash
        then let (w, r) := quotedSpan s2 in (String c (String c2 w), r)
        else let (w, r) := quotedSpan s in (String c w, r)
    | EmptyString => (String c EmptyString, EmptyString)
    end.
Proof. destruct s; reflexivity. Qed.

Lemma length_quotedSpan : forall n s,
  String.length s <= n ->
  String.length (snd (quotedSpan s)) <= String.length s.
Proof.
  induction n as [|n IH]; intros [|c s] Hn; cbn [String.length] in Hn;
    try (cbn; lia).
  rewrite quotedSpan_cons.
  destruct (Ascii.eqb c dquote); [cbn; lia|].
  destruct s as [|c2 s2]; [cbn; lia|].
  destruct (Ascii.eqb c backslash).
  - pose proof (IH s2) as H. destruct (quotedSpan s2) as [w r].
    cbn [snd String.length] in *. lia.
  - pose proof (IH (String c2 s2)) as H. destruct (quotedSpan (String c2 s2)) as [w r].
    cbn [snd String.length] in *. lia.
Qed.

Lemma atEnd_false_len p : atEnd p = false -> 0 < len p.
Proof. unfold atEnd, len. destruct (unread p); [discriminate|simpl; lia]. Qed.

Lemma peekIs_not_atEnd c p : peekIs c p = true -> atEnd p = false.
Proof. unfold peekIs, peek, atEnd. now destruct (unread p). Qed.

Lemma prefix_not_empty t c s : String.prefix (String c t) s = true -> s <> EmptyString.
Proof. destruct s; [discriminate|discriminate]. Qed.

Lemma lookingAt_not_atEnd t c p : lookingAt (String c t) p = true -> atEnd p = false.
Proof. unfold lookingAt, atEnd. now destruct (unread p). Qed.

Lemma lookingAtCI_not_atEnd t c p :
  lookingAtCaseInsensitive (String c t) p = true -> atEnd p = false.
Proof. unfold lookingAtCaseInsensitive, atEnd. now destruct (unread p). Qed.

Lemma okAt_advance n p : okAt false (advance n) p.
Proof. unfold okAt, advance, len. simpl. apply length_dropS. Qed.

Lemma okAt_advance_strict n p : atEnd p = false -> okAt true (advance (S n)) p.
Proof.
  unfold okAt, advance, len, atEnd. simpl.
  destruct (unread p) as [|c s]; [discriminate|]. intros _. apply length_dropS_lt.
Qed.

Lemma okAt_takeWhile f p : okAt false (takeWhile f) p.
Proof.
  unfold okAt, takeWhile, len. pose proof (length_span f (unread p)).
  destruct (span f (unread p)) as [w r]. simpl in *. assumption.
Qed.

Lemma okAt_skip p : okAt false skipWhitespaceAndComments p.
Proof. unfold okAt, skipWhitespaceAndComments, len. simpl. apply length_skipSpaces. Qed.

Lemma okAt_parsePrefixName p : okAt false parsePrefixName p.
Proof.
  unfold okAt, parsePrefixName, len. pose proof (length_prefixNameSpan (unread p)).
  destruct (prefixNameSpan (unread p)) as [w r]. simpl in *. assumption.
Qed.

Lemma okAt_ignoreErr (m : parser string) p : okAt false m p -> okAt false (ignoreErr m) p.
Proof. unfold okAt, ignoreErr. destruct (m p) as [[a|e|] p']; auto. Qed.

(** Steps through the body of a method of the parser. *)
Ltac step :=
  lazymatch goal with
  | |- okAt _ (bind getParser _) _ => apply okAt_get
  | |- okAt _ (fail _) _ => apply okAt_fail
  | |- okAt false (ret _) _ => apply okAt_ret
  | |- okAt false (advance _) _ => apply okAt_advance
  | |- okAt false (takeWhile _) _ => apply okAt_takeWhile
  | |- okAt false skipWhitespaceAndComments _ => apply okAt_skip
  | |- okAt false parsePrefixName _ => apply okAt_parsePrefixName
  | |- okAt false (bind _ _) _ => apply okAt_bind_ff; [|intros ? ? _ ?]
  end.

Lemma okAt_parseIRI p : okAt true parseIRI p.
Proof.
  unfold parseIRI. apply okAt_bind_ft; [step|intros _ p1 _ _]. step.
  destruct (peekIs "<" p1) eqn:E; simpl; [|step].
  apply okAt_bind_tf; [apply okAt_advance_strict; eapply peekIs_not_atEnd; eauto|].
  intros _ p2 _ _. repeat step. destruct (atEnd _); repeat step.
Qed.

Lemma okAt_parsePrefixedName p : okAt true parsePrefixedName p.
Proof.
  unfold parsePrefixedName. apply okAt_bind_ft; [step|intros prefix p1 _ _]. step.
  destruct (peekIs ":" p1) eqn:E; simpl; [|step].
  apply okAt_bind_tf; [apply okAt_advance_strict; eapply peekIs_not_atEnd; eauto|].
  intros _ p2 _ _. repeat step. destruct (prefixes _ !! prefix); step.
Qed.

Lemma okAt_parseBlankNode p : atEnd p = false -> okAt true parseBlankNode p.
Proof.
  intros H. unfold parseBlankNode. step.
  apply okAt_bind_tf; [now apply okAt_advance_strict|].
  intros _ p2 _ _. repeat step.
Qed.

Lemma okAt_spanWith {A} (f : string -> string * string) (g : string -> A) p :
  (forall s, String.length (snd (f s)) <= String.length s) ->
  okAt false (fun p => let (w, r) := f (unread p) in (Ok (g w), setUnread p r)) p.
Proof.
  intros H. unfold okAt, len. specialize (H (unread p)).
  destruct (f (unread p)) as [w r]. simpl in *. assumption.
Qed.

Lemma okAt_parseLiteral p : atEnd p = false -> okAt true parseLiteral p.
Proof.
  intros H. unfold parseLiteral. step.
  apply okAt_bind_tf.
  - destruct (lookingAt tripleQuote p).
    + apply okAt_bind_tf; [now apply okAt_advance_strict|intros _ p1 _ _].
      apply (okAt_spanWith tripleQuotedSpan (String dquote)).
      apply length_tripleQuotedSpan.
    + apply okAt_bind_tf; [now apply okAt_advance_strict|intros _ p1 _ _].
      apply okAt_bind_ff.
      * apply (okAt_spanWith quotedSpan (fun w => w)).
        intros s. now apply (length_quotedSpan (String.length s)).
      * intros w p2 _ _. step. step; [destruct (atEnd p2); step|]. step.
  - intros sb p1 _ _. step.
    destruct (peekIs "@" p1); [repeat step|].
    destruct (lookingAt "^^" p1); [|step].
    step; [step|]. step. destruct (peekIs "<" _).
    + step; [apply okAt_ignoreErr, okAt_weaken, okAt_parseIRI|]. repeat step.
    + step; [apply okAt_ignoreErr, okAt_weaken, okAt_parsePrefixedName|]. step.
Qed.

Lemma okAt_parseSubject p : okAt true parseSubject p.
Proof.
  unfold parseSubject. apply okAt_bind_ft; [step|intros _ p1 _ _]. step.
  destruct (atEnd p1) eqn:E; [step|].
  destruct (peekIs "<" p1).
  { apply okAt_bind_tf; [apply okAt_parseIRI|intros; repeat step]. }
  destruct (lookingAt "_:" p1); [now apply okAt_parseBlankNode|].
  apply okAt_parsePrefixedName.
Qed.

Lemma okAt_parsePredicate p : okAt true parsePredicate p.
Proof.
  unfold parsePredicate. apply okAt_bind_ft; [step|intros _ p1 _ _]. step.
  destruct (atEnd p1) eqn:E; [step|].
  destruct (lookingAtKeywordA p1).
  { apply okAt_bind_tf; [now apply okAt_advance_strict|intros; step]. }
  destruct (peekIs "<" p1).
  { apply okAt_bind_tf; [apply okAt_parseIRI|intros; repeat step]. }
  apply okAt_parsePrefixedName.
Qed.

Lemma okAt_parseObject p : okAt true parseObject p.
Proof.
  unfold parseObject. apply okAt_bind_ft; [step|intros _ p1 _ _]. step.
  destruct (atEnd p1) eqn:E; [step|].
  destruct (peekIs "<" p1).
  { apply okAt_bind_tf; [apply okAt_parseIRI|intros; repeat step]. }
  destruct (lookingAt "_:" p1); [now apply okAt_parseBlankNode|].
  destruct (peekIs dquote p1); [now apply okAt_parseLiteral|].
  apply okAt_parsePrefixedName.
Qed.

Lemma okAt_parseObjectList subject predicate : forall fuel triples p,
  len p < fuel -> okAt true (parseObjectList fuel subject predicate triples) p.
Proof.
  induction fuel as [|fuel IH]; intros triples p Hf; [lia|].
  cbn [parseObjectList].
  apply okAt_bind_ft; [step|intros _ p1 _ L1].
  apply okAt_bind_tf; [apply okAt_parseObject|intros object p2 _ L2].
  step; [step|]. step.
  destruct (peekIs "," _); [|step].
  step; [step|]. apply okAt_weaken, IH. lia.
Qed.

Lemma okAt_parsePredicateObjectList subject : forall fuel triples p,
  len p < fuel -> okAt false (parsePredicateObjectList fuel subject triples) p.
Proof.
  induction fuel as [|fuel IH]; intros triples p Hf; [lia|].
  cbn [parsePredicateObjectList].
  apply okAt_bind_ff; [step|intros _ p1 _ L1]. step.
  destruct (atEnd p1); [step|].
  destruct (peekIs "." p1); [repeat step|].
  apply okAt_weaken.
  apply okAt_bind_tf; [apply okAt_parsePredicate|intros predicate p2 _ L2]. step.
  apply okAt_bind_ff.
  { apply okAt_weaken, okAt_parseObjectList. unfold len. lia. }
  intros triples' p3 _ L3. step; [step|]. step.
  destruct (atEnd _); [step|].
  destruct (peekIs ";" _).
  - step; [step|]. step; [step|]. step.
    destruct (peekIs "." _); [repeat step|]. apply IH. lia.
  - destruct (peekIs "." _); repeat step.
Qed.

Lemma okAt_parseTriples p : okAt true parseTriples p.
Proof.
  unfold parseTriples.
  apply okAt_bind_tf; [apply okAt_parseSubject|intros subject p1 _ L1]. step.
  apply okAt_parsePredicateObjectList. unfold len. lia.
Qed.

Lemma okAt_setFields s (f : TurtleParser -> TurtleParser) p :
  (forall q, unread (f q) = unread q) ->
  s = false ->
  okAt s (fun q => (Ok tt, f q)) p.
Proof. intros H ->. unfold okAt, len. rewrite H. lia. Qed.

Lemma isPrefixDecl_not_atEnd p : isPrefixDecl p = true -> atEnd p = false.
Proof.
  unfold isPrefixDecl. intros H. apply orb_true_iff in H. destruct H as [H|H].
  - eapply lookingAt_not_atEnd; eauto.
  - eapply lookingAtCI_not_atEnd; eauto.
Qed.

Lemma isBaseDecl_not_atEnd p : isBaseDecl p = true -> atEnd p = false.
Proof.
  unfold isBaseDecl. intros H. apply orb_true_iff in H. destruct H as [H|H].
  - eapply lookingAt_not_atEnd; eauto.
  - eapply lookingAtCI_not_atEnd; eauto.
Qed.

Lemma okAt_parsePrefix p : atEnd p = false -> okAt true parsePrefix p.
Proof.
  intros H. unfold parsePrefix. step.
  apply okAt_bind_tf.
  { destruct (lookingAt "@prefix" p); now apply okAt_advance_strict. }
  intros _ p1 _ _. step; [step|]. step; [step|].
  destruct (String.eqb _ EmptyString); [step|].
  step; [step|]. step; [apply okAt_weaken, okAt_parseIRI|].
  step; [step|]. step. step; [destruct (peekIs "." _); step|].
  now apply okAt_setFields.
Qed.

Lemma okAt_parseBase p : atEnd p = false -> okAt true parseBase p.
Proof.
  intros H. unfold parseBase. step.
  apply okAt_bind_tf.
  { destruct (lookingAt "@base" p); now apply okAt_advance_strict. }
  intros _ p1 _ _. step; [step|]. step; [apply okAt_weaken, okAt_parseIRI|].
  step; [step|]. step. step; [destruct (peekIs "." _); step|].
  now apply okAt_setFields.
Qed.

Lemma len_skipToNextStatement p :
  len (skipToNextStatement p) <= len p /\
  (atEnd p = false -> len (skipToNextStatement p) < len p).
Proof.
  unfold skipToNextStatement, len, atEnd. simpl.
  pose proof (length_span (fun ch => negb (Ascii.eqb ch ".")) (unread p)) as H.
  destruct (snd (span (fun ch => negb (Ascii.eqb ch ".")) (unread p))) as [|c r] eqn:E.
  - simpl. split; [lia|]. destruct (unread p); [discriminate|simpl; lia].
  - simpl in *. split; [lia|]. intros _. lia.
Qed.

(** An iteration of the loop of [Parse] that continues has moved forwards,
    and no iteration reaches the bound of a loop. *)
Lemma parseIteration_progress p :
  match parseIteration p with
  | Continue p' _ => len p' < len p
  | IterationOutOfFuel => False
  | _ => True
  end.
Proof.
  unfold parseIteration. destruct (atEnd p) eqn:E0; [exact I|].
  pose proof (okAt_skip p) as Hs. unfold okAt in Hs.
  destruct (skipWhitespaceAndComments p) as [r p1] eqn:Es.
  assert (L1 : len p1 <= len p).
  { unfold skipWhitespaceAndComments in Es. inversion Es. subst. exact Hs. }
  cbn [snd]. destruct (atEnd p1) eqn:E1; [exact I|].
  destruct (isPrefixDecl p1) eqn:Dp.
  { pose proof (okAt_parsePrefix p1 E1) as H. unfold okAt in H.
    destruct (parsePrefix p1) as [[a|e|] p2]; auto. lia. }
  destruct (isBaseDecl p1) eqn:Db.
  { pose proof (okAt_parseBase p1 E1) as H. unfold okAt in H.
    destruct (parseBase p1) as [[a|e|] p2]; auto. lia. }
  pose proof (okAt_parseTriples p1) as H. unfold okAt in H.
  destruct (parseTriples p1) as [[a|e|] p2]; auto; [lia|].
  destruct (len_skipToNextStatement p2) as [A B].
  destruct (atEnd p2) eqn:E2.
  - apply atEnd_false_len in E0. unfold atEnd in E2. unfold len in *.
    destruct (unread p2); [|discriminate]. simpl in *. lia.
  - specialize (B eq_refl). lia.
Qed.

Lemma parseLoop_total : forall fuel p triples,
  len p < fuel -> parseLoop fuel p triples <> OutOfFuel.
Proof.
  induction fuel as [|fuel IH]; intros p triples Hf; [lia|].
  cbn [parseLoop]. pose proof (parseIteration_progress p) as H.
  destruct (parseIteration p) as [|e|p' ts|]; try discriminate; [|contradiction].
  apply IH. lia.
Qed.

Lemma Parse_total content : Parse content <> OutOfFuel.
Proof. unfold Parse. apply parseLoop_total. unfold len. lia. Qed.


(** ** The loop of [Parse] *)

(** The parser and the triples collected so far at the head of iteration
    [n] (counted from 0) of the loop of [Parse], when the loop started with
    [p] and [triples]; [None] when the loop ended before. *)
Fixpoint loopState (n : nat) (p : TurtleParser) (triples : list Triple)
  : option (TurtleParser * list Triple) :=
  match n with
  | 0 => Some (p, triples)
  | S n' =>
      match parseIteration p with
      | Continue p' newTriples => loopState n' p' (triples ++ newTriples)
      | _ => None
      end
  end.

(** The parser after the call of [skipWhitespaceAndComments] that opens an
    iteration. *)
Definition afterSpaces (p : TurtleParser) : TurtleParser :=
  snd (skipWhitespaceAndComments p).

(** The iteration at [p] takes the branch of [parsePrefix] or of
    [parseBase], and that call fails with [e].  The branch is taken when
    the keyword test of [Parse] fires: what is left of the input begins
    with [@prefix] or [@base], or with the letters PREFIX or BASE in any
    case, whatever follows them (a prefixed name such as [base:alice]
    too). *)
Definition keywordBranchFails (p : TurtleParser) (e : Error) : Prop :=
  atEnd p = false /\ atEnd (afterSpaces p) = false /\
  ((isPrefixDecl (afterSpaces p) = true /\ fst (parsePrefix (afterSpaces p)) = Err e) \/
   (isPrefixDecl (afterSpaces p) = false /\ isBaseDecl (afterSpaces p) = true /\
    fst (parseBase (afterSpaces p)) = Err e)).

(** The iteration at [p] takes the branch of [parseTriples]: neither
    keyword test of [Parse] fires.  (A triple statement that begins with
    the letters PREFIX or BASE, in any case, does not take it.) *)
Definition atTriplesBranch (p : TurtleParser) : Prop :=
  atEnd p = false /\ atEnd (afterSpaces p) = false /\
  isPrefixDecl (afterSpaces p) = false /\ isBaseDecl (afterSpaces p) = false.

Lemma parseIteration_Fatal p e :
  parseIteration p = Fatal e <-> keywordBranchFails p e.
Proof.
  unfold parseIteration, keywordBranchFails, afterSpaces.
  destruct (atEnd p); [split; [discriminate|intros [? _]; discriminate]|].
  destruct (atEnd (snd (skipWhitespaceAndComments p)));
    [split; [discriminate|intros (_ & ? & _); discriminate]|].
  destruct (isPrefixDecl _).
  - destruct (parsePrefix _) as [[a|e'|] p']; simpl.
    + split; [discriminate|]. intros (_ & _ & [[_ H]|[H _]]); discriminate.
    + split.
      * intros H. inversion H. subst. splits; auto.
      * intros (_ & _ & [[_ H]|[H _]]); [now inversion H|discriminate].
    + split; [discriminate|]. intros (_ & _ & [[_ H]|[H _]]); discriminate.
  - destruct (isBaseDecl _).
    + destruct (parseBase _) as [[a|e'|] p']; simpl.
      * split; [discriminate|]. intros (_ & _ & [[H _]|(_ & _ & H)]); discriminate.
      * split.
        -- intros H. inversion H. subst. splits; auto.
        -- intros (_ & _ & [[H _]|(_ & _ & H)]); [discriminate|now inversion H].
      * split; [discriminate|]. intros (_ & _ & [[H _]|(_ & _ & H)]); discriminate.
    + destruct (parseTriples _) as [[a|e'|] p']; simpl;
        (split; [discriminate|]);
        intros (_ & _ & [[H _]|(_ & H & _)]); discriminate.
Qed.

Lemma parseIteration_triples p :
  atTriplesBranch p ->
  (exists p' e, parseTriples (afterSpaces p) = (Err e, p') /\
                parseIteration p = Continue (skipToNextStatement p') []) \/
  (exists p' ts, parseTriples (afterSpaces p) = (Ok ts, p') /\
                 parseIteration p = Continue p' ts).
Proof.
  intros (E0 & E1 & Dp & Db). unfold parseIteration. fold (afterSpaces p).
  rewrite E0, E1, Dp, Db.
  pose proof (okAt_parseTriples (afterSpaces p)) as H. unfold okAt in H.
  destruct (parseTriples (afterSpaces p)) as [[ts|e|] p']; [right|left|contradiction]; eauto.
Qed.

Lemma loopState_step : forall n p0 a0 p acc,
  loopState n p0 a0 = Some (p, acc) ->
  loopState (S n) p0 a0 =
  match parseIteration p with
  | Continue p' newTriples => Some (p', acc ++ newTriples)
  | _ => None
  end.
Proof.
  induction n as [|n IH]; intros p0 a0 p acc H.
  - inversion H. subst. cbn [loopState]. now destruct (parseIteration p).
  - cbn [loopState] in H. change (loopState (S (S n)) p0 a0) with
      (match parseIteration p0 with
       | Continue p' newTriples => loopState (S n) p' (a0 ++ newTriples)
       | _ => None
       end).
    destruct (parseIteration p0) as [|e|p1 ts|]; try discriminate.
    now apply IH.
Qed.

Lemma loopState_len : forall n p0 a0 p acc,
  loopState n p0 a0 = Some (p, acc) -> len p + n <= len p0.
Proof.
  induction n as [|n IH]; intros p0 a0 p acc H; cbn [loopState] in H.
  - inversion H. subst. lia.
  - pose proof (parseIteration_progress p0) as P.
    destruct (parseIteration p0) as [|e|p1 ts|]; try discriminate.
    apply IH in H. lia.
Qed.

Lemma parseLoop_from : forall n p0 a0 p acc fuel,
  loopState n p0 a0 = Some (p, acc) ->
  parseLoop (n + fuel) p0 a0 = parseLoop fuel p acc.
Proof.
  induction n as [|n IH]; intros p0 a0 p acc fuel H; cbn [loopState] in H.
  - inversion H. reflexivity.
  - cbn [Nat.add parseLoop].
    destruct (parseIteration p0) as [|e|p1 ts|]; try discriminate.
    now apply IH.
Qed.

Lemma parseLoop_fuel : forall fuel fuel' p acc,
  len p < fuel -> len p < fuel' -> parseLoop fuel p acc = parseLoop fuel' p acc.
Proof.
  induction fuel as [|fuel IH]; intros [|fuel'] p acc H H'; try lia.
  cbn [parseLoop]. pose proof (parseIteration_progress p) as P.
  destruct (parseIteration p) as [|e|p1 ts|]; try reflexivity.
  apply IH; lia.
Qed.

(** From a state that the loop reaches, [Parse] goes on as the loop does. *)
Lemma Parse_from content n p acc :
  loopState n (startParser content) [] = Some (p, acc) ->
  Parse content = parseLoop (S (len p)) p acc.
Proof.
  intros H. pose proof (loopState_len _ _ _ _ _ H) as L.
  unfold Parse. fold (len (startParser content)).
  replace (S (len (startParser content)))
    with (n + (S (len (startParser content)) - n)) by lia.
  rewrite (parseLoop_from _ _ _ _ _ _ H).
  apply parseLoop_fuel; lia.
Qed.

Lemma parseLoop_Err : forall fuel p acc e,
  parseLoop fuel p acc = Err e ->
  exists n p' acc', loopState n p acc = Some (p', acc') /\ parseIteration p' = Fatal e.
Proof.
  induction fuel as [|fuel IH]; intros p acc e H; [discriminate|].
  cbn [parseLoop] in H. destruct (parseIteration p) as [|e'|p1 ts|] eqn:E; try discriminate.
  - inversion H. subst. exists 0, p, acc. auto.
  - apply IH in H. destruct H as (n & p' & acc' & H & F).
    exists (S n), p', acc'. cbn [loopState]. rewrite E. auto.
Qed.

Lemma parseLoop_Ok_prefix : forall fuel p acc ts,
  parseLoop fuel p acc = Ok ts -> exists rest, ts = acc ++ rest.
Proof.
  induction fuel as [|fuel IH]; intros p acc ts H; [discriminate|].
  cbn [parseLoop] in H. destruct (parseIteration p) as [|e'|p1 new|]; try discriminate.
  - inversion H. exists []. now rewrite app_nil_r.
  - apply IH in H. destruct H as (rest & ->). exists (new ++ rest). now rewrite app_assoc.
Qed.

(** [parseIRI] reports an unterminated IRI exactly when, after white space
    and comments, the input goes on with [<] and has no [>] after it. *)
Lemma strContains_char a c s :
  strContains (String a EmptyString) (String c s)
  = Ascii.eqb a c || strContains (String a EmptyString) s.
Proof.
  cbn [strContains String.prefix].
  destruct (ascii_dec a c) as [->|Hne].
  - rewrite Ascii.eqb_refl. now destruct s.
  - apply Ascii.eqb_neq in Hne. now rewrite Hne.
Qed.

Lemma span_not_gt : forall s,
  snd (span (fun ch => negb (Ascii.eqb ch ">")) s) = EmptyString <->
  strContains ">" s = false.
Proof.
  induction s as [|c s IH]; [simpl; tauto|].
  rewrite strContains_char. cbn [span]. rewrite (Ascii.eqb_sym c).
  destruct (Ascii.eqb ">" c); cbn [negb orb snd].
  - split; discriminate.
  - destruct (span _ s) as [w r]. cbn [snd] in *. exact IH.
Qed.

Lemma parseIRI_unterminated p :
  fst (parseIRI p) = Err ErrUnterminatedIRI <->
  exists s, skipSpaces false (unread p) = String "<" s /\ strContains ">" s = false.
Proof.
  unfold parseIRI, bind, skipWhitespaceAndComments, getParser, peekIs, peek, atEnd,
    advance, takeWhile, fail, ret. cbn [unread setUnread].
  destruct (skipSpaces false (unread p)) as [|c s] eqn:E; cbn [negb].
  { simpl. split; [discriminate|]. intros (s & H & _). discriminate. }
  destruct (Ascii.eqb c "<") eqn:C; cbn [negb].
  - apply Ascii.eqb_eq in C. subst c. cbn [dropS unread setUnread].
    pose proof (span_not_gt s) as G.
    destruct (span (fun ch => negb (Ascii.eqb ch ">")) s) as [w r]. cbn [snd fst unread setUnread] in *.
    destruct r as [|c2 r2]; cbn [fst].
    + split; [|reflexivity]. intros _. exists s. split; [reflexivity|]. now apply G.
    + split; [discriminate|]. intros (s' & H & N). inversion H. subst s'.
      apply G in N. discriminate.
  - cbn [fst]. split; [discriminate|]. intros (s' & H & _). inversion H. subst c.
    rewrite Ascii.eqb_refl in C. discriminate.
Qed.

(** ** Properties of [Parse] and [LoadTurtle] *)



Lemma bind_ok {A B} (m : parser A) (k : A -> parser B) p a p' :
  m p = (Ok a, p') -> bind m k p = k a p'.
Proof. unfold bind. now intros ->. Qed.

Lemma skip_eq p :
  skipWhitespaceAndComments p = (Ok tt, setUnread p (skipSpaces false (unread p))).
Proof. reflexivity. Qed.

Lemma get_eq p : getParser p = (Ok p, p).
Proof. reflexivity. Qed.

Lemma advance_eq n p : advance n p = (Ok tt, setUnread p (dropS n (unread p))).
Proof. reflexivity. Qed.


(** *** Declarations whose IRI is not closed *)


(** No [<] of [s] is closed: there is no [>] behind the first [<]. *)
Fixpoint noClose (s : string) : bool :=
  match s with
  | EmptyString => true
  | String ch s' => if Ascii.eqb ch "<" then negb (strContains ">" s') else noClose s'
  end.

Lemma noClose_no_gt : forall s, strContains ">" s = false -> noClose s = true.
Proof.
  induction s as [|c s IH]; [reflexivity|].
  rewrite strContains_char. intros H. apply orb_false_iff in H. destruct H as [_ H].
  cbn [noClose]. destruct (Ascii.eqb c "<"); [now rewrite H|now apply IH].
Qed.

Lemma noClose_tail c s : noClose (String c s) = true -> noClose s = true.
Proof.
  cbn [noClose]. destruct (Ascii.eqb c "<"); [|auto].
  intros H. apply negb_true_iff in H. now apply noClose_no_gt.
Qed.


Lemma noClose_dropS : forall n s, noClose s = true -> noClose (dropS n s) = true.
Proof.
  induction n as [|n IH]; intros [|c s] H; cbn [dropS]; auto.
  apply IH. now apply noClose_tail in H.
Qed.










Lemma skipToNextStatement_spec p s1 s2 :
  strContains "." s1 = false ->
  unread p = s1 +:+ String "." s2 ->
  unread (skipToNextStatement p) = s2.
Proof.
  intros N E. unfold skipToNextStatement. cbn [unread setUnread]. rewrite E. clear E.
  induction s1 as [|c s1 IH].
  - rewrite append_Empty. cbn. reflexivity.
  - rewrite append_String. cbn [span].
    rewrite strContains_char in N. apply orb_false_iff in N. destruct N as [C N].
    rewrite Ascii.eqb_sym, C. cbn [negb].
    specialize (IH N).
    destruct (span (fun ch => negb (Ascii.eqb ch ".")) (s1 +:+ String "." s2)) as [w r].
    cbn [snd] in *. exact IH.
Qed.

(** [LoadTurtle] always returns; when it fails, the loop of [Parse] had
    taken the branch of [parsePrefix] or [parseBase] and that call failed,
    and the error is that one.  In the branch of [parseTriples] the loop
    always goes on: after an error with no triple and from just behind the
    next full stop ([skipToNextStatement]), otherwise with the triples of
    the statement added.  The triples collected at any moment are, when
    [LoadTurtle] succeeds, part of what [Parse] returns and are in the
    store. *)
Lemma LoadTurtle_fails_only_in_keyword_branch (r : Reasoner) (content : string) :
  LoadTurtle r content <> OutOfFuel /\
  (forall e, LoadTurtle r content = Err e ->
     exists n p acc e0,
       e = ErrParseTurtle e0 /\
       loopState n (startParser content) [] = Some (p, acc) /\
       keywordBranchFails p e0) /\
  (forall n p acc,
     loopState n (startParser content) [] = Some (p, acc) ->
     atTriplesBranch p ->
     (exists p' e,
        parseTriples (afterSpaces p) = (Err e, p') /\
        loopState (S n) (startParser content) [] = Some (skipToNextStatement p', acc)) \/
     (exists p' ts,
        parseTriples (afterSpaces p) = (Ok ts, p') /\
        loopState (S n) (startParser content) [] = Some (p', acc ++ ts))) /\
  (forall p s1 s2,
     strContains "." s1 = false -> unread p = s1 +:+ String "." s2 ->
     unread (skipToNextStatement p) = s2) /\
  (forall n p acc r',
     loopState n (startParser content) [] = Some (p, acc) ->
     LoadTurtle r content = Ok r' ->
     (exists rest, Parse content = Ok (acc ++ rest)) /\
     forall t, In t acc -> Contains (store r') t = true).
Proof.
  splits.
  - unfold LoadTurtle. pose proof (Parse_total content).
    destruct (Parse content); try discriminate. contradiction.
  - intros e H. unfold LoadTurtle in H.
    destruct (Parse content) as [ts|e0|] eqn:P; try discriminate.
    inversion H. subst e. unfold Parse in P. apply parseLoop_Err in P.
    destruct P as (n & p & acc & L & F). exists n, p, acc, e0.
    splits; [reflexivity|exact L|now apply parseIteration_Fatal].
  - intros n p acc L T. rewrite (loopState_step _ _ _ _ _ L).
    destruct (parseIteration_triples p T) as [(p' & e & E & I)|(p' & ts & E & I)].
    + left. exists p', e. rewrite I, app_nil_r. auto.
    + right. exists p', ts. rewrite I. auto.
  - apply skipToNextStatement_spec.
  - intros n p acc r' L H. unfold LoadTurtle in H.
    destruct (Parse content) as [ts|e0|] eqn:P; try discriminate.
    inversion H. subst r'. cbn [store].
    rewrite (Parse_from content n p acc L) in P.
    apply parseLoop_Ok_prefix in P. destruct P as (rest & ->).
    split; [eauto|]. intros t Ht. apply Contains_addAll. apply in_app_iff. now left.
Qed.

(** The inputs of C9: a prefix that is named [base], and the same document
    with the prefix named [ex]. *)
Definition prefixNamedBase : string :=
  "@prefix base: <http://example.org/> . base:alice a base:Person .".

Definition prefixNamedEx : string :=
  "@prefix ex: <http://example.org/> . ex:alice a ex:Person .".

(** C9 (the code departs from the claim).  In [prefixNamedBase] the
    declaration is parsed and declares the prefix [base]; the triple
    statement behind it is well formed, but it begins with the letters of
    the keyword BASE, so [Parse] calls [parseBase] on it, which finds no
    [<], and [LoadTurtle] fails.  With the prefix named [ex] the same
    document is loaded. *)
Lemma LoadTurtle_fails_on_prefixed_name_base :
  loopState 1 (startParser prefixNamedBase) []
  = Some (mkParser (<["base" := "http://example.org/"]> ∅) EmptyString
            " base:alice a base:Person .", []) /\
  isBaseDecl (mkParser (<["base" := "http://example.org/"]> ∅) EmptyString
                "base:alice a base:Person .") = true /\
  Parse prefixNamedBase = Err ErrExpectedLt /\
  LoadTurtle (NewReasoner insertionOrder) prefixNamedBase
  = Err (ErrParseTurtle ErrExpectedLt) /\
  Parse prefixNamedEx
  = Ok [mkTriple "http://example.org/alice" RDFType "http://example.org/Person"].
Proof. splits; vm_compute; reflexivity. Qed.

(** ** More on the triple store *)

(** The store that [NewTripleStore] and a sequence of calls of [Add]
    build. *)
Definition built (l : list Triple) : TripleStore := addAll NewTripleStore l.

Lemma built_ok l : storeOk (built l).
Proof. apply addAll_ok, NewTripleStore_ok. Qed.

Lemma filter_filter {A} (f g : A -> bool) l :
  List.filter g (List.filter f l) = List.filter (fun x => f x && g x) l.
Proof.
  induction l as [|x l IH]; simpl; [reflexivity|].
  destruct (f x); simpl; [|exact IH]. destruct (g x); simpl; now rewrite IH.
Qed.

Lemma FindBySubjectPredicate_spec ts s p :
  storeOk ts ->
  FindBySubjectPredicate ts s p
  = List.filter (fun t => String.eqb (Subject t) s && String.eqb (Predicate t) p)
                (tripleList ts).
Proof.
  intros Hok. unfold FindBySubjectPredicate.
  change (fetch (tripleList ts) (mapIdx (bySubject ts) s)) with (FindBySubject ts s).
  rewrite FindBySubject_spec by assumption. apply filter_filter.
Qed.

Lemma FindByPredicateObject_spec ts p o :
  storeOk ts ->
  FindByPredicateObject ts p o
  = List.filter (fun t => String.eqb (Predicate t) p && String.eqb (Object t) o)
                (tripleList ts).
Proof.
  intros Hok. unfold FindByPredicateObject.
  change (fetch (tripleList ts) (mapIdx (byPredicate ts) p)) with (FindByPredicate ts p).
  rewrite FindByPredicate_spec by assumption. apply filter_filter.
Qed.

(** X1.  On every store built by [Add], each of the five lookups returns
    exactly the stored triples with the given component or components, in
    insertion order: the indices agree with the list. *)
Theorem lookups_are_filters (l : list Triple) (s p o : string) :
  FindBySubject (built l) s
  = List.filter (fun t => String.eqb (Subject t) s) (All (built l)) /\
  FindByPredicate (built l) p
  = List.filter (fun t => String.eqb (Predicate t) p) (All (built l)) /\
  FindByObject (built l) o
  = List.filter (fun t => String.eqb (Object t) o) (All (built l)) /\
  FindBySubjectPredicate (built l) s p
  = List.filter (fun t => String.eqb (Subject t) s && String.eqb (Predicate t) p)
                (All (built l)) /\
  FindByPredicateObject (built l) p o
  = List.filter (fun t => String.eqb (Predicate t) p && String.eqb (Object t) o)
                (All (built l)).
Proof.
  pose proof (built_ok l) as Hok. unfold All. splits.
  - now apply FindBySubject_spec.
  - now apply FindByPredicate_spec.
  - now apply FindByObject_spec.
  - now apply FindBySubjectPredicate_spec.
  - now apply FindByPredicateObject_spec.
Qed.

Lemma addAll_appends l : forall st,
  exists added, tripleList (addAll st l) = tripleList st ++ added /\ sublist added l.
Proof.
  unfold addAll. induction l as [|t l IH]; intros st; simpl.
  - exists []. split; [now rewrite app_nil_r|constructor].
  - destruct (IH (fst (Add st t))) as (added & E & S). rewrite E.
    unfold Add. destruct (mapBool (triples st) (tripleKey t)); simpl.
    + exists added. split; [reflexivity|now constructor].
    + exists (t :: added). split; [now rewrite <- app_assoc|now constructor].
Qed.

(** X2.  [All] lists the inserted triples in the order of insertion, one
    for each key: it is a subsequence of the sequence of inserted triples,
    no two of its triples have the same key, and every inserted triple is
    contained, represented by a listed triple of the same key. *)
Theorem All_is_deduplicated_subsequence (l : list Triple) :
  sublist (All (built l)) l /\
  List.NoDup (map tripleKey (All (built l))) /\
  Size (built l) <= length l /\
  (forall t, In t l ->
     Contains (built l) t = true /\
     exists u, In u (All (built l)) /\ tripleKey u = tripleKey t).
Proof.
  pose proof (built_ok l) as Hok.
  destruct (addAll_appends l NewTripleStore) as (added & E & S).
  simpl in E. unfold All, Size, built. rewrite E. splits.
  - exact S.
  - rewrite <- E. apply (ok_nodup _ Hok).
  - now apply sublist_length.
  - intros t Ht.
    assert (C : Contains (built l) t = true) by now apply Contains_addAll.
    split; [exact C|].
    apply Contains_spec in C; [|assumption].
    apply in_map_iff in C. destruct C as (u & K & Hu).
    exists u. unfold built in Hu. rewrite E in Hu. auto.
Qed.

Lemma Add_new_once_per_key_witness :
  newReports (fun u => String.eqb (tripleKey u) (tripleKey pipeRight))
             NewTripleStore [pipeLeft; pipeRight; pipeRight] = 1.
Proof. apply Add_new_once_per_key. simpl. tauto. Defined.

(** X4.  After [Add ts t] the store contains exactly what it contained
    before and the triples with the key of [t]; in particular it contains
    [t], and a second [Add] of [t] reports nothing new and changes
    nothing. *)
Theorem Add_then_Contains (ts : TripleStore) (t u : Triple) :
  Contains (fst (Add ts t)) u
  = String.eqb (tripleKey t) (tripleKey u) || Contains ts u /\
  Contains (fst (Add ts t)) t = true /\
  Add (fst (Add ts t)) t = (fst (Add ts t), false).
Proof.
  splits.
  - apply Contains_after_Add.
  - apply Contains_Add_same.
  - apply Add_old, Contains_Add_same.
Qed.

(** X5.  [tripleKey] is injective on triples whose subject and predicate
    do not contain the separator: two such triples with the same key are
    the same triple. *)
Theorem tripleKey_injective_without_separator (t u : Triple) :
  noPipe (Subject t) = true -> noPipe (Predicate t) = true ->
  noPipe (Subject u) = true -> noPipe (Predicate u) = true ->
  tripleKey t = tripleKey u -> t = u.
Proof.
  intros Ts Tp Us Up E. unfold tripleKey in E.
  apply append_pipe_inj in E; [|assumption|assumption]. destruct E as [Es E].
  apply append_pipe_inj in E; [|assumption|assumption]. destruct E as [Ep Eo].
  destruct t, u. simpl in *. congruence.
Qed.

Lemma tripleKey_injective_without_separator_witness :
  mkTriple "s" "p" "a|b" = mkTriple "s" "p" "a|b".
Proof.
  apply tripleKey_injective_without_separator; reflexivity.
Defined.

(** ** More on the rules *)

(** X6.  On every store built by [Add], the triples that the default rules
    propose are exactly the one-step consequences of the stored triples
    under the rule catalogue that the store does not contain yet. *)
Theorem default_rules_propose_the_new_consequences (mo : MapOrder) (l : list Triple)
  (t : Triple) :
  (exists r, In r (DefaultRules mo) /\ In t (Apply r (built l))) <->
  consequence (facts (built l)) t /\ Contains (built l) t = false.
Proof.
  pose proof (built_ok l) as Hok. split.
  - intros (r & Hr & Ht). eapply rules_sound; eauto.
  - intros [Hc Hn]. now apply rules_complete.
Qed.

Lemma propose_guard st t a prop c :
  In t (propose st (negb (String.eqb a c)) (mkTriple a prop c)) -> Subject t <> Object t.
Proof.
  intros H. apply In_propose in H. destruct H as (-> & _ & G). simpl.
  now apply negb_true_iff, String.eqb_neq in G.
Qed.

Lemma transitiveLoop_irreflexive st prop t :
  In t (transitiveLoop st prop) -> Subject t <> Object t.
Proof.
  unfold transitiveLoop. intros H.
  apply in_flat_map in H. destruct H as (t1 & _ & H).
  apply in_flat_map in H. destruct H as (t2 & _ & H).
  eapply propose_guard; eauto.
Qed.

(** X7.  On any store, none of the four transitivity rules and neither the
    transitive-property rule proposes a triple whose subject is its
    object. *)
Theorem transitive_rules_propose_no_reflexive_triple (mo : MapOrder)
  (st : TripleStore) (r : Rule) (t : Triple) :
  In r [ SubClassTransitivity; SubPropertyTransitivity; EquivalentClassTransitivity;
         SameAsTransitivity; TransitivePropertyInference mo ] ->
  In t (Apply r st) ->
  Subject t <> Object t.
Proof.
  intros Hr Ht. simpl in Hr.
  destruct Hr as [<-|[<-|[<-|[<-|[<-|[]]]]]];
    cbv beta iota delta
      [Apply SubClassTransitivity SubPropertyTransitivity EquivalentClassTransitivity
       SameAsTransitivity TransitivePropertyInference
       SubClassTransitivity_Apply SubPropertyTransitivity_Apply
       EquivalentClassTransitivity_Apply SameAsTransitivity_Apply
       TransitivePropertyInference_Apply] in Ht;
    try (eapply transitiveLoop_irreflexive; eassumption).
  apply in_flat_map in Ht. destruct Ht as (prop & _ & Ht).
  eapply transitiveLoop_irreflexive; eauto.
Qed.

Lemma transitive_rules_propose_no_reflexive_triple_witness :
  Subject (mkTriple "Car" RDFSSubClassOf "Transport")
  <> Object (mkTriple "Car" RDFSSubClassOf "Transport").
Proof.
  apply (transitive_rules_propose_no_reflexive_triple insertionOrder (built carFacts)
           SubClassTransitivity).
  - simpl. tauto.
  - vm_compute. tauto.
Defined.

(** ** More on the fixed-point loop *)

Lemma carFacts_pipeFree : forall t, In t carFacts -> pipeFree t.
Proof.
  intros t H. simpl in H.
  destruct H as [<-|[<-|[<-|[]]]]; repeat split; reflexivity.
Qed.

Lemma RunForwardReasoning_least_model_pipe_free_witness :
  exists r' n,
    (forall fuel, roundBound (store (loaded insertionOrder carFacts)) <= fuel ->
       RunForwardReasoning fuel (loaded insertionOrder carFacts) = Some (r', n)) /\
    forall t, facts (store r') t <-> leastModel carFacts t.
Proof.
  apply (RunForwardReasoning_least_model_pipe_free insertionOrder carFacts).
  exact carFacts_pipeFree.
Defined.

Lemma Add_appends st t :
  exists added,
    tripleList (fst (Add st t)) = tripleList st ++ added /\
    length added = (if snd (Add st t) then 1 else 0).
Proof.
  unfold Add. destruct (mapBool (triples st) (tripleKey t)); simpl.
  - exists []. now rewrite app_nil_r.
  - exists [t]. auto.
Qed.

Lemma addInferred_appends inferred : forall st n st' n',
  addInferred st inferred n = (st', n') ->
  exists added, tripleList st' = tripleList st ++ added /\ n' = n + length added.
Proof.
  induction inferred as [|t l IH]; intros st n st' n' H; simpl in H.
  - inversion H. subst. exists []. rewrite app_nil_r. simpl. split; [reflexivity|lia].
  - destruct (Add_appends st t) as (a1 & E1 & L1).
    destruct (Add st t) as [st1 b]. cbn [fst snd] in *.
    apply IH in H. destruct H as (a2 & E2 & L2).
    exists (a1 ++ a2). rewrite E2, E1, <- app_assoc, length_app.
    split; [reflexivity|]. destruct b; lia.
Qed.

Lemma applyRules_appends rs : forall st n st' n',
  applyRules rs st n = (st', n') ->
  exists added, tripleList st' = tripleList st ++ added /\ n' = n + length added.
Proof.
  induction rs as [|r rs IH]; intros st n st' n' H; simpl in H.
  - inversion H. subst. exists []. rewrite app_nil_r. simpl. split; [reflexivity|lia].
  - destruct (addInferred st (Apply r st) n) as [st1 n1] eqn:E.
    apply addInferred_appends in E. destruct E as (a1 & E1 & L1).
    apply IH in H. destruct H as (a2 & E2 & L2).
    exists (a1 ++ a2). rewrite E2, E1, <- app_assoc, length_app.
    split; [reflexivity|lia].
Qed.

Lemma reasoningLoop_appends rs : forall fuel st total st' n,
  reasoningLoop fuel rs st total = Some (st', n) ->
  exists added, tripleList st' = tripleList st ++ added /\ n = total + length added.
Proof.
  induction fuel as [|fuel IH]; intros st total st' n H; [discriminate|].
  rewrite reasoningLoop_S in H.
  destruct (applyRules rs st 0) as [st1 new] eqn:E.
  apply applyRules_appends in E. destruct E as (a1 & E1 & L1).
  destruct (Nat.eqb new 0) eqn:Z.
  - apply Nat.eqb_eq in Z. inversion H. subst.
    destruct a1; [|simpl in Z; discriminate].
    exists []. rewrite E1. simpl. split; [reflexivity|lia].
  - apply IH in H. destruct H as (a2 & E2 & L2).
    exists (a1 ++ a2). rewrite E2, E1, <- app_assoc, length_app.
    split; [reflexivity|lia].
Qed.

(** X9.  Whatever the rules, [RunForwardReasoning] only appends: the
    triples stored before stay where they are in the list, and the number
    it returns is the number of triples appended. *)
Theorem RunForwardReasoning_appends (fuel : nat) (r r' : Reasoner) (n : nat) :
  RunForwardReasoning fuel r = Some (r', n) ->
  rules r' = rules r /\
  exists added, All (store r') = All (store r) ++ added /\ length added = n.
Proof.
  unfold RunForwardReasoning.
  destruct (reasoningLoop fuel (rules r) (store r) 0) as [[st' k]|] eqn:R; [|discriminate].
  intros E. inversion E. subst. cbn [store rules]. split; [reflexivity|].
  apply reasoningLoop_appends in R. destruct R as (added & E1 & L).
  exists added. unfold All. split; [exact E1|lia].
Qed.

(** A rule outside the catalogue, to run the loop on short keys. *)
Definition constantRule : Rule :=
  {| Name := "constant"; Apply := fun _ => [mkTriple "a" "b" "c"; mkTriple "a" "b" "c"] |}.

Lemma RunForwardReasoning_appends_witness :
  exists added,
    All (built [mkTriple "x" "y" "z"; mkTriple "a" "b" "c"])
    = All (built [mkTriple "x" "y" "z"]) ++ added /\ length added = 1.
Proof.
  apply (RunForwardReasoning_appends 2
           {| store := built [mkTriple "x" "y" "z"]; rules := [constantRule] |}
           {| store := built [mkTriple "x" "y" "z"; mkTriple "a" "b" "c"];
              rules := [constantRule] |} 1).
  vm_compute. reflexivity.
Defined.

(** After saturation of facts without the separator, the store is closed
    under the rule catalogue. *)
Lemma saturated_closed mo l fuel r' n :
  (forall t, In t l -> pipeFree t) ->
  RunForwardReasoning fuel (loaded mo l) = Some (r', n) ->
  within pipeFree (store r') /\ closedUnder (facts (store r')).
Proof.
  intros Hl. unfold RunForwardReasoning.
  change (rules (loaded mo l)) with (DefaultRules mo).
  destruct (reasoningLoop fuel (DefaultRules mo) (store (loaded mo l)) 0)
    as [[st' k]|] eqn:R; [|discriminate].
  intros E. inversion E. subst. cbn [store].
  pose proof (loaded_ok mo l) as Hok.
  assert (Wp : within pipeFree st').
  { eapply (reasoningLoop_within mo pipeFree); [|split; [exact Hok|]|exact R].
    - apply (allTerms_closed (fun s => noPipe s = true)). reflexivity.
    - intros u Hu. apply Hl. apply addAll_facts in Hu. destruct Hu as [[]|Hu]. exact Hu. }
  split; [exact Wp|].
  intros u Hu. apply Contains_pipeFree; [exact Wp| |].
  - apply (allTerms_closed (fun s => noPipe s = true)); [reflexivity|].
    eapply consequence_mono; [|exact Hu]. apply Wp.
  - eapply (fixed_closed mo); [apply Wp| |exact Hu].
    eapply reasoningLoop_fixed; eauto.
Qed.

(** X10.  After saturation of facts without the separator, a property
    declared symmetric is symmetric in the store: [(x p y)] is stored
    exactly when [(y p x)] is. *)
Theorem saturation_closes_symmetric_properties (mo : MapOrder) (l : list Triple)
  (fuel : nat) (r' : Reasoner) (n : nat) (p x y : string) :
  (forall t, In t l -> pipeFree t) ->
  RunForwardReasoning fuel (loaded mo l) = Some (r', n) ->
  facts (store r') (mkTriple p RDFType OWLSymmetricProperty) ->
  (facts (store r') (mkTriple x p y) <-> facts (store r') (mkTriple y p x)).
Proof.
  intros Hl R Hs. destruct (saturated_closed mo l fuel r' n Hl R) as [_ C].
  split; intros H; apply C; eapply c_symmetricProp; eauto.
Qed.

Definition marriedFacts : list Triple :=
  [ mkTriple "marriedTo" RDFType OWLSymmetricProperty;
    mkTriple "alice" "marriedTo" "bob" ].

Lemma saturation_closes_symmetric_properties_witness :
  exists r' n,
    RunForwardReasoning (roundBound (store (loaded insertionOrder marriedFacts)))
      (loaded insertionOrder marriedFacts) = Some (r', n) /\
    (facts (store r') (mkTriple "alice" "marriedTo" "bob")
     <-> facts (store r') (mkTriple "bob" "marriedTo" "alice")).
Proof.
  destruct (reasoningLoop_enough_fuel insertionOrder (store (loaded insertionOrder marriedFacts))
              (roundBound (store (loaded insertionOrder marriedFacts))) 0
              (loaded_ok insertionOrder marriedFacts) (le_n _))
    as (st' & n & R & _).
  assert (E : RunForwardReasoning (roundBound (store (loaded insertionOrder marriedFacts)))
                (loaded insertionOrder marriedFacts)
              = Some ({| store := st'; rules := DefaultRules insertionOrder |}, n)).
  { unfold RunForwardReasoning. change (rules (loaded insertionOrder marriedFacts))
      with (DefaultRules insertionOrder). now rewrite R. }
  exists {| store := st'; rules := DefaultRules insertionOrder |}, n.
  split; [exact E|].
  apply (saturation_closes_symmetric_properties insertionOrder marriedFacts
           (roundBound (store (loaded insertionOrder marriedFacts)))
           {| store := st'; rules := DefaultRules insertionOrder |} n
           "marriedTo" "alice" "bob").
  - intros t H. simpl in H. destruct H as [<-|[<-|[]]]; repeat split; reflexivity.
  - exact E.
  - cbn [store]. eapply reasoningLoop_grows; [exact R|]. vm_compute. tauto.
Defined.


(** ** Queries and rendering ([Query], [GetInferredTypes], [GetAllTriples]) *)

(** [t] matches the pattern, in which the empty string stands for any
    term. *)
Definition matchesPattern (subject predicate object : string) (t : Triple) : bool :=
  (String.eqb subject EmptyString || String.eqb (Subject t) subject)
  && (String.eqb predicate EmptyString || String.eqb (Predicate t) predicate)
  && (String.eqb object EmptyString || String.eqb (Object t) object).

(** Decides an equation between boolean combinations of string tests. *)
Ltac bool_cases :=
  repeat match goal with
         | |- context [String.eqb ?a ?b] => destruct (String.eqb a b)
         end;
  reflexivity.

Lemma filter_true {A} (f : A -> bool) l :
  (forall x, f x = true) -> List.filter f l = l.
Proof.
  intros H. induction l as [|x l IH]; simpl; [reflexivity|]. now rewrite H, IH.
Qed.

(** X11.  On a reasoner whose store was built by [Add], [Query] returns
    exactly the stored triples that match the pattern, in insertion order,
    whichever index it goes through. *)
Theorem Query_returns_the_matching_triples (mo : MapOrder) (l : list Triple)
  (s p o : string) :
  Query (loaded mo l) s p o
  = List.filter (matchesPattern s p o) (All (store (loaded mo l))).
Proof.
  change (store (loaded mo l)) with (built l).
  pose proof (built_ok l) as Hok.
  pose proof (FindBySubject_spec (built l) s Hok) as Fs.
  pose proof (FindByPredicate_spec (built l) p Hok) as Fp.
  pose proof (FindByObject_spec (built l) o Hok) as Fo.
  pose proof (FindBySubjectPredicate_spec (built l) s p Hok) as Fsp.
  unfold All.
  unfold Query. change (store (loaded mo l)) with (built l).
  unfold matchesPattern.
  destruct (String.eqb s EmptyString) eqn:Es;
    destruct (String.eqb p EmptyString) eqn:Ep; cbn [negb andb orb].
  - destruct (String.eqb o EmptyString) eqn:Eo; cbn [negb].
    + symmetry. now apply filter_true.
    + rewrite Fo. apply filter_ext. intros t. reflexivity.
  - rewrite Fp, filter_filter. apply filter_ext. intros t. bool_cases.
  - rewrite Fs, filter_filter. apply filter_ext. intros t. bool_cases.
  - rewrite Fsp, filter_filter. apply filter_ext. intros t. bool_cases.
Qed.

(** *** Sorting *)

Definition leS (a b : string) : Prop := String.leb a b = true.

Lemma insertSorted_perm s l : Permutation (insertSorted s l) (s :: l).
Proof.
  induction l as [|x l IH]; simpl; [reflexivity|].
  destruct (String.leb s x); [reflexivity|].
  rewrite IH. apply perm_swap.
Qed.

Lemma sortStrings_perm l : Permutation (sortStrings l) l.
Proof.
  unfold sortStrings. induction l as [|x l IH]; simpl; [reflexivity|].
  rewrite insertSorted_perm. now constructor.
Qed.

Lemma leb_false_flip a b : String.leb a b = false -> String.leb b a = true.
Proof. intros H. destruct (String.leb_total a b) as [E|E]; congruence. Qed.

Lemma insertSorted_sorted s l : Sorted leS l -> Sorted leS (insertSorted s l).
Proof.
  induction 1 as [|x l Hs IH Hd]; simpl.
  - repeat constructor.
  - destruct (String.leb s x) eqn:E.
    + constructor; [now constructor|]. now constructor.
    + constructor; [exact IH|].
      destruct l as [|y l]; simpl.
      * constructor. now apply leb_false_flip.
      * destruct (String.leb s y); constructor.
        -- now apply leb_false_flip.
        -- now inversion Hd.
Qed.

Lemma sortStrings_sorted l : Sorted leS (sortStrings l).
Proof.
  unfold sortStrings. induction l as [|x l IH]; simpl; [constructor|].
  now apply insertSorted_sorted.
Qed.

(** The order of strings is transitive. *)
Lemma Ascii_compare_N a b : Ascii.compare a b = N.compare (N_of_ascii a) (N_of_ascii b).
Proof. reflexivity. Qed.

Lemma String_compare_trans_le : forall a b c,
  String.compare a b <> Gt -> String.compare b c <> Gt -> String.compare a c <> Gt.
Proof.
  induction a as [|x a IH]; intros [|y b] [|z c] H1 H2; simpl in *; try congruence.
  rewrite Ascii_compare_N in *.
  destruct (N.compare_spec (N_of_ascii x) (N_of_ascii y)) as [E1|E1|E1];
    destruct (N.compare_spec (N_of_ascii y) (N_of_ascii z)) as [E2|E2|E2];
    try congruence;
    destruct (N.compare_spec (N_of_ascii x) (N_of_ascii z)) as [E3|E3|E3];
    try congruence; try lia.
  eapply IH; eauto.
Qed.

Lemma leb_compare a b : String.leb a b = true <-> String.compare a b <> Gt.
Proof. unfold String.leb. destruct (String.compare a b); split; congruence. Qed.

Lemma leS_trans : Relations_1.Transitive leS.
Proof.
  intros a b c. unfold leS. rewrite !leb_compare. apply String_compare_trans_le.
Qed.

(** Two sorted lists with the same elements, counted, are the same list. *)
Lemma sorted_perm_eq : forall l l',
  StronglySorted leS l -> StronglySorted leS l' -> Permutation l l' -> l = l'.
Proof.
  induction l as [|x l IH]; intros l' S S' P.
  - apply Permutation_nil in P. now subst.
  - destruct l' as [|y l']; [apply Permutation_sym, Permutation_nil in P; discriminate|].
    inversion S as [|? ? Sl Fl]. inversion S' as [|? ? Sl' Fl']. subst.
    assert (x = y).
    { assert (Hx : In x (y :: l')) by (eapply Permutation_in; [exact P|now left]).
      assert (Hy : In y (x :: l))
        by (eapply Permutation_in; [exact (Permutation_sym P)|now left]).
      destruct Hx as [->|Hx]; [reflexivity|]. destruct Hy as [->|Hy]; [reflexivity|].
      rewrite List.Forall_forall in Fl, Fl'.
      apply String.leb_antisym; [now apply Fl|now apply Fl']. }
    subst y. f_equal. apply IH; try assumption.
    eapply Permutation_cons_inv; eauto.
Qed.

Lemma sortStrings_canonical l l' :
  Permutation l l' -> sortStrings l = sortStrings l'.
Proof.
  intros P. apply sorted_perm_eq.
  - apply Sorted_StronglySorted; [exact leS_trans|apply sortStrings_sorted].
  - apply Sorted_StronglySorted; [exact leS_trans|apply sortStrings_sorted].
  - rewrite !sortStrings_perm. exact P.
Qed.

(** X12.  [GetAllTriples] renders every stored triple once and returns the
    lines in ascending byte order; the result depends only on which triples
    are stored, not on the order of their insertion. *)
Theorem GetAllTriples_sorted_and_canonical (r r' : Reasoner) :
  Permutation (GetAllTriples r) (map Triple_String (All (store r))) /\
  Sorted leS (GetAllTriples r) /\
  (Permutation (All (store r)) (All (store r')) -> GetAllTriples r = GetAllTriples r').
Proof.
  unfold GetAllTriples. splits.
  - apply sortStrings_perm.
  - apply sortStrings_sorted.
  - intros P. apply sortStrings_canonical. now apply Permutation_map.
Qed.

(** X13.  On a reasoner whose store was built by [Add], [GetInferredTypes]
    returns, in ascending byte order, the objects of the stored triples
    with the given subject and the predicate [rdf:type]. *)
Theorem GetInferredTypes_sorted_types (mo : MapOrder) (l : list Triple) (subject : string) :
  Permutation (GetInferredTypes (loaded mo l) subject)
    (map Object
       (List.filter (fun t => String.eqb (Subject t) subject
                              && String.eqb (Predicate t) RDFType)
                    (All (store (loaded mo l))))) /\
  Sorted leS (GetInferredTypes (loaded mo l) subject) /\
  (forall o, In o (GetInferredTypes (loaded mo l) subject) <->
             facts (store (loaded mo l)) (mkTriple subject RDFType o)).
Proof.
  change (store (loaded mo l)) with (built l).
  pose proof (FindBySubjectPredicate_spec (built l) subject RDFType (built_ok l)) as Fsp.
  unfold All.
  unfold GetInferredTypes. change (store (loaded mo l)) with (built l). rewrite Fsp.
  splits.
  - apply sortStrings_perm.
  - apply sortStrings_sorted.
  - intros o. split.
    + intros H. apply (Permutation_in _ (sortStrings_perm _)) in H.
      apply in_map_iff in H. destruct H as (t & <- & H).
      apply List.filter_In in H. destruct H as [H E].
      apply andb_true_iff in E. destruct E as [E1 E2].
      apply String.eqb_eq in E1, E2. unfold facts.
      rewrite (Triple_eta t) in H. now rewrite E1, E2 in H.
    + intros H. apply (Permutation_in _ (Permutation_sym (sortStrings_perm _))).
      apply in_map_iff. exists (mkTriple subject RDFType o). split; [reflexivity|].
      apply List.filter_In. split; [exact H|]. simpl. now rewrite !String.eqb_refl.
Qed.







(** ** The entry points ([ForwardReason], [ForwardReasonWithDetails]) *)

(** What [Parse] returns for a content that the entry points load; they
    skip an empty content. *)
Definition parsed (content : string) : result (list Triple) :=
  if String.eqb content EmptyString then Ok [] else Parse content.

Lemma loadIfNonEmpty_spec wrap mo l content :
  loadIfNonEmpty wrap (loaded mo l) content =
  match parsed content with
  | Ok ts => Ok (loaded mo (l ++ ts))
  | Err e => Err (wrap (ErrParseTurtle e))
  | OutOfFuel => OutOfFuel
  end.
Proof.
  unfold loadIfNonEmpty, parsed, LoadTurtle.
  destruct (String.eqb content EmptyString).
  - now rewrite app_nil_r.
  - destruct (Parse content) as [ts| |]; try reflexivity.
    unfold loaded, addAll. cbn [store rules]. now rewrite fold_left_app.
Qed.

Lemma parsed_total content : parsed content <> OutOfFuel.
Proof.
  unfold parsed. destruct (String.eqb content EmptyString); [discriminate|].
  apply Parse_total.
Qed.

(** The entry points in terms of the two parses and the loop. *)
Lemma ForwardReasonWithDetails_unfold mo abox tbox :
  ForwardReasonWithDetails mo abox tbox =
  match parsed tbox with
  | Ok ts1 =>
      match parsed abox with
      | Ok ts2 =>
          match RunForwardReasoning (roundBound (store (loaded mo (ts1 ++ ts2))))
                  (loaded mo (ts1 ++ ts2)) with
          | Some (r', n) =>
              Ok {| OriginalTriples := GetAllTriples (loaded mo (ts1 ++ ts2));
                    InferredTriples :=
                      List.filter
                        (fun t => negb (mapBool
                           (fold_left (fun m t => <[t := true]> m)
                              (GetAllTriples (loaded mo (ts1 ++ ts2))) ∅) t))
                        (GetAllTriples r');
                    AllTriples := GetAllTriples r';
                    OriginalCount := Size (store (loaded mo (ts1 ++ ts2)));
                    InferredCount := n;
                    TotalCount := length (GetAllTriples r') |}
          | None => OutOfFuel
          end
      | Err e => Err (ErrLoadABox (ErrParseTurtle e))
      | OutOfFuel => OutOfFuel
      end
  | Err e => Err (ErrLoadTBox (ErrParseTurtle e))
  | OutOfFuel => OutOfFuel
  end.
Proof.
  unfold ForwardReasonWithDetails.
  change (NewReasoner mo) with (loaded mo []).
  rewrite loadIfNonEmpty_spec. destruct (parsed tbox) as [ts1| |]; try reflexivity.
  rewrite loadIfNonEmpty_spec. cbn [app].
  destruct (parsed abox) as [ts2| |]; try reflexivity.
Qed.


Lemma saturation_returns mo l :
  exists r' n,
    RunForwardReasoning (roundBound (store (loaded mo l))) (loaded mo l) = Some (r', n).
Proof.
  destruct (reasoningLoop_enough_fuel mo (store (loaded mo l))
              (roundBound (store (loaded mo l))) 0 (loaded_ok mo l) (le_n _))
    as (st' & n & R & _).
  exists {| store := st'; rules := DefaultRules mo |}, n.
  unfold RunForwardReasoning. change (rules (loaded mo l)) with (DefaultRules mo).
  now rewrite R.
Qed.

(** X15.  [ForwardReasonWithDetails] always returns.  It fails exactly
    when the parse of the TBox fails, with that error wrapped as a TBox
    error, or the TBox is parsed and the parse of the ABox fails, with that
    error wrapped as an ABox error; the TBox is loaded first. *)
Theorem ForwardReasonWithDetails_returns (mo : MapOrder) (abox tbox : string) :
  ForwardReasonWithDetails mo abox tbox <> OutOfFuel /\
  (forall e, ForwardReasonWithDetails mo abox tbox = Err e <->
     (exists e0, parsed tbox = Err e0 /\ e = ErrLoadTBox (ErrParseTurtle e0)) \/
     (exists ts e0, parsed tbox = Ok ts /\ parsed abox = Err e0 /\
                    e = ErrLoadABox (ErrParseTurtle e0))) /\
  ((exists res, ForwardReasonWithDetails mo abox tbox = Ok res) <->
   (exists ts1 ts2, parsed tbox = Ok ts1 /\ parsed abox = Ok ts2)).
Proof.
  rewrite ForwardReasonWithDetails_unfold.
  pose proof (parsed_total tbox) as T1. pose proof (parsed_total abox) as T2.
  destruct (parsed tbox) as [ts1|e1|]; [|clear T1 T2|contradiction].
  - destruct (parsed abox) as [ts2|e2|]; [|clear T1 T2|contradiction].
    + destruct (saturation_returns mo (ts1 ++ ts2)) as (r' & n & R). rewrite R.
      splits.
      * discriminate.
      * intros e. split; [discriminate|].
        intros [(e0 & H & _)|(ts & e0 & _ & H & _)]; discriminate.
      * split; eauto.
    + splits.
      * discriminate.
      * intros e. split.
        -- intros H. inversion H. right. eauto.
        -- intros [(e0 & H & _)|(ts & e0 & _ & H & ->)]; [discriminate|].
           now inversion H.
      * split; [intros (res & H); discriminate|].
        intros (a & b & _ & H). discriminate.
  - splits.
    + discriminate.
    + intros e. split.
      * intros H. inversion H. left. eauto.
      * intros [(e0 & H & ->)|(ts & e0 & H & _)]; [now inversion H|discriminate].
    + split; [intros (res & H); discriminate|].
      intros (a & b & H & _). discriminate.
Qed.

Lemma originalSet_spec (l : list string) : forall (m : gmap string bool) s,
  mapBool (fold_left (fun m t => <[t := true]> m) l m) s = true <->
  In s l \/ mapBool m s = true.
Proof.
  induction l as [|x l IH]; intros m s; simpl; [tauto|].
  rewrite IH, mapBool_insert, orb_true_iff, String.eqb_eq. tauto.
Qed.

Lemma In_sortStrings s l : In s (sortStrings l) <-> In s l.
Proof.
  split; apply Permutation_in; [|apply Permutation_sym]; apply sortStrings_perm.
Qed.

(** X16.  In a result of [ForwardReasonWithDetails], the inferred lines are
    exactly the lines of the closure that are not original lines, every
    original line is a line of the closure, and the first and last counts
    are the lengths of the original and of the complete listing. *)
Theorem ForwardReasonWithDetails_partition (mo : MapOrder) (abox tbox : string)
  (res : ReasoningResult) :
  ForwardReasonWithDetails mo abox tbox = Ok res ->
  (forall s, In s (InferredTriples res) <->
             In s (AllTriples res) /\ ~ In s (OriginalTriples res)) /\
  (forall s, In s (OriginalTriples res) -> In s (AllTriples res)) /\
  OriginalCount res = length (OriginalTriples res) /\
  TotalCount res = length (AllTriples res).
Proof.
  rewrite ForwardReasonWithDetails_unfold.
  destruct (parsed tbox) as [ts1| |]; try discriminate.
  destruct (parsed abox) as [ts2| |]; try discriminate.
  destruct (RunForwardReasoning _ _) as [[r' n]|] eqn:R; try discriminate.
  intros E. inversion E. subst res. clear E. cbn. splits.
  - intros s. rewrite List.filter_In, negb_true_iff.
    split.
    + intros [H N]. split; [exact H|]. intros Hin.
      assert (T : mapBool (fold_left (fun m t => <[t := true]> m)
                     (GetAllTriples (loaded mo (ts1 ++ ts2))) ∅) s = true)
        by (apply originalSet_spec; now left).
      congruence.
    + intros [H N]. split; [exact H|].
      destruct (mapBool _ s) eqn:T; [|reflexivity].
      apply originalSet_spec in T. destruct T as [T|T]; [contradiction|].
      unfold mapBool in T. rewrite lookup_empty in T. discriminate.
  - intros s H. unfold GetAllTriples in *. rewrite In_sortStrings in H.
    rewrite In_sortStrings. apply in_map_iff in H. destruct H as (t & <- & H).
    apply in_map. unfold All in *.
    revert R. unfold RunForwardReasoning.
    destruct (reasoningLoop _ _ _ 0) as [[st' k]|] eqn:Q; [|discriminate].
    intros E. inversion E. subst. cbn [store].
    eapply (reasoningLoop_grows _ _ _ _ _ _ t Q). exact H.
  - now rewrite length_GetAllTriples.
  - reflexivity.
Qed.

Lemma ForwardReasonWithDetails_partition_witness :
  exists res,
    ForwardReasonWithDetails insertionOrder carABox carTBox = Ok res /\
    (forall s, In s (OriginalTriples res) -> In s (AllTriples res)).
Proof.
  destruct (ForwardReasonWithDetails insertionOrder carABox carTBox) as [res| |] eqn:E;
    [|vm_compute in E; discriminate|vm_compute in E; discriminate].
  exists res. split; [reflexivity|].
  apply (ForwardReasonWithDetails_partition insertionOrder carABox carTBox res E).
Defined.




(** ** More on the Turtle parser *)

Lemma span_until c : forall body rest,
  strContains (String c EmptyString) body = false ->
  span (fun ch => negb (Ascii.eqb ch c)) (body +:+ String c rest)
  = (body, String c rest).
Proof.
  induction body as [|x body IH]; intros rest H.
  - rewrite append_Empty. cbn [span]. now rewrite Ascii.eqb_refl.
  - rewrite strContains_char in H. apply orb_false_iff in H. destruct H as [C H].
    rewrite append_String. cbn [span]. rewrite Ascii.eqb_sym, C. cbn [negb].
    now rewrite (IH rest H).
Qed.

Lemma parseIRI_ok p body rest :
  skipSpaces false (unread p) = String "<" (body +:+ String ">" rest) ->
  strContains ">" body = false ->
  parseIRI p = (Ok body, setUnread p rest).
Proof.
  intros E N.
  unfold parseIRI, bind, skipWhitespaceAndComments, getParser, peekIs, peek, atEnd,
    advance, takeWhile, fail, ret. cbn [unread setUnread]. rewrite E.
  cbn [Ascii.eqb Bool.eqb negb dropS unread setUnread].
  rewrite (span_until ">" body rest N). reflexivity.
Qed.

Lemma parseIRI_expected_lt p :
  fst (parseIRI p) = Err ErrExpectedLt <->
  (forall s, skipSpaces false (unread p) <> String "<" s).
Proof.
  unfold parseIRI, bind, skipWhitespaceAndComments, getParser, peekIs, peek, atEnd,
    advance, takeWhile, fail, ret. cbn [unread setUnread].
  destruct (skipSpaces false (unread p)) as [|c s] eqn:E; cbn [negb].
  { simpl. split; [discriminate|reflexivity]. }
  destruct (Ascii.eqb c "<") eqn:C; cbn [negb].
  - apply Ascii.eqb_eq in C. subst c. cbn [dropS unread setUnread].
    destruct (span (fun ch => negb (Ascii.eqb ch ">")) s) as [w r].
    cbn [snd fst unread setUnread].
    destruct r; cbn [fst]; (split; [discriminate|]); intros H; now destruct (H s).
  - cbn [fst]. split; [|reflexivity]. intros _ s' H. inversion H. subst c.
    rewrite Ascii.eqb_refl in C. discriminate.
Qed.

(** X18.  [parseIRI] skips white space and comments and then: returns the
    text between [<] and the next [>] and stops behind that [>]; or reports
    an unterminated IRI, exactly when there is no [>] after the [<]; or
    reports that [<] was expected, exactly when the input does not go on
    with [<]. *)
Theorem parseIRI_spec (p : TurtleParser) :
  (forall body rest,
     skipSpaces false (unread p) = String "<" (body +:+ String ">" rest) ->
     strContains ">" body = false ->
     parseIRI p = (Ok body, setUnread p rest)) /\
  (fst (parseIRI p) = Err ErrUnterminatedIRI <->
   exists s, skipSpaces false (unread p) = String "<" s /\ strContains ">" s = false) /\
  (fst (parseIRI p) = Err ErrExpectedLt <->
   forall s, skipSpaces false (unread p) <> String "<" s).
Proof.
  splits.
  - apply parseIRI_ok.
  - apply parseIRI_unterminated.
  - apply parseIRI_expected_lt.
Qed.

(** X19.  An input that holds only white space and comments (after the
    byte-order mark is dropped and the line ends are normalised) parses to
    no triple, and loading it leaves the store as it is. *)
Theorem Parse_of_blank_input (r : Reasoner) (content : string) :
  skipSpaces false (unread (startParser content)) = EmptyString ->
  Parse content = Ok [] /\
  LoadTurtle r content = Ok {| store := store r; rules := rules r |}.
Proof.
  intros H.
  assert (P : Parse content = Ok []).
  { unfold Parse. cbn [parseLoop]. unfold parseIteration.
    destruct (atEnd (startParser content)); [reflexivity|].
    unfold skipWhitespaceAndComments. cbn [snd]. unfold atEnd at 1.
    cbn [unread setUnread]. now rewrite H. }
  split; [exact P|]. unfold LoadTurtle. rewrite P. reflexivity.
Qed.

Lemma Parse_of_blank_input_witness :
  Parse (" # only a comment" +:+ String newline "  ") = Ok [].
Proof.
  apply (Parse_of_blank_input (NewReasoner insertionOrder)
           (" # only a comment" +:+ String newline "  ")).
  reflexivity.
Defined.


(** *** Parsing back what [Triple.String] renders *)

Lemma append_assoc_S : forall a b c : string, (a +:+ b) +:+ c = a +:+ (b +:+ c).
Proof.
  induction a as [|x a IH]; intros b c; [reflexivity|].
  rewrite !append_String. now rewrite IH.
Qed.

Lemma strContains_char_app c : forall a b,
  strContains (String c EmptyString) (a +:+ b)
  = strContains (String c EmptyString) a || strContains (String c EmptyString) b.
Proof.
  induction a as [|x a IH]; intros b.
  - rewrite append_Empty. reflexivity.
  - rewrite append_String, !strContains_char, IH. now rewrite orb_assoc.
Qed.

Lemma normalizeNewlines_no_cr : forall s,
  strContains (String cr EmptyString) s = false -> normalizeNewlines s = s.
Proof.
  induction s as [|c s IH]; intros H; [reflexivity|].
  rewrite strContains_char in H. apply orb_false_iff in H. destruct H as [C H].
  cbn [normalizeNewlines]. destruct s as [|c2 s2]; [reflexivity|].
  rewrite Ascii.eqb_sym, C. cbn [andb]. now rewrite (IH H).
Qed.

Lemma resolveIRI_no_base p iri : base p = EmptyString -> resolveIRI p iri = iri.
Proof. intros H. unfold resolveIRI. now rewrite H. Qed.

(** A term in angle brackets, followed by [rest]. *)
Definition bracketed (x rest : string) : string := String "<" (x +:+ String ">" rest).

(** Runs the calls whose outcome is known. *)
Ltac run :=
  repeat (first [ rewrite (bind_ok _ _ _ _ _ (skip_eq _))
                | rewrite (bind_ok _ _ _ _ _ (get_eq _))
                | rewrite (bind_ok _ _ _ _ _ (advance_eq _ _)) ];
          cbv beta).

Lemma parseIRI_bracketed p x rest :
  skipSpaces false (unread p) = bracketed x rest ->
  strContains ">" x = false ->
  base p = EmptyString ->
  (iri <- parseIRI ;; q <- getParser ;; ret (resolveIRI q iri)) p
  = (Ok x, setUnread p rest).
Proof.
  intros E N B. rewrite (bind_ok _ _ _ _ _ (parseIRI_ok p x rest E N)).
  cbv beta. run. unfold ret. now rewrite resolveIRI_no_base.
Qed.

Lemma parseSubject_bracketed p x rest :
  skipSpaces false (unread p) = bracketed x rest ->
  strContains ">" x = false ->
  base p = EmptyString ->
  parseSubject p = (Ok x, setUnread p rest).
Proof.
  intros E N B. unfold parseSubject. run. rewrite E.
  change (atEnd (setUnread p (bracketed x rest))) with false.
  change (peekIs "<" (setUnread p (bracketed x rest))) with true.
  cbv iota.
  now rewrite (parseIRI_bracketed (setUnread p (bracketed x rest)) x rest eq_refl N B).
Qed.

Lemma parseObject_bracketed p x rest :
  skipSpaces false (unread p) = bracketed x rest ->
  strContains ">" x = false ->
  base p = EmptyString ->
  parseObject p = (Ok x, setUnread p rest).
Proof.
  intros E N B. unfold parseObject. run. rewrite E.
  change (atEnd (setUnread p (bracketed x rest))) with false.
  change (peekIs "<" (setUnread p (bracketed x rest))) with true.
  cbv iota.
  now rewrite (parseIRI_bracketed (setUnread p (bracketed x rest)) x rest eq_refl N B).
Qed.

Lemma parsePredicate_bracketed p x rest :
  skipSpaces false (unread p) = bracketed x rest ->
  strContains ">" x = false ->
  base p = EmptyString ->
  parsePredicate p = (Ok x, setUnread p rest).
Proof.
  intros E N B. unfold parsePredicate. run. rewrite E.
  change (atEnd (setUnread p (bracketed x rest))) with false.
  change (lookingAtKeywordA (setUnread p (bracketed x rest))) with false.
  change (peekIs "<" (setUnread p (bracketed x rest))) with true.
  cbv iota.
  now rewrite (parseIRI_bracketed (setUnread p (bracketed x rest)) x rest eq_refl N B).
Qed.

(** What closes a statement: a space, a full stop, and what follows. *)
Definition stop (rest : string) : string := String " " (String "." rest).

Lemma parseObjectList_bracketed fuel subject predicate triples p x rest :
  unread p = String " " (bracketed x (stop rest)) ->
  strContains ">" x = false ->
  base p = EmptyString ->
  parseObjectList (S fuel) subject predicate triples p
  = (Ok (triples ++ [mkTriple subject predicate x]), setUnread p (String "." rest)).
Proof.
  intros E N B. cbn [parseObjectList]. run.
  assert (Q : setUnread p (skipSpaces false (unread p))
              = setUnread p (bracketed x (stop rest)))
    by (rewrite E; reflexivity).
  rewrite Q.
  rewrite (bind_ok _ _ _ _ _
             (parseObject_bracketed (setUnread p (bracketed x (stop rest))) x (stop rest)
                eq_refl N B)).
  cbv beta. run. reflexivity.
Qed.

Lemma parsePredicateObjectList_bracketed fuel subject p x y rest :
  unread p = String " " (bracketed x (String " " (bracketed y (stop rest)))) ->
  strContains ">" x = false -> strContains ">" y = false ->
  base p = EmptyString ->
  parsePredicateObjectList (S fuel) subject [] p
  = (Ok [mkTriple subject x y], setUnread p rest).
Proof.
  intros E Nx Ny B. cbn [parsePredicateObjectList]. run.
  assert (Q : setUnread p (skipSpaces false (unread p))
              = setUnread p (bracketed x (String " " (bracketed y (stop rest)))))
    by (rewrite E; reflexivity).
  rewrite Q.
  change (atEnd (setUnread p (bracketed x (String " " (bracketed y (stop rest))))))
    with false.
  change (peekIs "." (setUnread p (bracketed x (String " " (bracketed y (stop rest))))))
    with false.
  cbv iota.
  rewrite (bind_ok _ _ _ _ _
             (parsePredicate_bracketed
                (setUnread p (bracketed x (String " " (bracketed y (stop rest)))))
                x (String " " (bracketed y (stop rest))) eq_refl Nx B)).
  cbv beta. run.
  rewrite (bind_ok _ _ _ _ _
             (parseObjectList_bracketed _ subject x []
                (setUnread p (String " " (bracketed y (stop rest)))) y rest eq_refl Ny B)).
  cbv beta. run. reflexivity.
Qed.

(** The N-Triples line of a triple of three IRIs, followed by [rest]. *)
Definition ntLine (t : Triple) (rest : string) : string :=
  bracketed (Subject t) (String " " (bracketed (Predicate t)
    (String " " (bracketed (Object t) (stop rest))))).

Lemma parseTriples_ntLine p t rest :
  base p = EmptyString ->
  skipSpaces false (unread p) = ntLine t rest ->
  strContains ">" (Subject t) = false -> strContains ">" (Predicate t) = false ->
  strContains ">" (Object t) = false ->
  parseTriples p = (Ok [t], setUnread p rest).
Proof.
  intros B E Ns Np No. unfold parseTriples.
  rewrite (bind_ok _ _ _ _ _
             (parseSubject_bracketed p (Subject t)
                (String " " (bracketed (Predicate t)
                               (String " " (bracketed (Object t) (stop rest)))))
                E Ns B)).
  cbv beta. run.
  rewrite (parsePredicateObjectList_bracketed _ (Subject t)
             (setUnread p (String " " (bracketed (Predicate t)
                                         (String " " (bracketed (Object t) (stop rest))))))
             (Predicate t) (Object t) rest eq_refl Np No B).
  now destruct t.
Qed.

Lemma skipSpaces_nonempty s c r : skipSpaces false s = String c r -> s <> EmptyString.
Proof. intros H ->. discriminate. Qed.

Lemma skipSpaces_idem : forall s b, skipSpaces false (skipSpaces b s) = skipSpaces b s.
Proof.
  induction s as [|c s IH]; intros b; [reflexivity|].
  cbn [skipSpaces]. destruct b.
  - destruct (Ascii.eqb c newline); apply IH.
  - destruct (Ascii.eqb c " " || Ascii.eqb c tab || Ascii.eqb c newline || Ascii.eqb c cr)
      eqn:W; [apply IH|].
    destruct (Ascii.eqb c "#") eqn:H; [apply IH|].
    cbn [skipSpaces]. now rewrite W, H.
Qed.

Lemma parseIteration_ntLine p t rest :
  base p = EmptyString ->
  skipSpaces false (unread p) = ntLine t rest ->
  strContains ">" (Subject t) = false -> strContains ">" (Predicate t) = false ->
  strContains ">" (Object t) = false ->
  parseIteration p = Continue (setUnread p rest) [t].
Proof.
  intros B E Ns Np No. unfold parseIteration.
  assert (A : atEnd p = false).
  { unfold atEnd. destruct (unread p); [discriminate E|reflexivity]. }
  rewrite A.
  assert (Q : snd (skipWhitespaceAndComments p) = setUnread p (ntLine t rest))
    by (unfold skipWhitespaceAndComments; cbn [snd]; rewrite E; reflexivity).
  rewrite Q.
  change (atEnd (setUnread p (ntLine t rest))) with false.
  change (isPrefixDecl (setUnread p (ntLine t rest))) with false.
  change (isBaseDecl (setUnread p (ntLine t rest))) with false.
  cbv iota.
  now rewrite (parseTriples_ntLine (setUnread p (ntLine t rest)) t rest B eq_refl Ns Np No).
Qed.

Definition isWebIRI (x : string) : bool :=
  (String.prefix "http://" x || String.prefix "https://" x)
  && negb (strContains ">" x) && negb (strContains (String cr EmptyString) x).

Definition webTriple (t : Triple) : Prop :=
  isWebIRI (Subject t) = true /\ isWebIRI (Predicate t) = true
  /\ isWebIRI (Object t) = true.

Lemma isWebIRI_inv x :
  isWebIRI x = true ->
  formatTerm x = "<" +:+ x +:+ ">" /\ strContains ">" x = false
  /\ strContains (String cr EmptyString) x = false.
Proof.
  unfold isWebIRI, formatTerm. intros H.
  apply andb_true_iff in H. destruct H as [H C].
  apply andb_true_iff in H. destruct H as [H G].
  apply negb_true_iff in C, G. now rewrite H.
Qed.

Lemma Triple_String_ntLine t rest :
  webTriple t -> Triple_String t +:+ rest = ntLine t rest.
Proof.
  intros (Hs & Hp & Ho).
  apply isWebIRI_inv in Hs, Hp, Ho.
  destruct Hs as (Fs & _), Hp as (Fp & _), Ho as (Fo & _).
  unfold Triple_String, ntLine, bracketed, stop. rewrite Fs, Fp, Fo.
  repeat first [ rewrite append_assoc_S | rewrite append_String
               | rewrite append_Empty ].
  reflexivity.
Qed.

(** The document written for the triples [l]. *)
Fixpoint document (l : list Triple) : string :=
  match l with
  | [] => EmptyString
  | t :: l' => ntLine t (String newline (document l'))
  end.

Lemma writeTriplesToFile_document l :
  (forall t, In t l -> webTriple t) ->
  writeTriplesToFile (map Triple_String l) = document l.
Proof.
  induction l as [|t l IH]; intros H; [reflexivity|].
  cbn [map writeTriplesToFile fold_right document].
  change (fold_right (fun line acc => line +:+ String newline acc) EmptyString
            (map Triple_String l)) with (writeTriplesToFile (map Triple_String l)).
  rewrite IH by (intros u Hu; apply H; now right).
  apply Triple_String_ntLine. apply H. now left.
Qed.

Lemma skipSpaces_document l : skipSpaces false (document l) = document l.
Proof. destruct l; reflexivity. Qed.

Lemma document_no_cr l :
  (forall t, In t l -> webTriple t) ->
  strContains (String cr EmptyString) (document l) = false.
Proof.
  induction l as [|t l IH]; intros H; [reflexivity|].
  destruct (H t (or_introl eq_refl)) as (Hs & Hp & Ho).
  apply isWebIRI_inv in Hs, Hp, Ho.
  destruct Hs as (_ & _ & Cs), Hp as (_ & _ & Cp), Ho as (_ & _ & Co).
  cbn [document]. unfold ntLine, bracketed, stop.
  rewrite !strContains_char, !strContains_char_app, !strContains_char,
    !strContains_char_app, !strContains_char, !strContains_char_app, !strContains_char.
  rewrite Cs, Cp, Co, IH by (intros u Hu; apply H; now right). reflexivity.
Qed.

Lemma parseLoop_document : forall l fuel p acc,
  (forall t, In t l -> webTriple t) ->
  base p = EmptyString ->
  skipSpaces false (unread p) = document l ->
  len p < fuel ->
  parseLoop fuel p acc = Ok (acc ++ l).
Proof.
  induction l as [|t l IH]; intros fuel p acc H B E F;
    (destruct fuel as [|fuel]; [lia|]); cbn [parseLoop].
  - unfold parseIteration. destruct (atEnd p); [now rewrite app_nil_r|].
    unfold skipWhitespaceAndComments, atEnd. cbn [snd unread setUnread].
    rewrite E. cbn [document]. now rewrite app_nil_r.
  - destruct (H t (or_introl eq_refl)) as (Hs & Hp & Ho).
    apply isWebIRI_inv in Hs, Hp, Ho.
    destruct Hs as (_ & Gs & _), Hp as (_ & Gp & _), Ho as (_ & Go & _).
    pose proof (parseIteration_progress p) as P.
    rewrite (parseIteration_ntLine p t (String newline (document l)) B E Gs Gp Go) in *.
    rewrite (IH fuel (setUnread p (String newline (document l))) (acc ++ [t])).
    + now rewrite <- app_assoc.
    + intros u Hu. apply H. now right.
    + exact B.
    + cbn [unread setUnread skipSpaces Ascii.eqb Bool.eqb orb].
      apply skipSpaces_document.
    + lia.
Qed.

(** X20.  Reading back the file that [writeTriplesToFile] writes for the
    rendering of a list of triples gives that list again, triple for
    triple, when the terms are IRIs beginning with [http://] or
    [https://] that hold no [>] and no carriage return. *)
Theorem Parse_of_written_triples (l : list Triple) :
  (forall t, In t l -> webTriple t) ->
  Parse (writeTriplesToFile (map Triple_String l)) = Ok l.
Proof.
  intros H. rewrite (writeTriplesToFile_document l H).
  assert (S0 : unread (startParser (document l)) = document l).
  { unfold startParser. cbn [unread]. unfold TrimPrefix.
    replace (String.prefix BOM (document l)) with false by (destruct l; reflexivity).
    apply normalizeNewlines_no_cr. now apply document_no_cr. }
  unfold Parse.
  apply (parseLoop_document l _ (startParser (document l)) [] H eq_refl).
  - rewrite S0. apply skipSpaces_document.
  - unfold len. lia.
Qed.

Lemma Parse_of_written_triples_witness :
  Parse (writeTriplesToFile (map Triple_String
           [ mkTriple "http://example.org/a" RDFType "https://example.org/B";
             mkTriple "http://example.org/B" RDFSSubClassOf "http://example.org/C" ]))
  = Ok [ mkTriple "http://example.org/a" RDFType "https://example.org/B";
         mkTriple "http://example.org/B" RDFSSubClassOf "http://example.org/C" ].
Proof.
  apply Parse_of_written_triples. intros t H. simpl in H.
  destruct H as [<-|[<-|[]]]; repeat split; reflexivity.
Defined.

(** *** Prefixed names *)

(** Every byte of [s] satisfies [f]. *)
Fixpoint allChars (f : ascii -> bool) (s : string) : bool :=
  match s with
  | EmptyString => true
  | String ch s' => f ch && allChars f s'
  end.

(** [s] is empty or begins with a byte that does not satisfy [f]. *)
Definition stopsAt (f : ascii -> bool) (s : string) : bool :=
  match s with
  | EmptyString => true
  | String ch _ => negb (f ch)
  end.

Lemma span_app f : forall w r,
  allChars f w = true -> stopsAt f r = true -> span f (w +:+ r) = (w, r).
Proof.
  induction w as [|x w IH]; intros r A S.
  - rewrite append_Empty. destruct r as [|y r]; [reflexivity|].
    cbn [stopsAt] in S. apply negb_true_iff in S. cbn [span]. now rewrite S.
  - cbn [allChars] in A. apply andb_true_iff in A. destruct A as [A1 A2].
    rewrite append_String. cbn [span]. rewrite A1. now rewrite (IH r A2 S).
Qed.

Lemma allChars_impl (f g : ascii -> bool) : forall s,
  (forall ch, f ch = true -> g ch = true) -> allChars f s = true -> allChars g s = true.
Proof.
  induction s as [|x s IH]; intros H A; [reflexivity|].
  cbn [allChars] in *. apply andb_true_iff in A. destruct A as [A1 A2].
  now rewrite (H x A1), (IH H A2).
Qed.

(** X30.  [parsePrefixedName] reads the name characters up to the colon
    as the prefix and the name characters behind it as the local name.
    For a declared prefix it returns the declared IRI followed by the
    local name; an undeclared prefix is no error: the name is returned as
    it is written. *)
Theorem parsePrefixedName_spec (p : TurtleParser) (pre loc rest : string) :
  allChars isNameChar pre = true ->
  allChars isNameChar loc = true ->
  stopsAt isNameChar rest = true ->
  unread p = pre +:+ ":" +:+ loc +:+ rest ->
  parsePrefixedName p
  = (Ok match prefixes p !! pre with
        | Some b => b +:+ loc
        | None => pre +:+ ":" +:+ loc
        end,
     setUnread p rest).
Proof.
  intros A1 A2 S E.
  assert (N : forall ch, isNameChar ch = true ->
                negb (Ascii.eqb ch ":") && isNameChar ch = true).
  { intros ch H. rewrite H, andb_true_r. apply negb_true_iff.
    destruct (Ascii.eqb_spec ch ":") as [->|]; [discriminate H|reflexivity]. }
  unfold parsePrefixedName, bind, takeWhile, getParser, peekIs, peek, atEnd, advance,
    fail, ret.
  rewrite E.
  change (pre +:+ ":" +:+ loc +:+ rest) with (pre +:+ String ":" (loc +:+ rest)).
  rewrite (span_app _ pre (String ":" (loc +:+ rest)));
    [|now apply (allChars_impl isNameChar)|reflexivity].
  cbn [unread setUnread Ascii.eqb Bool.eqb negb dropS prefixes].
  rewrite (span_app isNameChar loc rest A2 S).
  cbn [unread setUnread prefixes].
  destruct (prefixes p !! pre); reflexivity.
Qed.

Lemma parsePrefixedName_spec_witness :
  parsePrefixedName (mkParser (<["ex" := "http://example.org/"]> ∅) EmptyString "ex:Car ;")
  = (Ok "http://example.org/Car",
     mkParser (<["ex" := "http://example.org/"]> ∅) EmptyString " ;").
Proof.
  exact (parsePrefixedName_spec
           (mkParser (<["ex" := "http://example.org/"]> ∅) EmptyString "ex:Car ;")
           "ex" "Car" " ;" eq_refl eq_refl eq_refl eq_refl).
Defined.

(** ** Datalog *)

Import Datalog.

Lemma termsMatch_spec : forall qs fs,
  length qs = length fs ->
  (termsMatch qs fs = true <->
   forall i qt ft,
     nth_error qs i = Some qt -> nth_error fs i = Some ft ->
     IsVariable qt = false -> Value qt = Value ft).
Proof.
  induction qs as [|q qs IH]; intros [|f fs] Hl; simpl in Hl; try discriminate.
  - simpl. split; [|reflexivity]. intros _ [|i] qt ft H; discriminate H.
  - simpl. injection Hl as Hl. specialize (IH fs Hl).
    destruct (IsVariable q) eqn:V; simpl.
    + rewrite IH. split.
      * intros H [|i] qt ft Hq Hf Hv; simpl in *.
        -- inversion Hq. subst. congruence.
        -- eapply H; eauto.
      * intros H i qt ft Hq Hf Hv. apply (H (S i) qt ft); assumption.
    + destruct (String.eqb (Value q) (Value f)) eqn:E; simpl.
      * apply String.eqb_eq in E. rewrite IH. split.
        -- intros H [|i] qt ft Hq Hf Hv; simpl in *.
           ++ inversion Hq. inversion Hf. subst. exact E.
           ++ eapply H; eauto.
        -- intros H i qt ft Hq Hf Hv. apply (H (S i) qt ft); assumption.
      * apply String.eqb_neq in E. split; [discriminate|].
        intros H. exfalso. apply E. apply (H 0 q f); auto.
Qed.

(** C7.  [EvaluateQuery] answers true exactly when some derived fact has the
    predicate and the arity of the query and the same value at every
    position where the query has a constant; in particular it answers
    false, and does not fail, when no derived fact has the predicate of the
    query. *)
Theorem EvaluateQuery_spec (query : DLAtom) (derivedFacts : list DLAtom) :
  (EvaluateQuery query derivedFacts = true <->
   exists f,
     In f derivedFacts /\
     Predicate f = Predicate query /\
     length (Terms f) = length (Terms query) /\
     forall i qt ft,
       nth_error (Terms query) i = Some qt -> nth_error (Terms f) i = Some ft ->
       IsVariable qt = false -> Value qt = Value ft) /\
  ((forall f, In f derivedFacts -> Predicate f <> Predicate query) ->
   EvaluateQuery query derivedFacts = false).
Proof.
  assert (M : forall f, length (Terms f) = length (Terms query) ->
            (termsMatch (Terms query) (Terms f) = true <->
             forall i qt ft,
               nth_error (Terms query) i = Some qt -> nth_error (Terms f) i = Some ft ->
               IsVariable qt = false -> Value qt = Value ft)).
  { intros f Hl. apply termsMatch_spec. now symmetry. }
  split.
  - induction derivedFacts as [|f rest IH]; simpl.
    + split; [discriminate|]. intros (f & [] & _).
    + destruct (String.eqb (Predicate f) (Predicate query)) eqn:P; simpl.
      * apply String.eqb_eq in P.
        destruct (Nat.eqb (length (Terms f)) (length (Terms query))) eqn:L; simpl.
        -- apply Nat.eqb_eq in L.
           destruct (termsMatch (Terms query) (Terms f)) eqn:T.
           ++ split; [|reflexivity]. intros _. exists f. splits; auto.
              now apply M.
           ++ rewrite IH. split.
              ** intros (g & Hg & R). exists g. split; [now right|exact R].
              ** intros (g & [<-|Hg] & Pg & Lg & R).
                 --- apply M in R; [congruence|assumption].
                 --- exists g. auto.
        -- apply Nat.eqb_neq in L. rewrite IH. split.
           ++ intros (g & Hg & R). exists g. split; [now right|exact R].
           ++ intros (g & [<-|Hg] & Pg & Lg & R); [contradiction|]. exists g. auto.
      * apply String.eqb_neq in P. rewrite IH. split.
        -- intros (g & Hg & R). exists g. split; [now right|exact R].
        -- intros (g & [<-|Hg] & Pg & Lg & R); [contradiction|]. exists g. auto.
  - induction derivedFacts as [|f rest IH]; intros H; simpl; [reflexivity|].
    assert (P : String.eqb (Predicate f) (Predicate query) = false).
    { apply String.eqb_neq. apply H. now left. }
    rewrite P. simpl. apply IH. intros g Hg. apply H. now right.
Qed.

Section VariableRecognition.

Variable runes : string -> list rune.
Variables unicode_IsLetter unicode_IsUpper unicode_IsDigit : rune -> bool.

(** Ranging over the empty string yields no rune. *)
Hypothesis runes_empty : runes EmptyString = [].

Lemma scanRunes_spec : forall rs hasLetter,
  scanRunes unicode_IsLetter unicode_IsUpper unicode_IsDigit rs hasLetter = (true, true) <->
  (hasLetter = true \/ exists r, In r rs /\ unicode_IsLetter r = true) /\
  (forall r, In r rs -> unicode_IsLetter r = true -> unicode_IsUpper r = true) /\
  (forall r, In r rs -> unicode_IsLetter r = false ->
             unicode_IsDigit r = true \/ r = 95%N).
Proof.
  induction rs as [|r rs IH]; intros hasLetter; simpl.
  - split.
    + intros E. inversion E. splits; [now left| |]; intros r [].
    + intros ([->|(r & [] & _)] & _ & _). reflexivity.
  - destruct (unicode_IsLetter r) eqn:L.
    + destruct (unicode_IsUpper r) eqn:Up; simpl.
      * rewrite IH. split.
        -- intros (_ & H2 & H3). splits.
           ++ right. exists r. auto.
           ++ intros x [<-|Hx] Lx; auto.
           ++ intros x [<-|Hx] Lx; [congruence|auto].
        -- intros (_ & H2 & H3). splits; auto.
      * split; [discriminate|]. intros (_ & H2 & _).
        specialize (H2 r (or_introl eq_refl) L). congruence.
    + destruct (unicode_IsDigit r) eqn:D; simpl.
      * rewrite IH. split.
        -- intros (H1 & H2 & H3). splits.
           ++ destruct H1 as [H1|(x & Hx & Lx)]; [now left|right; exists x; auto].
           ++ intros x [<-|Hx] Lx; [congruence|auto].
           ++ intros x [<-|Hx] Lx; auto.
        -- intros (H1 & H2 & H3). splits; auto.
           destruct H1 as [H1|(x & [<-|Hx] & Lx)]; [now left|congruence|].
           right. exists x. auto.
      * destruct (N.eqb r 95) eqn:U; simpl.
        -- apply N.eqb_eq in U. rewrite IH. split.
           ++ intros (H1 & H2 & H3). splits.
              ** destruct H1 as [H1|(x & Hx & Lx)]; [now left|right; exists x; auto].
              ** intros x [<-|Hx] Lx; [congruence|auto].
              ** intros x [<-|Hx] Lx; auto.
           ++ intros (H1 & H2 & H3). splits; auto.
              destruct H1 as [H1|(x & [<-|Hx] & Lx)]; [now left|congruence|].
              right. exists x. auto.
        -- apply N.eqb_neq in U. split.
           ++ discriminate.
           ++ intros (_ & _ & H3).
              destruct (H3 r (or_introl eq_refl) L); congruence.
Qed.

(** C8.  A term string is classified as a variable exactly when it is a
    single upper-case ASCII letter, or begins with a question mark, or
    contains a letter while every letter of it is upper case and every
    other rune is a digit or an underscore. *)
Theorem isVariable_spec (s : string) :
  isVariable runes unicode_IsLetter unicode_IsUpper unicode_IsDigit s = true <->
  (exists ch, s = String ch EmptyString /\ inRange 65 90 ch = true) \/
  String.prefix "?" s = true \/
  ((exists r, In r (runes s) /\ unicode_IsLetter r = true) /\
   (forall r, In r (runes s) -> unicode_IsLetter r = true -> unicode_IsUpper r = true) /\
   (forall r, In r (runes s) -> unicode_IsLetter r = false ->
              unicode_IsDigit r = true \/ r = 95%N)).
Proof.
  pose proof (scanRunes_spec (runes s) false) as Sc.
  destruct s as [|ch s'].
  - simpl. rewrite runes_empty. split; [discriminate|].
    intros [(c & E & _)|[E|((r & [] & _) & _)]]; discriminate.
  - unfold isVariable.
    destruct ((String.length (String ch s') =? 1) && inRange 65 90 ch) eqn:One.
    + split; [|reflexivity]. intros _. left.
      apply andb_true_iff in One. destruct One as [Len R].
      apply Nat.eqb_eq in Len. destruct s'; [|discriminate]. eauto.
    + destruct (String.prefix "?" (String ch s')) eqn:Q.
      * split; [|reflexivity]. intros _. right. now left.
      * destruct (scanRunes unicode_IsLetter unicode_IsUpper unicode_IsDigit
                    (runes (String ch s')) false) as [allUpper hasLetter] eqn:Scan.
        split.
        -- intros H. apply andb_true_iff in H. destruct H as [-> ->].
           right. right. destruct Sc as [Sc _]. specialize (Sc eq_refl).
           destruct Sc as ([Hf|He] & H2 & H3); [discriminate|]. splits; assumption.
        -- intros [(c & E & R)|[E|(H1 & H2 & H3)]].
           ++ inversion E. subst. simpl in One. rewrite R in One. discriminate.
           ++ discriminate.
           ++ assert (E2 : (allUpper, hasLetter) = (true, true))
                by (apply Sc; splits; auto).
              inversion E2. reflexivity.
Qed.

End VariableRecognition.

(** The decoder of a string of ASCII bytes and the ASCII part of the
    tables, to run [isVariable] on examples. *)
Definition asciiRunes (s : string) : list rune :=
  map N_of_ascii (list_ascii_of_string s).
Definition asciiIsLetter (r : rune) : bool :=
  ((65 <=? r) && (r <=? 90) || (97 <=? r) && (r <=? 122))%N.
Definition asciiIsUpper (r : rune) : bool := ((65 <=? r) && (r <=? 90))%N.
Definition asciiIsDigit (r : rune) : bool := ((48 <=? r) && (r <=? 57))%N.

Lemma isVariable_spec_witness :
  isVariable asciiRunes asciiIsLetter asciiIsUpper asciiIsDigit "VAR_X" = true /\
  isVariable asciiRunes asciiIsLetter asciiIsUpper asciiIsDigit "john" = false.
Proof.
  split.
  - apply (isVariable_spec asciiRunes asciiIsLetter asciiIsUpper asciiIsDigit eq_refl "VAR_X").
    right. right. splits.
    + exists 86%N. split; [simpl; tauto|reflexivity].
    + intros r H. simpl in H.
      repeat (destruct H as [<-|H]; [vm_compute; auto|]). contradiction.
    + intros r H. simpl in H.
      repeat (destruct H as [<-|H]; [vm_compute; auto|]). contradiction.
  - reflexivity.
Defined.

(** ** The Datalog evaluator ([findSubstitutions], [applySubstitution],
       [Reason]) *)

(** The variables of a list of terms and of a rule body. *)
Definition varsOf (ts : list DLTerm) : gset string :=
  list_to_set (map Value (List.filter IsVariable ts)).

Fixpoint bodyVars (body : list DLAtom) : gset string :=
  match body with
  | [] => ∅
  | b :: rest => varsOf (Terms b) ∪ bodyVars rest
  end.

(** Under [sub], the term [t] of a body atom stands for the term [ft] of a
    fact: a variable is bound to the value of [ft], a constant is that
    value. *)
Definition standsFor (sub : gmap string string) (t ft : DLTerm) : Prop :=
  if IsVariable t then sub !! Value t = Some (Value ft) else Value t = Value ft.

(** The fact [f] is the body atom [b] instantiated by [sub]. *)
Definition instanceOf (sub : gmap string string) (b f : DLAtom) : Prop :=
  Predicate f = Predicate b /\ Forall2 (standsFor sub) (Terms b) (Terms f).

Lemma varsOf_cons t ts :
  varsOf (t :: ts) = (if IsVariable t then {[ Value t ]} else ∅) ∪ varsOf ts.
Proof.
  unfold varsOf. cbn [List.filter]. destruct (IsVariable t); cbn [map list_to_set].
  - reflexivity.
  - set_solver.
Qed.

Lemma standsFor_weaken sub sub' t ft : sub ⊆ sub' -> standsFor sub t ft -> standsFor sub' t ft.
Proof.
  unfold standsFor. intros H. destruct (IsVariable t); [|auto].
  intros E. eapply lookup_weaken; eauto.
Qed.

Lemma matchTerms_sound : forall ts fts sub sub',
  length ts = length fts ->
  matchTerms ts fts sub = Some sub' ->
  sub ⊆ sub' /\ dom sub' = dom sub ∪ varsOf ts /\ Forall2 (standsFor sub') ts fts.
Proof.
  induction ts as [|t ts IH]; intros [|ft fts] sub sub' L H; try discriminate L.
  - inversion H. subst. splits; [reflexivity|set_solver|constructor].
  - cbn [matchTerms] in H. injection L as L. rewrite varsOf_cons.
    destruct (IsVariable t) eqn:V.
    + destruct (sub !! Value t) as [val|] eqn:B.
      * destruct (String.eqb val (Value ft)) eqn:E; [|discriminate].
        apply String.eqb_eq in E. subst val. cbn [negb] in H.
        destruct (IH _ _ _ L H) as (S1 & D1 & F1). splits.
        -- exact S1.
        -- apply elem_of_dom_2 in B. set_solver.
        -- constructor; [|exact F1]. unfold standsFor. rewrite V.
           eapply lookup_weaken; eauto.
      * destruct (IH _ _ _ L H) as (S1 & D1 & F1). splits.
        -- etrans; [|exact S1]. now apply insert_subseteq.
        -- rewrite D1, dom_insert_L. set_solver.
        -- constructor; [|exact F1]. unfold standsFor. rewrite V.
           eapply lookup_weaken; [|exact S1]. apply lookup_insert_eq.
    + destruct (String.eqb (Value t) (Value ft)) eqn:E; [|discriminate].
      apply String.eqb_eq in E. cbn [negb] in H.
      destruct (IH _ _ _ L H) as (S1 & D1 & F1). splits.
      * exact S1.
      * set_solver.
      * constructor; [|exact F1]. unfold standsFor. now rewrite V.
Qed.

Lemma matchTerms_complete : forall ts fts sub s,
  sub ⊆ s -> Forall2 (standsFor s) ts fts ->
  exists sub', matchTerms ts fts sub = Some sub' /\ sub' ⊆ s.
Proof.
  induction ts as [|t ts IH]; intros fts sub s S F; inversion F as [|? ft ? fts' H1 H2]; subst.
  - exists sub. now split.
  - cbn [matchTerms]. unfold standsFor in H1. destruct (IsVariable t) eqn:V.
    + destruct (sub !! Value t) as [val|] eqn:B.
      * assert (val = Value ft).
        { pose proof (lookup_weaken _ _ _ _ B S) as B'. congruence. }
        subst val. rewrite String.eqb_refl. cbn [negb]. now apply IH.
      * apply IH; [|exact H2]. now apply insert_subseteq_l.
    + rewrite H1, String.eqb_refl. cbn [negb]. now apply IH.
Qed.

Lemma findSubstitutions_sound : forall body facts sub s,
  In s (findSubstitutions body facts sub) ->
  sub ⊆ s /\ dom s = dom sub ∪ bodyVars body /\
  Forall (fun b => exists f, In f facts /\ instanceOf s b f) body.
Proof.
  induction body as [|b body IH]; intros facts sub s; cbn [findSubstitutions bodyVars].
  - intros [<-|[]]. splits; [reflexivity|set_solver|constructor].
  - rewrite in_flat_map. intros (f & Hf & H).
    destruct (String.eqb (Predicate f) (Predicate b)) eqn:P; [|destruct H].
    destruct (length (Terms f) =? length (Terms b)) eqn:L; [|destruct H].
    cbn [negb orb] in H. apply String.eqb_eq in P. apply Nat.eqb_eq in L.
    destruct (matchTerms (Terms b) (Terms f) sub) as [sub1|] eqn:M; [|destruct H].
    apply matchTerms_sound in M; [|now symmetry]. destruct M as (S1 & D1 & F1).
    apply IH in H. destruct H as (S2 & D2 & F2). splits.
    + transitivity sub1; assumption.
    + rewrite D2, D1. set_solver.
    + constructor; [|exact F2]. exists f. split; [exact Hf|]. split; [exact P|].
      eapply Forall2_impl; [exact F1|]. intros t ft. now apply standsFor_weaken.
Qed.

Lemma findSubstitutions_complete : forall body facts sub s,
  sub ⊆ s -> dom s = dom sub ∪ bodyVars body ->
  Forall (fun b => exists f, In f facts /\ instanceOf s b f) body ->
  In s (findSubstitutions body facts sub).
Proof.
  induction body as [|b body IH]; intros facts sub s S D F; cbn [findSubstitutions bodyVars] in *.
  - left. apply subseteq_dom_eq; [exact S|]. set_solver.
  - rewrite in_flat_map. inversion F as [|? ? (f & Hf & P & F1) F2]; subst.
    exists f. split; [exact Hf|].
    rewrite P, String.eqb_refl.
    rewrite (Forall2_length _ _ _ F1), Nat.eqb_refl. cbn [negb orb].
    destruct (matchTerms_complete _ _ _ _ S F1) as (sub1 & M & S1). rewrite M.
    apply IH; [exact S1| |exact F2].
    apply matchTerms_sound in M; [|now apply Forall2_length in F1].
    destruct M as (_ & D1 & _). rewrite D, D1. set_solver.
Qed.

(** X21.  [findSubstitutions] returns exactly the substitutions that
    extend the given one by bindings for the variables of the body, and
    for nothing else, such that every atom of the body, instantiated, is
    one of the facts. *)
Theorem findSubstitutions_spec (body facts : list DLAtom) (currentSub s : gmap string string) :
  In s (findSubstitutions body facts currentSub) <->
  currentSub ⊆ s /\ dom s = dom currentSub ∪ bodyVars body /\
  Forall (fun b => exists f, In f facts /\ instanceOf s b f) body.
Proof.
  split.
  - apply findSubstitutions_sound.
  - intros (S & D & F). now apply findSubstitutions_complete.
Qed.


(** *** Applying a substitution *)

Lemma DLTerm_eta t : t = mkTerm (Value t) (IsVariable t).
Proof. now destruct t. Qed.

Lemma DLAtom_eta a : a = mkAtom (Predicate a) (Terms a).
Proof. now destruct a. Qed.

(** An atom without variables, from its predicate and its values. *)
Definition groundAtom (pred : string) (vs : list string) : DLAtom :=
  mkAtom pred (map (fun v => mkTerm v false) vs).

Lemma ground_terms ts :
  existsb IsVariable ts = false -> ts = map (fun v => mkTerm v false) (map Value ts).
Proof.
  induction ts as [|t ts IH]; cbn [existsb map]; [reflexivity|].
  intros H. apply orb_false_iff in H. destruct H as [V H].
  rewrite <- (IH H). f_equal. rewrite (DLTerm_eta t) at 1. now rewrite V.
Qed.

Lemma ground_eta a :
  hasVariables a = false -> a = groundAtom (Predicate a) (map Value (Terms a)).
Proof.
  intros H. unfold groundAtom. rewrite <- (ground_terms _ H). apply DLAtom_eta.
Qed.

Lemma applySubstitution_values sub : forall ts fts,
  Forall2 (standsFor sub) ts fts ->
  map Value (Terms (applySubstitution (mkAtom EmptyString ts) sub)) = map Value fts.
Proof.
  intros ts fts F. cbn [applySubstitution Terms].
  induction F as [|t ft ts fts H F IH]; cbn [map]; [reflexivity|].
  rewrite IH. f_equal. unfold standsFor in H.
  destruct (IsVariable t); [now rewrite H|exact H].
Qed.

Lemma applySubstitution_ground sub : forall ts fts,
  Forall2 (standsFor sub) ts fts ->
  hasVariables (applySubstitution (mkAtom EmptyString ts) sub) = false.
Proof.
  intros ts fts F. unfold hasVariables. cbn [applySubstitution Terms].
  induction F as [|t ft ts fts H F IH]; cbn [map existsb]; [reflexivity|].
  rewrite IH, orb_false_r. unfold standsFor in H.
  destruct (IsVariable t) eqn:V; [now rewrite H|exact V].
Qed.

Lemma applySubstitution_instance sub b f :
  hasVariables f = false -> instanceOf sub b f -> applySubstitution b sub = f.
Proof.
  intros G [P F].
  assert (G' : hasVariables (applySubstitution b sub) = false)
    by exact (applySubstitution_ground sub _ _ F).
  rewrite (ground_eta _ G'), (ground_eta _ G). f_equal.
  - now rewrite P.
  - exact (applySubstitution_values sub _ _ F).
Qed.

(** X22.  When the facts have no variables, every substitution that
    [findSubstitutions] returns turns every atom of the body into one of
    the facts. *)
Theorem found_substitution_instantiates_body (body facts : list DLAtom)
  (currentSub s : gmap string string) (b : DLAtom) :
  (forall f, In f facts -> hasVariables f = false) ->
  In s (findSubstitutions body facts currentSub) ->
  In b body ->
  In (applySubstitution b s) facts.
Proof.
  intros G H Hb.
  apply findSubstitutions_sound in H. destruct H as (_ & _ & F).
  rewrite Forall_forall in F. destruct (F b) as (f & Hf & I).
  - now apply list_elem_of_In.
  - rewrite (applySubstitution_instance s b f (G f Hf) I). exact Hf.
Qed.

(** The head keeps a variable exactly when one of its variables is not
    bound. *)
Lemma hasVariables_applySubstitution a sub :
  hasVariables (applySubstitution a sub) = false <-> varsOf (Terms a) ⊆ dom sub.
Proof.
  unfold hasVariables. cbn [applySubstitution Terms].
  induction (Terms a) as [|t ts IH]; cbn [map existsb].
  - split; [set_solver|reflexivity].
  - rewrite varsOf_cons, orb_false_iff, IH. destruct (IsVariable t) eqn:V.
    + destruct (sub !! Value t) as [val|] eqn:B.
      * apply elem_of_dom_2 in B. cbn [IsVariable]. split; [set_solver|].
        intros H. split; [reflexivity|set_solver].
      * apply not_elem_of_dom in B. rewrite V. split; [intros [? _]; discriminate|].
        intros H. exfalso. set_solver.
    + rewrite V. split; [set_solver|]. intros H. split; [reflexivity|set_solver].
Qed.


(** *** The fact base of [Reason] *)

(** The map and the list of [Reason] agree, and no key is listed twice. *)
Record baseOk (fb : FactBase) : Prop := mkBaseOk {
  bo_keys : forall s,
    is_Some (factMap fb !! s) <-> In s (map DLAtom_String (factList fb));
  bo_nodup : List.NoDup (map DLAtom_String (factList fb))
}.

Definition emptyBase : FactBase := {| factMap := ∅; factList := [] |}.

(** Every listed fact is in [M]. *)
Definition listedIn (M : DLAtom -> Prop) (fb : FactBase) : Prop :=
  forall f, In f (factList fb) -> M f.

(** [h] follows in one step from facts of [M] by a rule of [rs]: it is the
    head of the rule under a substitution for the variables of the body
    that turns the body into facts of [M], and it has no variable left. *)
Definition oneStep (rs : list DLRule) (M : DLAtom -> Prop) (h : DLAtom) : Prop :=
  exists rule s,
    In rule rs /\ dom s = bodyVars (Body rule) /\
    Forall (fun b => exists f, M f /\ instanceOf s b f) (Body rule) /\
    hasVariables (applySubstitution (Head rule) s) = false /\
    h = applySubstitution (Head rule) s.

(** [M] holds the facts of the program that have no variable and is closed
    under its rules. *)
Definition closedDL (p : DatalogProgram) (M : DLAtom -> Prop) : Prop :=
  (forall f, In f (Facts p) -> hasVariables f = false -> M f) /\
  (forall h, oneStep (Rules p) M h -> M h).

(** The least such set. *)
Definition leastDL (p : DatalogProgram) (f : DLAtom) : Prop :=
  forall M, closedDL p M -> M f.

Lemma emptyBase_ok : baseOk emptyBase.
Proof.
  constructor; cbn.
  - intros s. rewrite lookup_empty. split; [intros [? ?]; discriminate|intros []].
  - constructor.
Qed.

Lemma addFact_new fb f :
  factMap fb !! DLAtom_String f = None ->
  addFact fb f = ({| factMap := <[DLAtom_String f := f]> (factMap fb);
                     factList := factList fb ++ [f] |}, true).
Proof. unfold addFact. now intros ->. Qed.

Lemma addFact_old fb f :
  is_Some (factMap fb !! DLAtom_String f) -> addFact fb f = (fb, false).
Proof. unfold addFact. now intros [x ->]. Qed.

Lemma addFact_cases fb f :
  (factMap fb !! DLAtom_String f = None /\
   addFact fb f = ({| factMap := <[DLAtom_String f := f]> (factMap fb);
                      factList := factList fb ++ [f] |}, true)) \/
  (is_Some (factMap fb !! DLAtom_String f) /\ addFact fb f = (fb, false)).
Proof.
  destruct (factMap fb !! DLAtom_String f) eqn:E.
  - right. split; [eauto|]. apply addFact_old. eauto.
  - left. split; [reflexivity|]. now apply addFact_new.
Qed.

Lemma addFact_ok fb f : baseOk fb -> baseOk (fst (addFact fb f)).
Proof.
  intros [K N]. destruct (addFact_cases fb f) as [[E ->]|[E ->]]; [|now constructor].
  constructor; cbn [fst factMap factList].
  - intros s. rewrite map_app, in_app_iff, <- K. cbn [map In].
    destruct (String.eqb (DLAtom_String f) s) eqn:Q.
    + apply String.eqb_eq in Q. subst s. rewrite lookup_insert_eq. split; eauto.
    + apply String.eqb_neq in Q. rewrite lookup_insert_ne by exact Q. tauto.
  - rewrite map_app. cbn [map]. apply List.NoDup_app.
    + exact N.
    + repeat constructor. cbn. tauto.
    + intros s Hs [<-|[]]. apply K in Hs. rewrite E in Hs. destruct Hs. discriminate.
Qed.

Lemma addFact_listedIn M fb f : listedIn M fb -> M f -> listedIn M (fst (addFact fb f)).
Proof.
  intros H Hf. destruct (addFact_cases fb f) as [[E ->]|[E ->]]; [|exact H].
  intros g. cbn [fst factList]. rewrite in_app_iff. intros [G|[<-|[]]]; auto.
Qed.

Lemma addFact_appends fb f :
  exists added, factList (fst (addFact fb f)) = factList fb ++ added /\
                length added = (if snd (addFact fb f) then 1 else 0).
Proof.
  destruct (addFact_cases fb f) as [[E ->]|[E ->]]; cbn [fst snd factList].
  - now exists [f].
  - exists []. now rewrite app_nil_r.
Qed.

(** *** One round *)

Lemma addHeads_spec M head : forall subs fb n,
  baseOk fb -> listedIn M fb ->
  (forall s, In s subs -> hasVariables (applySubstitution head s) = false ->
             M (applySubstitution head s)) ->
  let r := addHeads head subs fb n in
  baseOk (fst r) /\ listedIn M (fst r) /\
  (exists added, factList (fst r) = factList fb ++ added /\ snd r = n + length added) /\
  (snd r = n -> fst r = fb /\
     forall s, In s subs -> hasVariables (applySubstitution head s) = false ->
               is_Some (factMap fb !! DLAtom_String (applySubstitution head s))).
Proof.
  induction subs as [|s subs IH]; intros fb n Hok HM Hs; cbn [addHeads]; cbn zeta.
  - cbn [fst snd]. splits; auto.
    + exists []. rewrite app_nil_r. split; [reflexivity|cbn; lia].
    + intros _. split; [reflexivity|]. intros ? [].
  - destruct (hasVariables (applySubstitution head s)) eqn:G; cbn [negb].
    + destruct (IH fb n Hok HM) as (O & L & A & Z); [intros; apply Hs; auto; now right|].
      splits; auto. intros E. destruct (Z E) as [Z1 Z2]. split; [exact Z1|].
      intros s' [<-|Hin] G'; [congruence|now apply Z2].
    + pose proof (addFact_ok fb (applySubstitution head s) Hok) as O1.
      pose proof (addFact_listedIn M fb (applySubstitution head s) HM
                    (Hs s (or_introl eq_refl) G)) as L1.
      destruct (addFact_cases fb (applySubstitution head s)) as [[E Q]|[E Q]];
        rewrite Q in *; cbn [fst snd] in *.
      * destruct (IH _ (S n) O1 L1) as (O & L & (added & A1 & A2) & Z);
          [intros; apply Hs; auto; now right|].
        splits; auto.
        -- exists (applySubstitution head s :: added). cbn [factList] in A1.
           rewrite A1, <- app_assoc. split; [reflexivity|]. cbn [length]. lia.
        -- intros C. exfalso. lia.
      * destruct (IH _ n O1 L1) as (O & L & A & Z); [intros; apply Hs; auto; now right|].
        splits; auto. intros C. destruct (Z C) as [Z1 Z2]. split; [exact Z1|].
        intros s' [<-|Hin] G'; [exact E|now apply Z2].
Qed.

Lemma applyDLRules_spec M (all : list DLRule) : forall rs fb n,
  incl rs all -> (forall h, oneStep all M h -> M h) ->
  baseOk fb -> listedIn M fb ->
  let r := applyDLRules rs fb n in
  baseOk (fst r) /\ listedIn M (fst r) /\
  (exists added, factList (fst r) = factList fb ++ added /\ snd r = n + length added) /\
  (snd r = n -> fst r = fb /\
     forall h, oneStep rs (fun f => In f (factList fb)) h ->
               is_Some (factMap fb !! DLAtom_String h)).
Proof.
  induction rs as [|rule rs IH]; intros fb n Hin HC Hok HM; cbn [applyDLRules]; cbn zeta.
  - cbn [fst snd]. splits; auto.
    + exists []. rewrite app_nil_r. split; [reflexivity|cbn; lia].
    + intros _. split; [reflexivity|]. intros h (rule & s & [] & _).
  - assert (Hs : forall s, In s (findSubstitutions (Body rule) (factList fb) ∅) ->
                  hasVariables (applySubstitution (Head rule) s) = false ->
                  M (applySubstitution (Head rule) s)).
    { intros s Hs G. apply HC. exists rule, s.
      apply findSubstitutions_sound in Hs. destruct Hs as (_ & D & F).
      splits; auto.
      - apply Hin. now left.
      - rewrite D. set_solver.
      - eapply Forall_impl; [exact F|]. intros b (f & Hf & I). exists f. auto. }
    pose proof (addHeads_spec M (Head rule) _ fb n Hok HM Hs) as A. cbn zeta in A.
    destruct (addHeads (Head rule) (findSubstitutions (Body rule) (factList fb) ∅) fb n)
      as [fb1 n1]. cbn [fst snd] in A.
    destruct A as (O1 & L1 & (added1 & A1 & A2) & Z1).
    destruct (IH fb1 n1) as (O & L & (added & B1 & B2) & Z); auto.
    { intros r Hr. apply Hin. now right. }
    splits; auto.
    + exists (added1 ++ added). rewrite B1, A1, <- app_assoc. split; [reflexivity|].
      rewrite length_app. lia.
    + intros C. assert (E1 : n1 = n) by lia.
      destruct (Z1 E1) as [-> Z1'].
      assert (E2 : snd (applyDLRules rs fb n1) = n1) by lia.
      destruct (Z E2) as [Z2 Z2'].
      split; [exact Z2|].
      intros h (r & s & [<-|Hr] & D & F & G & ->).
      * apply Z1'; [|exact G]. apply findSubstitutions_complete.
        -- apply map_empty_subseteq.
        -- rewrite D. set_solver.
        -- eapply Forall_impl; [exact F|]. intros b (f & Hf & I). exists f. auto.
      * apply Z2'. exists r, s. splits; auto.
Qed.

Lemma addGroundFacts_spec M : forall fs fb,
  baseOk fb -> listedIn M fb ->
  (forall f, In f fs -> hasVariables f = false -> M f) ->
  baseOk (addGroundFacts fs fb) /\ listedIn M (addGroundFacts fs fb) /\
  (exists added, factList (addGroundFacts fs fb) = factList fb ++ added) /\
  (forall f, In f fs -> hasVariables f = false ->
             is_Some (factMap (addGroundFacts fs fb) !! DLAtom_String f)) /\
  (forall s, is_Some (factMap fb !! s) -> is_Some (factMap (addGroundFacts fs fb) !! s)).
Proof.
  induction fs as [|f fs IH]; intros fb Hok HM Hfs; cbn [addGroundFacts].
  - splits; auto.
    + exists []. now rewrite app_nil_r.
    + intros ? [].
  - destruct (hasVariables f) eqn:G; cbn [negb].
    + destruct (IH fb Hok HM) as (O & L & A & K & P); [intros; apply Hfs; auto; now right|].
      splits; auto. intros g [<-|Hg] G'; [congruence|now apply K].
    + pose proof (addFact_ok fb f Hok) as O1.
      pose proof (addFact_listedIn M fb f HM (Hfs f (or_introl eq_refl) G)) as L1.
      destruct (IH _ O1 L1) as (O & L & (added & A) & K & P);
        [intros; apply Hfs; auto; now right|].
      assert (Q : forall s, is_Some (factMap fb !! s) ->
                    is_Some (factMap (fst (addFact fb f)) !! s)).
      { intros s Hs. apply (bo_keys _ O1). apply (bo_keys _ Hok) in Hs.
        destruct (addFact_appends fb f) as (a & -> & _).
        rewrite map_app, in_app_iff. now left. }
      splits; auto.
      * destruct (addFact_appends fb f) as (a & E & _). rewrite E in A.
        exists (a ++ added). now rewrite A, <- app_assoc.
      * intros g [<-|Hg] G'; [|now apply K].
        apply P. destruct (addFact_cases fb f) as [[E ->]|[E ->]]; cbn [fst factMap].
        -- rewrite lookup_insert_eq. eauto.
        -- exact E.
Qed.


(** *** The rounds of [Reason] *)

Lemma reasonLoop_spec M (rs : list DLRule) : forall fuel fb fb',
  (forall h, oneStep rs M h -> M h) ->
  baseOk fb -> listedIn M fb ->
  reasonLoop fuel rs fb = Some fb' ->
  baseOk fb' /\ listedIn M fb' /\
  (exists added, factList fb' = factList fb ++ added) /\
  (forall h, oneStep rs (fun f => In f (factList fb')) h ->
             is_Some (factMap fb' !! DLAtom_String h)).
Proof.
  induction fuel as [|fuel IH]; intros fb fb' HC Hok HM H; [discriminate|].
  cbn [reasonLoop] in H.
  pose proof (applyDLRules_spec M rs rs fb 0 (incl_refl _) HC Hok HM) as A. cbn zeta in A.
  destruct (applyDLRules rs fb 0) as [fb1 n]. cbn [fst snd] in A.
  destruct A as (O1 & L1 & (added1 & A1 & A2) & Z).
  destruct (Nat.eqb_spec n 0) as [E|E].
  - inversion H. subst fb'. destruct (Z E) as [-> Z']. splits; auto.
    exists []. now rewrite app_nil_r.
  - destruct (IH fb1 fb' HC O1 L1 H) as (O & L & (added & B) & F). splits; auto.
    exists (added1 ++ added). now rewrite B, A1, <- app_assoc.
Qed.

Lemma reasonLoop_more_fuel rs : forall fuel fuel' fb fb',
  reasonLoop fuel rs fb = Some fb' -> fuel <= fuel' -> reasonLoop fuel' rs fb = Some fb'.
Proof.
  induction fuel as [|fuel IH]; intros fuel' fb fb' H L; [discriminate|].
  destruct fuel' as [|fuel']; [lia|]. cbn [reasonLoop] in *.
  destruct (applyDLRules rs fb 0) as [fb1 n].
  destruct (n =? 0); [exact H|]. apply (IH fuel' _ _ H). lia.
Qed.

Lemma reasonLoop_terminates (U : list DLAtom) (rs : list DLRule) : forall fuel fb,
  (forall h, oneStep rs (fun f => In f U) h -> In h U) ->
  baseOk fb -> listedIn (fun f => In f U) fb ->
  length U < length (factList fb) + fuel ->
  exists fb', reasonLoop fuel rs fb = Some fb'.
Proof.
  assert (B : forall fb, baseOk fb -> listedIn (fun f => In f U) fb ->
                         length (factList fb) <= length U).
  { intros fb [_ N] L. apply List.NoDup_incl_length; [|exact L].
    eapply List.NoDup_map_inv. exact N. }
  induction fuel as [|fuel IH]; intros fb HC Hok HM F.
  - pose proof (B fb Hok HM). lia.
  - cbn [reasonLoop].
    pose proof (applyDLRules_spec _ rs rs fb 0 (incl_refl _) HC Hok HM) as A. cbn zeta in A.
    destruct (applyDLRules rs fb 0) as [fb1 n]. cbn [fst snd] in A.
    destruct A as (O1 & L1 & (added1 & A1 & A2) & Z).
    destruct (Nat.eqb_spec n 0) as [E|E]; [eauto|].
    apply IH; auto. rewrite A1, length_app. lia.
Qed.

(** *** A finite universe for the facts of a program *)

(** The atoms that give the predicates and arities: the facts and the
    heads of the rules. *)
Definition shapesOf (p : DatalogProgram) : list DLAtom := Facts p ++ map Head (Rules p).

Definition valuesOf (p : DatalogProgram) : list string :=
  flat_map (fun a => map Value (Terms a)) (shapesOf p).

Fixpoint tuples (V : list string) (k : nat) : list (list string) :=
  match k with
  | 0 => [[]]
  | S k' => flat_map (fun v => map (cons v) (tuples V k')) V
  end.

Definition universeDL (p : DatalogProgram) : list DLAtom :=
  flat_map (fun a => map (groundAtom (Predicate a))
                         (tuples (valuesOf p) (length (Terms a))))
           (shapesOf p).

(** Rounds that are enough for [Reason]: every round but the last adds a
    fact of the universe. *)
Definition reasonBound (p : DatalogProgram) : nat := S (length (universeDL p)).

Definition inUniverse (p : DatalogProgram) (a : DLAtom) : Prop :=
  hasVariables a = false /\
  (exists a0, In a0 (shapesOf p) /\ Predicate a = Predicate a0
              /\ length (Terms a) = length (Terms a0)) /\
  (forall t, In t (Terms a) -> In (Value t) (valuesOf p)).

Lemma In_tuples V : forall vs k,
  In vs (tuples V k) <-> length vs = k /\ (forall v, In v vs -> In v V).
Proof.
  intros vs k. revert vs. induction k as [|k IH]; intros vs; cbn [tuples].
  - split.
    + intros [<-|[]]. split; [reflexivity|intros ? []].
    + intros [L _]. destruct vs; [now left|discriminate].
  - rewrite in_flat_map. split.
    + intros (v & Hv & H). apply in_map_iff in H. destruct H as (ws & <- & H).
      apply IH in H. destruct H as [L H]. cbn [length]. split; [now rewrite L|].
      intros w [<-|Hw]; auto.
    + intros [L H]. destruct vs as [|v ws]; [discriminate|]. injection L as L.
      exists v. split; [apply H; now left|]. apply in_map. apply IH.
      split; [exact L|]. intros w Hw. apply H. now right.
Qed.

Lemma In_universeDL p a : In a (universeDL p) <-> inUniverse p a.
Proof.
  unfold universeDL, inUniverse. rewrite in_flat_map. split.
  - intros (a0 & H0 & H). apply in_map_iff in H. destruct H as (vs & <- & H).
    apply In_tuples in H. destruct H as [L H]. splits.
    + unfold hasVariables, groundAtom. cbn [Terms]. clear. induction vs; auto.
    + exists a0. unfold groundAtom. cbn [Predicate Terms]. rewrite length_map. auto.
    + unfold groundAtom. cbn [Terms]. intros t Ht. apply in_map_iff in Ht.
      destruct Ht as (v & <- & Hv). cbn [Value]. auto.
  - intros (G & (a0 & H0 & P & L) & H). exists a0. split; [exact H0|].
    rewrite (ground_eta a G), P. apply in_map. apply In_tuples.
    rewrite length_map. split; [exact L|].
    intros v Hv. apply in_map_iff in Hv. destruct Hv as (t & <- & Ht). auto.
Qed.

Lemma In_varsOf x ts : x ∈ varsOf ts -> exists t, In t ts /\ IsVariable t = true /\ Value t = x.
Proof.
  unfold varsOf. rewrite elem_of_list_to_set, list_elem_of_In, in_map_iff.
  intros (t & E & H). apply List.filter_In in H. destruct H. eauto.
Qed.

Lemma Forall2_In_l {A B} (R : A -> B -> Prop) l l' x :
  Forall2 R l l' -> In x l -> exists y, In y l' /\ R x y.
Proof.
  induction 1 as [|a b l l' H F IH]; intros Hx; [destruct Hx|].
  destruct Hx as [<-|Hx].
  - exists b. split; [now left|exact H].
  - destruct (IH Hx) as (y & Hy & Ry). exists y. split; [now right|exact Ry].
Qed.

(** A bound variable of the body is bound to a value of a fact. *)
Lemma bound_value M s : forall body x,
  Forall (fun b => exists f, M f /\ instanceOf s b f) body ->
  x ∈ bodyVars body ->
  exists f ft, M f /\ In ft (Terms f) /\ s !! x = Some (Value ft).
Proof.
  induction body as [|b body IH]; intros x F Hx; cbn [bodyVars] in Hx; [set_solver|].
  inversion F as [|? ? (f & Hf & _ & F2) F']; subst.
  apply elem_of_union in Hx. destruct Hx as [Hx|Hx]; [|now apply IH].
  apply In_varsOf in Hx. destruct Hx as (t & Ht & V & <-).
  destruct (Forall2_In_l _ _ _ _ F2 Ht) as (ft & Hft & R).
  unfold standsFor in R. rewrite V in R. eauto.
Qed.

Lemma universe_closed p : closedDL p (inUniverse p).
Proof.
  split.
  - intros f Hf G. unfold inUniverse. splits; [exact G| |].
    + exists f. split; [|auto]. unfold shapesOf. apply in_app_iff. now left.
    + intros t Ht. unfold valuesOf. apply in_flat_map. exists f. split.
      * unfold shapesOf. apply in_app_iff. now left.
      * now apply in_map.
  - intros h (rule & s & Hr & D & F & G & ->).
    assert (S0 : In (Head rule) (shapesOf p)).
    { unfold shapesOf. apply in_app_iff. right. now apply in_map. }
    unfold inUniverse. splits; [exact G| |].
    + exists (Head rule). split; [exact S0|]. cbn [applySubstitution Predicate Terms].
      now rewrite length_map.
    + intros t' Ht'. cbn [applySubstitution Terms] in Ht'.
      apply in_map_iff in Ht'. destruct Ht' as (t & E & Ht).
      assert (C : In (Value t) (valuesOf p)).
      { unfold valuesOf. apply in_flat_map. exists (Head rule). split; [exact S0|].
        now apply in_map. }
      destruct (IsVariable t) eqn:V; [|now subst t'].
      destruct (s !! Value t) as [val|] eqn:B; [|now subst t'].
      subst t'. cbn [Value].
      assert (Hx : Value t ∈ bodyVars (Body rule)).
      { rewrite <- D. eapply elem_of_dom_2. exact B. }
      destruct (bound_value _ _ _ _ F Hx) as (f & ft & (_ & _ & Hf) & Hft & E).
      rewrite B in E. injection E as ->. now apply Hf.
Qed.

Lemma listed_ground_least p fuel fb' :
  reasonLoop fuel (Rules p) (addGroundFacts (Facts p) emptyBase) = Some fb' ->
  baseOk fb' /\
  (forall M, closedDL p M -> listedIn M fb') /\
  (exists added, factList fb' = factList (addGroundFacts (Facts p) emptyBase) ++ added) /\
  (forall f, In f (Facts p) -> hasVariables f = false ->
             is_Some (factMap fb' !! DLAtom_String f)) /\
  (forall h, oneStep (Rules p) (fun f => In f (factList fb')) h ->
             is_Some (factMap fb' !! DLAtom_String h)).
Proof.
  intros R.
  assert (I : forall M, closedDL p M ->
                baseOk (addGroundFacts (Facts p) emptyBase) /\
                listedIn M (addGroundFacts (Facts p) emptyBase) /\
                (forall f, In f (Facts p) -> hasVariables f = false ->
                   is_Some (factMap (addGroundFacts (Facts p) emptyBase)
                              !! DLAtom_String f))).
  { intros M [C1 C2].
    destruct (addGroundFacts_spec M (Facts p) emptyBase emptyBase_ok)
      as (O & L & _ & K & _); auto. intros f []. }
  assert (T : closedDL p (fun _ => True)) by (split; auto).
  destruct (I _ T) as (O0 & _ & K0).
  destruct (reasonLoop_spec (fun _ => True) (Rules p) fuel _ fb' (fun _ _ => Logic.I) O0
              (fun _ _ => Logic.I) R) as (O & _ & (added & A) & F).
  splits; auto.
  - intros M C. destruct (I M C) as (_ & L0 & _).
    now destruct (reasonLoop_spec M (Rules p) fuel _ fb' (proj2 C) O0 L0 R).
  - eauto.
  - intros f Hf G. apply (bo_keys _ O). rewrite A, map_app, in_app_iff. left.
    apply (bo_keys _ O0). now apply K0.
Qed.

(** [Reason] returns within [reasonBound] rounds, with facts of the
    universe. *)
Lemma Reason_returns p :
  exists fb',
    reasonLoop (reasonBound p) (Rules p) (addGroundFacts (Facts p) emptyBase) = Some fb' /\
    listedIn (inUniverse p) fb'.
Proof.
  pose proof (universe_closed p) as [U1 U2].
  destruct (addGroundFacts_spec (inUniverse p) (Facts p) emptyBase emptyBase_ok)
    as (O0 & L0 & _); [intros f []|exact U1|].
  destruct (reasonLoop_terminates (universeDL p) (Rules p) (reasonBound p)
              (addGroundFacts (Facts p) emptyBase)) as (fb' & R).
  - intros h H. apply In_universeDL. apply U2.
    destruct H as (rule & s & Hr & D & F & G & ->). exists rule, s. splits; auto.
    eapply Forall_impl; [exact F|]. intros b (f & Hf & I). exists f.
    split; [now apply In_universeDL|exact I].
  - exact O0.
  - intros f Hf. apply In_universeDL. now apply L0.
  - unfold reasonBound. lia.
  - exists fb'. split; [exact R|].
    destruct (listed_ground_least p _ fb' R) as (_ & L & _).
    apply L. apply universe_closed.
Qed.

(** X23.  [Reason] returns: [reasonBound] rounds are enough for every
    program.  The facts it returns have no variable, no two of them have
    the same rendering, and each is in the least set that holds the
    variable-free facts of the program and is closed under its rules. *)
Theorem Reason_terminates_and_is_sound (p : DatalogProgram) :
  exists l,
    (forall fuel, reasonBound p <= fuel -> Reason fuel p = Some l) /\
    List.NoDup (map DLAtom_String l) /\
    (forall f, In f l -> hasVariables f = false /\ leastDL p f).
Proof.
  destruct (Reason_returns p) as (fb' & R & LU).
  destruct (listed_ground_least p _ fb' R) as (O & L & _).
  exists (factList fb'). splits.
  - intros fuel Hf. unfold Reason. fold emptyBase.
    now rewrite (reasonLoop_more_fuel _ _ fuel _ _ R Hf).
  - apply (bo_nodup _ O).
  - intros f Hf. split.
    + apply (LU f Hf).
    + intros M C. now apply (L M C).
Qed.

(** X24.  The facts that [Reason] returns are a fixed point, rendering
    for rendering: every variable-free fact of the program, and every
    variable-free head that a rule yields from returned facts, has the
    rendering of a returned fact; and the variable-free facts of the
    program come first, in their order. *)
Theorem Reason_fixed_point (fuel : nat) (p : DatalogProgram) (l : list DLAtom) :
  Reason fuel p = Some l ->
  (forall f, In f (Facts p) -> hasVariables f = false ->
             exists g, In g l /\ DLAtom_String g = DLAtom_String f) /\
  (forall h, oneStep (Rules p) (fun f => In f l) h ->
             exists g, In g l /\ DLAtom_String g = DLAtom_String h) /\
  (exists derived, l = factList (addGroundFacts (Facts p) emptyBase) ++ derived).
Proof.
  unfold Reason. fold emptyBase.
  destruct (reasonLoop fuel (Rules p) (addGroundFacts (Facts p) emptyBase))
    as [fb'|] eqn:R; [|discriminate].
  intros E. inversion E. subst l.
  destruct (listed_ground_least p _ fb' R) as (O & _ & A & K & F).
  assert (Q : forall a, is_Some (factMap fb' !! DLAtom_String a) ->
                exists g, In g (factList fb') /\ DLAtom_String g = DLAtom_String a).
  { intros a Ha. apply (bo_keys _ O) in Ha. apply in_map_iff in Ha.
    destruct Ha as (g & Eg & Hg). eauto. }
  splits; auto.
Qed.


(** *** When the rendering tells the facts apart *)

(** [s] does not contain the character [c]. *)
Fixpoint lacks (c : ascii) (s : string) : bool :=
  match s with
  | EmptyString => true
  | String ch s' => negb (Ascii.eqb ch c) && lacks c s'
  end.

(** The atoms that [parseAtom] builds: no parenthesis in the predicate, no
    empty term and no comma in a term. *)
Definition wellFormedAtom (a : DLAtom) : Prop :=
  lacks "(" (Predicate a) = true /\
  forall t, In t (Terms a) -> Value t <> EmptyString /\ lacks "," (Value t) = true.

Definition wellFormed (p : DatalogProgram) : Prop :=
  forall a, In a (shapesOf p) -> wellFormedAtom a.

Lemma append_sep_inj c s1 : forall s2 r1 r2,
  lacks c s1 = true -> lacks c s2 = true ->
  s1 +:+ String c r1 = s2 +:+ String c r2 -> s1 = s2 /\ r1 = r2.
Proof.
  induction s1 as [|x s1 IH]; intros [|y s2] r1 r2 H1 H2 E;
    rewrite ?append_String, ?append_Empty in E; cbn [lacks] in H1, H2.
  - inversion E. auto.
  - inversion E. subst y. rewrite Ascii.eqb_refl in H2. discriminate.
  - inversion E. subst x. rewrite Ascii.eqb_refl in H1. discriminate.
  - inversion E. subst y.
    apply andb_true_iff in H1, H2.
    destruct (IH s2 r1 r2) as [-> ->]; tauto.
Qed.

Lemma lacks_sep c s r : lacks c (s +:+ String c r) = false.
Proof.
  induction s as [|x s IH]; rewrite ?append_String, ?append_Empty; cbn [lacks].
  - now rewrite Ascii.eqb_refl.
  - rewrite IH. apply andb_false_r.
Qed.

Lemma length_append_S : forall a b,
  String.length (a +:+ b) = String.length a + String.length b.
Proof.
  induction a as [|x a IH]; intros b; [reflexivity|].
  rewrite append_String. cbn [String.length]. now rewrite IH.
Qed.

Lemma append_inv_tail t : forall s1 s2, s1 +:+ t = s2 +:+ t -> s1 = s2.
Proof.
  assert (L : forall s1 s2, s1 +:+ t = s2 +:+ t -> String.length s1 = String.length s2).
  { intros s1 s2 E. apply (f_equal String.length) in E.
    rewrite !length_append_S in E. lia. }
  induction s1 as [|x s1 IH]; intros [|y s2] E; pose proof (L _ _ E) as Q;
    try discriminate Q; [reflexivity|].
  rewrite !append_String in E. inversion E. f_equal. now apply IH.
Qed.

Lemma joinValues_cons t u ts :
  joinValues (t :: u :: ts) = Value t +:+ String "," (String " " (joinValues (u :: ts))).
Proof. reflexivity. Qed.

Lemma joinValues_inj : forall ts us,
  (forall t, In t ts -> Value t <> EmptyString /\ lacks "," (Value t) = true) ->
  (forall t, In t us -> Value t <> EmptyString /\ lacks "," (Value t) = true) ->
  joinValues ts = joinValues us -> map Value ts = map Value us.
Proof.
  induction ts as [|t ts IH]; intros [|u us] H1 H2 E.
  - reflexivity.
  - exfalso. destruct (H2 u (or_introl eq_refl)) as [N _].
    destruct us as [|u2 us]; [cbn in E; congruence|].
    rewrite joinValues_cons in E. destruct (Value u); [congruence|discriminate E].
  - exfalso. destruct (H1 t (or_introl eq_refl)) as [N _].
    destruct ts as [|t2 ts]; [cbn in E; congruence|].
    rewrite joinValues_cons in E. destruct (Value t); [congruence|discriminate E].
  - destruct (H1 t (or_introl eq_refl)) as [_ C1].
    destruct (H2 u (or_introl eq_refl)) as [_ C2].
    destruct ts as [|t2 ts], us as [|u2 us].
    + cbn in E. cbn. now rewrite E.
    + exfalso. rewrite joinValues_cons in E. cbn [joinValues] in E.
      rewrite E, lacks_sep in C1. discriminate.
    + exfalso. rewrite joinValues_cons in E. cbn [joinValues] in E.
      rewrite <- E, lacks_sep in C2. discriminate.
    + rewrite !joinValues_cons in E.
      apply append_sep_inj in E; [|assumption|assumption].
      destruct E as [E1 E2]. injection E2 as E2.
      cbn [map]. rewrite E1. f_equal. apply (IH (u2 :: us)).
      * intros x Hx. apply H1. now right.
      * intros x Hx. apply H2. now right.
      * exact E2.
Qed.

Lemma DLAtom_String_inj a b :
  wellFormedAtom a -> wellFormedAtom b ->
  hasVariables a = false -> hasVariables b = false ->
  DLAtom_String a = DLAtom_String b -> a = b.
Proof.
  intros [Pa Ta] [Pb Tb] Ga Gb E. unfold DLAtom_String in E.
  change (Predicate a +:+ String "(" (joinValues (Terms a) +:+ ")")
          = Predicate b +:+ String "(" (joinValues (Terms b) +:+ ")")) in E.
  apply append_sep_inj in E; [|assumption|assumption]. destruct E as [E1 E2].
  apply append_inv_tail in E2. apply joinValues_inj in E2; [|assumption|assumption].
  rewrite (ground_eta a Ga), (ground_eta b Gb). now rewrite E1, E2.
Qed.

Lemma inUniverse_wellFormed p a : wellFormed p -> inUniverse p a -> wellFormedAtom a.
Proof.
  intros W (_ & (a0 & H0 & P & _) & V). split.
  - rewrite P. apply (W a0 H0).
  - intros t Ht. specialize (V t Ht). unfold valuesOf in V.
    apply in_flat_map in V. destruct V as (a1 & H1 & V).
    apply in_map_iff in V. destruct V as (t1 & <- & Ht1).
    now apply (W a1 H1).
Qed.

Lemma Reason_least p :
  wellFormed p ->
  exists l,
    (forall fuel, reasonBound p <= fuel -> Reason fuel p = Some l) /\
    forall f, In f l <-> leastDL p f.
Proof.
  intros W. destruct (Reason_returns p) as (fb' & R & LU).
  destruct (listed_ground_least p _ fb' R) as (O & L & _ & K & F).
  exists (factList fb'). split.
  - intros fuel Hf. unfold Reason. fold emptyBase.
    now rewrite (reasonLoop_more_fuel _ _ fuel _ _ R Hf).
  - assert (Q : forall a, inUniverse p a ->
                  is_Some (factMap fb' !! DLAtom_String a) -> In a (factList fb')).
    { intros a Ua Ha. apply (bo_keys _ O) in Ha. apply in_map_iff in Ha.
      destruct Ha as (g & Eg & Hg).
      assert (g = a); [|now subst].
      apply DLAtom_String_inj; auto.
      - apply (inUniverse_wellFormed p); auto.
      - now apply (inUniverse_wellFormed p).
      - apply (LU g Hg).
      - apply Ua. }
    intros f. split.
    + intros Hf M C. now apply (L M C).
    + intros Hf. apply (Hf (fun a => In a (factList fb'))). split.
      * intros g Hg G. apply Q; [|now apply K].
        now apply (proj1 (universe_closed p)).
      * intros h H. apply Q; [|now apply F]. apply (proj2 (universe_closed p)).
        destruct H as (rule & s & Hr & D & Fb & G & ->). exists rule, s. splits; auto.
        eapply Forall_impl; [exact Fb|]. intros b (g & Hg & I). exists g. auto.
Qed.

(** X25.  For a program whose facts and rule heads are as [parseAtom]
    builds them (no parenthesis in a predicate, no empty term, no comma in
    a term), [Reason] computes the least model: it returns exactly the
    facts of the least set that holds the variable-free facts of the
    program and is closed under its rules. *)
Theorem Reason_computes_the_least_model (p : DatalogProgram) :
  wellFormed p ->
  exists l,
    (forall fuel, reasonBound p <= fuel -> Reason fuel p = Some l) /\
    List.NoDup l /\
    forall f, In f l <-> leastDL p f.
Proof.
  intros W. destruct (Reason_least p W) as (l & R & L).
  exists l. splits; auto.
  destruct (Reason_returns p) as (fb' & R' & _).
  destruct (listed_ground_least p _ fb' R') as (O & _).
  specialize (R (reasonBound p) (le_n _)). unfold Reason in R. fold emptyBase in R.
  rewrite R' in R. inversion R. subst l.
  eapply List.NoDup_map_inv. apply (bo_nodup _ O).
Qed.


(** *** The answer to a query *)

(** The query term [qt] admits the fact term [ft]: a variable admits
    everything, a constant its own value. *)
Definition admits (qt ft : DLTerm) : Prop := IsVariable qt = false -> Value qt = Value ft.

Lemma termsMatch_admits : forall qs fs,
  length qs = length fs -> (termsMatch qs fs = true <-> Forall2 admits qs fs).
Proof.
  induction qs as [|q qs IH]; intros [|f fs] L; try discriminate L.
  - cbn. split; [constructor|reflexivity].
  - injection L as L. cbn [termsMatch]. specialize (IH fs L).
    destruct (IsVariable q) eqn:V; cbn [negb andb].
    + rewrite IH. split.
      * intros H. constructor; [unfold admits; congruence|exact H].
      * intros H. now inversion H.
    + destruct (String.eqb (Value q) (Value f)) eqn:E; cbn [negb].
      * apply String.eqb_eq in E. rewrite IH. split.
        -- intros H. constructor; [unfold admits; auto|exact H].
        -- intros H. now inversion H.
      * apply String.eqb_neq in E. split; [discriminate|].
        intros H. inversion H as [|? ? ? ? A]. subst. exfalso. apply E. now apply A.
Qed.

Lemma EvaluateQuery_admits query : forall derivedFacts,
  EvaluateQuery query derivedFacts = true <->
  exists f, In f derivedFacts /\ Predicate f = Predicate query /\
            Forall2 admits (Terms query) (Terms f).
Proof.
  induction derivedFacts as [|f rest IH]; cbn [EvaluateQuery].
  - split; [discriminate|]. intros (f & [] & _).
  - destruct (String.eqb (Predicate f) (Predicate query)) eqn:P; cbn [negb orb].
    + apply String.eqb_eq in P.
      destruct (Nat.eqb_spec (length (Terms f)) (length (Terms query))) as [L|L];
        cbn [negb].
      * pose proof (termsMatch_admits (Terms query) (Terms f) (eq_sym L)) as T.
        destruct (termsMatch (Terms query) (Terms f)).
        -- split; [|reflexivity]. intros _. exists f.
           split; [now left|]. split; [exact P|]. now apply T.
        -- rewrite IH. split.
           ++ intros (g & Hg & R). exists g. split; [now right|exact R].
           ++ intros (g & [<-|Hg] & Pg & R); [|exists g; auto].
              apply T in R. discriminate.
      * rewrite IH. split.
        -- intros (g & Hg & R). exists g. split; [now right|exact R].
        -- intros (g & [<-|Hg] & Pg & R); [|exists g; auto].
           apply Forall2_length in R. congruence.
    + apply String.eqb_neq in P. rewrite IH. split.
      * intros (g & Hg & R). exists g. split; [now right|exact R].
      * intros (g & [<-|Hg] & Pg & R); [contradiction|]. exists g. auto.
Qed.

(** X26.  For a program as the parser builds it, [DLQuery] answers, and
    it answers true exactly when the least model of the program has a
    fact with the predicate and arity of the query that agrees with it
    wherever the query has a constant. *)
Theorem DLQuery_answers_from_the_least_model (p : DatalogProgram) (query : DLAtom)
  (fuel : nat) :
  wellFormed p -> reasonBound p <= fuel ->
  exists b, DLQueryParsed fuel p query = Some b /\
    (b = true <->
     exists f, leastDL p f /\ Predicate f = Predicate query /\
               Forall2 admits (Terms query) (Terms f)).
Proof.
  intros W Hf. destruct (Reason_least p W) as (l & R & L).
  exists (EvaluateQuery query l). unfold DLQueryParsed. rewrite (R fuel Hf).
  split; [reflexivity|]. rewrite EvaluateQuery_admits. split.
  - intros (f & H & Q). exists f. split; [now apply L|exact Q].
  - intros (f & H & Q). exists f. split; [now apply L|exact Q].
Qed.

(** *** A program to run: the ancestors of [a], [b] and [c] *)

Definition var (x : string) : DLTerm := mkTerm x true.
Definition const (x : string) : DLTerm := mkTerm x false.

Definition ancestry : DatalogProgram :=
  {| Facts := [ mkAtom "parent" [const "a"; const "b"];
                mkAtom "parent" [const "b"; const "c"] ];
     Rules := [ mkRule (mkAtom "ancestor" [var "X"; var "Y"])
                       [ mkAtom "parent" [var "X"; var "Y"] ];
                mkRule (mkAtom "ancestor" [var "X"; var "Z"])
                       [ mkAtom "parent" [var "X"; var "Y"];
                         mkAtom "ancestor" [var "Y"; var "Z"] ] ] |}.

Definition ancestryFacts : list DLAtom :=
  [ mkAtom "parent" [const "a"; const "b"];
    mkAtom "parent" [const "b"; const "c"];
    mkAtom "ancestor" [const "a"; const "b"];
    mkAtom "ancestor" [const "b"; const "c"];
    mkAtom "ancestor" [const "a"; const "c"] ].

Lemma ancestry_wellFormed : wellFormed ancestry.
Proof.
  intros a H. cbn in H.
  repeat (destruct H as [<-|H];
          [split; [reflexivity|];
           intros t Ht; cbn in Ht;
           repeat (destruct Ht as [<-|Ht]; [split; [discriminate|reflexivity]|]);
           destruct Ht|]).
  destruct H.
Defined.

Lemma found_substitution_instantiates_body_witness :
  In (applySubstitution (mkAtom "parent" [var "X"; var "Y"])
        (<["Y" := "b"]> (<["X" := "a"]> ∅)))
     (Facts ancestry).
Proof.
  apply (found_substitution_instantiates_body
           [mkAtom "parent" [var "X"; var "Y"]] (Facts ancestry) ∅
           (<["Y" := "b"]> (<["X" := "a"]> ∅)) (mkAtom "parent" [var "X"; var "Y"])).
  - intros f H. cbn in H. destruct H as [<-|[<-|[]]]; reflexivity.
  - left. vm_compute. reflexivity.
  - now left.
Defined.

Lemma Reason_fixed_point_witness :
  (forall f, In f (Facts ancestry) -> hasVariables f = false ->
             exists g, In g ancestryFacts /\ DLAtom_String g = DLAtom_String f) /\
  (forall h, oneStep (Rules ancestry) (fun f => In f ancestryFacts) h ->
             exists g, In g ancestryFacts /\ DLAtom_String g = DLAtom_String h) /\
  (exists derived,
     ancestryFacts = factList (addGroundFacts (Facts ancestry) emptyBase) ++ derived).
Proof.
  apply (Reason_fixed_point 4 ancestry ancestryFacts). vm_compute. reflexivity.
Defined.

Lemma Reason_computes_the_least_model_witness :
  exists l,
    (forall fuel, reasonBound ancestry <= fuel -> Reason fuel ancestry = Some l) /\
    List.NoDup l /\
    forall f, In f l <-> leastDL ancestry f.
Proof.
  apply (Reason_computes_the_least_model ancestry). exact ancestry_wellFormed.
Defined.

Lemma DLQuery_answers_from_the_least_model_witness :
  exists b, DLQueryParsed (reasonBound ancestry) ancestry (mkAtom "ancestor" [const "a"; var "W"])
            = Some b /\
    (b = true <->
     exists f, leastDL ancestry f /\ Predicate f = "ancestor" /\
               Forall2 admits [const "a"; var "W"] (Terms f)).
Proof.
  apply (DLQuery_answers_from_the_least_model ancestry
           (mkAtom "ancestor" [const "a"; var "W"]) (reasonBound ancestry)).
  - exact ancestry_wellFormed.
  - apply le_n.
Defined.

(** X27.  A substitution found for the body of a rule leaves no variable
    in the head exactly when every variable of the head occurs in the
    body: a rule with a head variable that its body does not bind never
    yields a fact. *)
Theorem head_is_ground_iff_body_binds_it (body facts : list DLAtom) (head : DLAtom)
  (s : gmap string string) :
  In s (findSubstitutions body facts ∅) ->
  (hasVariables (applySubstitution head s) = false <->
   varsOf (Terms head) ⊆ bodyVars body).
Proof.
  intros H. apply findSubstitutions_sound in H. destruct H as (_ & D & _).
  rewrite hasVariables_applySubstitution, D. set_solver.
Qed.

Lemma head_is_ground_iff_body_binds_it_witness :
  hasVariables (applySubstitution (mkAtom "ancestor" [var "X"; var "Z"])
                  (<["Y" := "b"]> (<["X" := "a"]> ∅))) = false <->
  varsOf [var "X"; var "Z"] ⊆ bodyVars [mkAtom "parent" [var "X"; var "Y"]].
Proof.
  apply (head_is_ground_iff_body_binds_it
           [mkAtom "parent" [var "X"; var "Y"]] (Facts ancestry)
           (mkAtom "ancestor" [var "X"; var "Z"]) (<["Y" := "b"]> (<["X" := "a"]> ∅))).
  left. vm_compute. reflexivity.
Defined.


(** ** Names for Datalog *)

(** [s] has none of the four characters that [makeDatalogSafe] replaces. *)
Fixpoint clean (s : string) : bool :=
  match s with
  | EmptyString => true
  | String ch s' =>
      negb (Ascii.eqb ch "-") && negb (Ascii.eqb ch ":") && negb (Ascii.eqb ch " ")
      && negb (Ascii.eqb ch ".") && clean s'
  end.

(** What [makeDatalogSafe] leaves as it is. *)
Definition safeName (r : string) : Prop :=
  clean r = true /\ r <> EmptyString /\ r <> "_"%string /\
  forall ch r', r = String ch r' -> inRange 48 57 ch = false.

Definition replaced (s : string) : string :=
  replaceByte "." "_" (replaceByte " " "_" (replaceByte ":" "_" (replaceByte "-" "_" s))).

Lemma replaced_cons ch s :
  replaced (String ch s)
  = String (if Ascii.eqb ch "-" || Ascii.eqb ch ":" || Ascii.eqb ch " " || Ascii.eqb ch "."
            then "_"%char else ch) (replaced s).
Proof.
  unfold replaced. cbn [replaceByte]. f_equal.
  destruct (Ascii.eqb ch "-") eqn:E1; [reflexivity|].
  destruct (Ascii.eqb ch ":") eqn:E2; [reflexivity|].
  destruct (Ascii.eqb ch " ") eqn:E3; [reflexivity|].
  destruct (Ascii.eqb ch ".") eqn:E4; reflexivity.
Qed.

Lemma replaced_clean : forall s, clean (replaced s) = true.
Proof.
  induction s as [|ch s IH]; [reflexivity|].
  rewrite replaced_cons. cbn [clean]. rewrite IH.
  destruct (Ascii.eqb ch "-") eqn:E1; [reflexivity|].
  destruct (Ascii.eqb ch ":") eqn:E2; [reflexivity|].
  destruct (Ascii.eqb ch " ") eqn:E3; [reflexivity|].
  destruct (Ascii.eqb ch ".") eqn:E4; [reflexivity|].
  cbn [orb]. now rewrite E1, E2, E3, E4.
Qed.

Lemma clean_replaced : forall s, clean s = true -> replaced s = s.
Proof.
  induction s as [|ch s IH]; [reflexivity|].
  cbn [clean]. intros H. rewrite replaced_cons.
  repeat (apply andb_true_iff in H; destruct H as [H ?]).
  rewrite IH by assumption.
  repeat match goal with
         | H : negb _ = true |- _ => apply negb_true_iff in H; rewrite H
         end.
  reflexivity.
Qed.

Lemma clean_lacks s :
  clean s = true ->
  strContains "-" s = false /\ strContains ":" s = false /\
  strContains " " s = false /\ strContains "." s = false.
Proof.
  induction s as [|ch s IH]; [now cbn|].
  cbn [clean]. intros H.
  repeat (apply andb_true_iff in H; destruct H as [H ?]).
  destruct IH as (I1 & I2 & I3 & I4); [assumption|].
  rewrite !strContains_char, I1, I2, I3, I4, !orb_false_r.
  repeat match goal with
         | H : negb _ = true |- _ => apply negb_true_iff in H
         end.
  rewrite !(Ascii.eqb_sym _ ch). auto.
Qed.

Lemma makeDatalogSafe_unfold s :
  makeDatalogSafe s =
  let r := match replaced s with
           | String ch _ => if inRange 48 57 ch then String "_" (replaced s) else replaced s
           | EmptyString => replaced s
           end in
  if String.eqb r EmptyString || String.eqb r "_" then "unknown"%string else r.
Proof. reflexivity. Qed.

Lemma makeDatalogSafe_fixes r : safeName r -> makeDatalogSafe r = r.
Proof.
  intros (C & N1 & N2 & D). rewrite makeDatalogSafe_unfold, (clean_replaced r C). cbn zeta.
  destruct r as [|ch r']; [congruence|]. rewrite (D ch r' eq_refl).
  apply String.eqb_neq in N1, N2. now rewrite N1, N2.
Qed.

Lemma makeDatalogSafe_safe s : safeName (makeDatalogSafe s).
Proof.
  rewrite makeDatalogSafe_unfold. cbn zeta. pose proof (replaced_clean s) as C.
  assert (U : safeName "unknown").
  { unfold safeName. splits; [reflexivity|discriminate|discriminate|].
    intros ch r' E. now inversion E. }
  destruct (replaced s) as [|ch t] eqn:R; [exact U|].
  destruct (inRange 48 57 ch) eqn:D.
  - cbn [String.eqb Ascii.eqb Bool.eqb orb andb]. unfold safeName. splits.
    + cbn [clean]. exact C.
    + discriminate.
    + discriminate.
    + intros c r' E. now inversion E.
  - destruct (String.eqb (String ch t) EmptyString || String.eqb (String ch t) "_") eqn:Q;
      [exact U|].
    apply orb_false_iff in Q. destruct Q as [Q1 Q2]. apply String.eqb_neq in Q1, Q2.
    unfold safeName. splits; auto.
    intros c r' E. inversion E. now subst.
Qed.

(** X28.  A name made by [makeDatalogSafe] is never empty and never a lone
    underscore, contains no hyphen, colon, space or full stop and does not
    begin with a digit; [makeDatalogSafe] leaves such a name unchanged, so
    applying it twice is applying it once. *)
Theorem makeDatalogSafe_spec (s : string) :
  makeDatalogSafe s <> EmptyString /\ makeDatalogSafe s <> "_"%string /\
  strContains "-" (makeDatalogSafe s) = false /\
  strContains ":" (makeDatalogSafe s) = false /\
  strContains " " (makeDatalogSafe s) = false /\
  strContains "." (makeDatalogSafe s) = false /\
  (forall ch r, makeDatalogSafe s = String ch r -> inRange 48 57 ch = false) /\
  makeDatalogSafe (makeDatalogSafe s) = makeDatalogSafe s.
Proof.
  pose proof (makeDatalogSafe_safe s) as S.
  pose proof (makeDatalogSafe_fixes _ S) as F.
  destruct S as (C & N1 & N2 & D).
  destruct (clean_lacks _ C) as (L1 & L2 & L3 & L4).
  splits; auto.
Qed.

Lemma hasSuffixByte_app c : forall s, hasSuffixByte c (s +:+ String c EmptyString) = true.
Proof.
  induction s as [|x s IH].
  - cbn. apply Ascii.eqb_refl.
  - rewrite append_String. cbn [hasSuffixByte].
    destruct (s +:+ String c EmptyString) eqn:E; [destruct s; discriminate E|exact IH].
Qed.

Lemma dropLast_app c : forall s, dropLast (s +:+ String c EmptyString) = s.
Proof.
  induction s as [|x s IH]; [reflexivity|].
  rewrite append_String. cbn [dropLast].
  destruct (s +:+ String c EmptyString) eqn:E; [destruct s; discriminate E|].
  now rewrite IH.
Qed.

Lemma afterLast_none c : forall s,
  strContains (String c EmptyString) s = false -> afterLast c s = s.
Proof.
  destruct s as [|x s]; [reflexivity|].
  rewrite strContains_char. intros H. apply orb_false_iff in H. destruct H as [H1 H2].
  cbn [afterLast]. rewrite H2. rewrite Ascii.eqb_sym in H1. now rewrite H1.
Qed.

Lemma afterLast_app c name : forall ns,
  strContains (String c EmptyString) name = false ->
  afterLast c (ns +:+ String c name) = name.
Proof.
  intros ns H. induction ns as [|x ns IH].
  - rewrite append_Empty. cbn [afterLast]. now rewrite H, Ascii.eqb_refl.
  - rewrite append_String. cbn [afterLast].
    rewrite strContains_char_app, strContains_char, Ascii.eqb_refl, orb_true_r.
    exact IH.
Qed.

Lemma prefix_byte c x s : String.prefix (String c EmptyString) (String x s) = Ascii.eqb c x.
Proof.
  cbn [String.prefix]. destruct (ascii_dec c x) as [->|N].
  - rewrite Ascii.eqb_refl. now destruct s.
  - apply Ascii.eqb_neq in N. now rewrite N.
Qed.

(** X29.  [simplifyIRI] keeps only the local name of an IRI in angle
    brackets: the text after the last [#], or after the last [/] when the
    IRI has no [#]; two IRIs with the same local name in different name
    spaces get the same Datalog name. *)
Theorem simplifyIRI_keeps_the_local_name (ns name : string) :
  String.prefix (String dquote EmptyString) ns = false ->
  strContains "#" name = false ->
  simplifyIRI ("<" +:+ ns +:+ "#" +:+ name +:+ ">") = makeDatalogSafe name /\
  (strContains "#" ns = false -> strContains "/" name = false ->
   simplifyIRI ("<" +:+ ns +:+ "/" +:+ name +:+ ">") = makeDatalogSafe name).
Proof.
  intros Q H.
  assert (S : forall c, Ascii.eqb dquote c = false ->
              simplifyIRI ("<" +:+ ns +:+ String c EmptyString +:+ name +:+ ">")
              = let iri := ns +:+ String c name in
                if strContains "#" iri then makeDatalogSafe (afterLast "#" iri)
                else if strContains "/" iri then makeDatalogSafe (afterLast "/" iri)
                else makeDatalogSafe iri).
  { intros c Hc. unfold simplifyIRI.
    replace ("<" +:+ ns +:+ String c EmptyString +:+ name +:+ ">")
      with (String "<" (ns +:+ String c name) +:+ ">")
      by (repeat first [ rewrite append_assoc_S | rewrite append_String
                       | rewrite append_Empty ]; reflexivity).
    rewrite hasSuffixByte_app, append_String, prefix_byte.
    cbn [Ascii.eqb Bool.eqb andb dropS].
    rewrite dropLast_app. cbn zeta.
    assert (P : String.prefix (String dquote EmptyString) (ns +:+ String c name) = false).
    { destruct ns as [|x ns].
      - rewrite append_Empty, prefix_byte. exact Hc.
      - rewrite append_String. rewrite prefix_byte in *. exact Q. }
    now rewrite P. }
  split.
  - rewrite (S "#"%char eq_refl). cbn zeta.
    rewrite strContains_char_app, strContains_char, Ascii.eqb_refl, orb_true_r.
    now rewrite afterLast_app.
  - intros H1 H2. rewrite (S "/"%char eq_refl). cbn zeta.
    rewrite (strContains_char_app "#"), (strContains_char "#"), H1, H. cbn [Ascii.eqb Bool.eqb orb].
    rewrite strContains_char_app, strContains_char, Ascii.eqb_refl, orb_true_r.
    now rewrite afterLast_app.
Qed.

Lemma simplifyIRI_keeps_the_local_name_witness :
  simplifyIRI ("<" +:+ "http://example.org/vocab" +:+ "#" +:+ "has-part" +:+ ">")
  = makeDatalogSafe "has-part" /\
  (strContains "#" "http://example.org/vocab" = false ->
   strContains "/" "has-part" = false ->
   simplifyIRI ("<" +:+ "http://example.org/vocab" +:+ "/" +:+ "has-part" +:+ ">")
   = makeDatalogSafe "has-part").
Proof.
  apply (simplifyIRI_keeps_the_local_name "http://example.org/vocab" "has-part").
  - reflexivity.
  - reflexivity.
Defined.
